(** * Avro schema flattening and DDL generation ([ddl_enriched.py])

    A shallow embedding of the schema-flattening core of the Avro Schema
    Analyzer: the Path Namer ([get_column_name]), the Schema Walker
    ([extract_field_paths]), Array Discovery ([find_array_fields]), the
    Table Partitioner ([build_table_hierarchy]) and the array-table part of
    the "Generate DDL" handler.

    Python strings are modelled by [string]: sequences of characters with
    code points below 256.  Every path the program builds is made of Avro
    field names, ".", "[].item" and "[]", which all live in that range.

    The second half of the definitions covers the rest of the page: the
    sidebar that keeps the selection of arrays, the natural keys and the
    relations chosen on the DDL tab, the common fields read from the
    text area, the statements of all tables and the tree of table
    relationships.  What the user does is a parameter: the value every
    checkbox, select box and radio button returns. *)

From Stdlib Require Import String Ascii List Bool Arith Lia.
Import ListNotations.
Open Scope list_scope.
Open Scope string_scope.

(* ================================================================== *)
(** * Characters and strings *)
(* ================================================================== *)

Module Str.

(** Character classes of the three regular expressions of
    [get_column_name]; ranges are ranges of code points. *)
Definition code (c : ascii) : nat := nat_of_ascii c.

Definition in_range (lo hi : nat) (c : ascii) : bool :=
  Nat.leb lo (code c) && Nat.leb (code c) hi.

(** [[a-z0-9]] *)
Definition is_lower_digit (c : ascii) : bool :=
  in_range 97 122 c || in_range 48 57 c.

(** [[A-Z]] *)
Definition is_upper (c : ascii) : bool := in_range 65 90 c.

(** [[a-z0-9_]], the complement of the class of the last [re.sub]. *)
Definition is_ident (c : ascii) : bool :=
  is_lower_digit c || Ascii.eqb c "_".

(** [str.lower] on one character: the ASCII capitals, and the capitals
    of the range 192..222 (all but the multiplication sign, 215), move
    up by 32; every other character below 256 is its own lower case. *)
Definition lower_char (c : ascii) : ascii :=
  if is_upper c || (in_range 192 222 c && negb (Nat.eqb (code c) 215))
  then ascii_of_nat (code c + 32)
  else c.

Fixpoint map (f : ascii -> ascii) (s : string) : string :=
  match s with
  | EmptyString => EmptyString
  | String c tl => String (f c) (map f tl)
  end.

Fixpoint filter (p : ascii -> bool) (s : string) : string :=
  match s with
  | EmptyString => EmptyString
  | String c tl => if p c then String c (filter p tl) else filter p tl
  end.

Fixpoint forallb (p : ascii -> bool) (s : string) : bool :=
  match s with
  | EmptyString => true
  | String c tl => p c && forallb p tl
  end.

(** [[A-Za-z0-9_]], the characters of an Avro name. *)
Definition is_name_char (c : ascii) : bool :=
  is_lower_digit c || is_upper c || Ascii.eqb c "_".

(** [s.lower()] *)
Definition lower (s : string) : string := map lower_char s.

(** [s.startswith(p)] *)
Definition startswith (s p : string) : bool := String.prefix p s.

(** [s.endswith(p)] *)
Fixpoint endswith (s p : string) : bool :=
  String.eqb s p ||
  match s with
  | EmptyString => false
  | String _ tl => endswith tl p
  end.

(** [s.replace(old, new)] for a non-empty [old]: the occurrences of
    [old] are replaced from left to right, without overlap.  [skip]
    counts the characters of a match that are still to be dropped. *)
Fixpoint replace_from (old new : string) (skip : nat) (s : string) : string :=
  match s with
  | EmptyString => EmptyString
  | String c tl =>
      match skip with
      | S k => replace_from old new k tl
      | O =>
          if String.prefix old s
          then new ++ replace_from old new (String.length old - 1) tl
          else String c (replace_from old new 0 tl)
      end
  end.

Definition replace (s old new : string) : string := replace_from old new 0 s.

(** [x in l] on a Python list of strings. *)
Definition mem (x : string) (l : list string) : bool :=
  existsb (String.eqb x) l.

End Str.

(* ================================================================== *)
(** * Path Namer *)
(* ================================================================== *)

(** The pattern [\[\].item] at the head of [s]: "[", "]", any character
    but a newline (the dot is not escaped in the source), then "item". *)
Definition marker_at (s : string) : bool :=
  match s with
  | String a (String b (String c (String d (String e (String f (String g _)))))) =>
      Ascii.eqb a "[" && Ascii.eqb b "]" && negb (Ascii.eqb c "010") &&
      Ascii.eqb d "i" && Ascii.eqb e "t" && Ascii.eqb f "e" && Ascii.eqb g "m"
  | _ => false
  end.

(** [re.sub(r'\[\].item', '', s)]: leftmost matches, no overlap. *)
Fixpoint remove_array_notation (s : string) : string :=
  match s with
  | EmptyString => EmptyString
  | String a tl =>
      match tl with
      | String _ (String _ (String _ (String _ (String _ (String _ rest))))) =>
          if marker_at s then remove_array_notation rest
          else String a (remove_array_notation tl)
      | _ => String a (remove_array_notation tl)
      end
  end.

(** [re.sub(r'([a-z0-9])([A-Z])', r'\1_\2', s)]: a match takes two
    characters, and the scan resumes after the capital. *)
Fixpoint camel_to_snake (s : string) : string :=
  match s with
  | EmptyString => EmptyString
  | String a tl =>
      match tl with
      | String b rest =>
          if Str.is_lower_digit a && Str.is_upper b
          then String a (String "_" (String b (camel_to_snake rest)))
          else String a (camel_to_snake tl)
      | EmptyString => String a EmptyString
      end
  end.

(** [s.replace('.', '_')] *)
Definition dots_to_underscores (s : string) : string :=
  Str.map (fun c => if Ascii.eqb c "." then "_"%char else c) s.

(** [re.sub(r'[^a-z0-9_]', '', s)] *)
Definition remove_special (s : string) : string := Str.filter Str.is_ident s.

Definition get_column_name (field_path : string) : string :=
  let clean_name := remove_array_notation field_path in
  let snake_case := Str.lower (camel_to_snake clean_name) in
  let snake_case := dots_to_underscores snake_case in
  let snake_case := remove_special snake_case in
  snake_case.

(** [re.fullmatch(r'[a-z0-9_]*', s)] and [re.fullmatch(r'[a-z0-9_]+', s)] *)
Definition matches_ident_star (s : string) : bool := Str.forallb Str.is_ident s.

Definition matches_ident_plus (s : string) : bool :=
  matches_ident_star s && negb (String.eqb s "").

(** The path begins with a character of an Avro name. *)
Definition starts_with_name_char (s : string) : bool :=
  match s with
  | String c _ => Str.is_name_char c
  | EmptyString => false
  end.

(* ================================================================== *)
(** * Schema trees *)
(* ================================================================== *)

(** The parsed Avro schema, as the walkers look at it: the classes they
    test with [isinstance] and the attributes they read ([fields],
    [items], [schemas], [symbols], [type], [logical_type], [name],
    [doc]).  A schema is a finite tree here; a named type that refers to
    itself, on which the walkers do not come to an end, has no
    counterpart. *)
#[local] Set Warnings "-register-all".

Inductive PrimitiveType : Type :=
| TNull | TBoolean | TInt | TLong | TFloat | TDouble | TBytes | TString.

Inductive Schema : Type :=
| RecordSchema (fullname : string) (fields : list Field)
| ArraySchema (items : Schema)
| UnionSchema (schemas : list Schema)
| EnumSchema (symbols : list string)
| MapSchema (values : Schema)
| FixedSchema (fullname : string) (size : nat) (logical_type : option string)
| PrimitiveSchema (prim : PrimitiveType) (logical_type : option string)
with Field : Type :=
| mkField (name : string) (type : Schema) (doc : option string).

Definition primitive_name (p : PrimitiveType) : string :=
  match p with
  | TNull => "null" | TBoolean => "boolean" | TInt => "int" | TLong => "long"
  | TFloat => "float" | TDouble => "double" | TBytes => "bytes"
  | TString => "string"
  end.

(** [schema.type] *)
Definition schema_type (s : Schema) : string :=
  match s with
  | RecordSchema _ _ => "record"
  | ArraySchema _ => "array"
  | UnionSchema _ => "union"
  | EnumSchema _ => "enum"
  | MapSchema _ => "map"
  | FixedSchema _ _ _ => "fixed"
  | PrimitiveSchema p _ => primitive_name p
  end.

(** [getattr(schema, 'logical_type', None)] *)
Definition schema_logical_type (s : Schema) : option string :=
  match s with
  | FixedSchema _ _ lt => lt
  | PrimitiveSchema _ lt => lt
  | _ => None
  end.

Definition field_name (f : Field) : string :=
  match f with mkField n _ _ => n end.
Definition field_schema (f : Field) : Schema :=
  match f with mkField _ t _ => t end.
Definition field_doc (f : Field) : option string :=
  match f with mkField _ _ d => d end.

(** [t.type != "null"] *)
Definition non_null (t : Schema) : bool :=
  negb (String.eqb (schema_type t) "null").

(** [[t for t in schemas if t.type != "null"]] *)
Definition non_null_types (schemas : list Schema) : list Schema :=
  List.filter non_null schemas.

(** The head of [non_null_types schemas], or [dflt] when that list is
    empty.  It returns one of its arguments, which lets the walkers
    recurse on the result. *)
Definition first_non_null (dflt : Schema) : list Schema -> Schema :=
  fix go (schemas : list Schema) : Schema :=
    match schemas with
    | [] => dflt
    | t :: rest => if non_null t then t else go rest
    end.

(* ================================================================== *)
(** * Leaf descriptors *)
(* ================================================================== *)

(** The fifth component of a descriptor tuple: absent for an array leaf
    (a 4-tuple), the symbols of an enum, or the logical type. *)
Inductive Extra : Type :=
| NoExtra
| EnumValues (symbols : list string)
| LogicalType (logical_type : option string).

Record PathInfo : Type := mkInfo {
  path : string;
  field_type : string;
  doc : option string;
  optional : bool;
  extra : Extra
}.

(** An element of the list [extract_field_paths] returns: a bare string
    ([include_types=False]) or a descriptor tuple. *)
Inductive PathItem : Type :=
| Plain (s : string)
| Info (i : PathInfo).

(** A small error monad: [None] is a raised exception. *)
Definition bind {A B : Type} (m : option A) (k : A -> option B) : option B :=
  match m with
  | Some a => k a
  | None => None
  end.

Notation "x <- m ;; k" := (bind m (fun x => k))
  (at level 61, m at next level, right associativity).

(* ================================================================== *)
(** * Schema Walker *)
(* ================================================================== *)

(** [f"{prefix}.{field.name}" if prefix else field.name] *)
Definition join_name (prefix name : string) : string :=
  if String.eqb prefix "" then name else prefix ++ "." ++ name.

Definition array_marker : string := "[].item".

(** Lines 139-149: the effective type of a field.  For a union it is the
    first non-null branch, or [schemas[0]] when there is none; the field
    itself stands in for [schemas[0]] of an empty union, where the
    source raises and this value is not used. *)
Definition effective_type (sub_schema : Schema) : Schema :=
  match sub_schema with
  | UnionSchema schemas =>
      first_non_null
        (match schemas with s0 :: _ => s0 | [] => sub_schema end) schemas
  | _ => sub_schema
  end.

Definition effective_optional (sub_schema : Schema) : bool :=
  match sub_schema with
  | UnionSchema schemas =>
      match non_null_types schemas with [] => false | _ :: _ => true end
  | _ => false
  end.

(** [sub_schema.schemas[0]] on a union without branches: [IndexError]. *)
Definition union_index_error (sub_schema : Schema) : bool :=
  match sub_schema with
  | UnionSchema [] => true
  | _ => false
  end.

(** The three leaves of lines 160-179. *)
Definition array_leaf (include_types : bool) (full_name : string)
    (field_doc : option string) (is_optional : bool) : PathItem :=
  if include_types
  then Info (mkInfo (full_name ++ "[]") "array" field_doc is_optional NoExtra)
  else Plain (full_name ++ "[]").

Definition enum_leaf (include_types : bool) (full_name : string)
    (field_doc : option string) (is_optional : bool)
    (enum_values : list string) : PathItem :=
  if include_types
  then Info (mkInfo full_name "enum" field_doc is_optional (EnumValues enum_values))
  else Plain (full_name ++ " (enum)").

Definition other_leaf (include_types : bool) (full_name : string)
    (field_doc : option string) (is_optional : bool)
    (sub_schema : Schema) : PathItem :=
  if include_types
  then Info (mkInfo full_name (schema_type sub_schema) field_doc is_optional
               (LogicalType (schema_logical_type sub_schema)))
  else Plain full_name.

(** [extract_field_paths].  The [named_types] dictionary is only written
    to and is left out.  [array_paths] is the list of selected arrays. *)
Fixpoint extract_field_paths (schema_obj : Schema) (prefix : string)
    (array_paths : list string) (include_types : bool) {struct schema_obj}
  : option (list PathItem) :=
  match schema_obj with
  | RecordSchema _ fields =>
      (fix for_fields (fs : list Field) : option (list PathItem) :=
         match fs with
         | [] => Some []
         | mkField name type field_doc :: rest =>
             let full_name := join_name prefix name in
             if union_index_error type then None else
             let sub_schema := effective_type type in
             let is_optional := effective_optional type in
             here <-
               match sub_schema with
               | RecordSchema _ _ =>
                   extract_field_paths sub_schema full_name array_paths include_types
               | ArraySchema items =>
                   if Str.mem full_name array_paths
                   then extract_field_paths items (full_name ++ array_marker)
                          array_paths include_types
                   else Some [array_leaf include_types full_name field_doc is_optional]
               | EnumSchema symbols =>
                   Some [enum_leaf include_types full_name field_doc is_optional symbols]
               | _ =>
                   Some [other_leaf include_types full_name field_doc is_optional sub_schema]
               end ;;
             later <- for_fields rest ;;
             Some (here ++ later)%list
         end) fields
  | _ => Some []
  end.

(** Lines 139-149 as they are written: [(sub_schema, is_optional)], or
    [None] for the [IndexError] of [schemas[0]]. *)
Definition resolve_field_type (sub_schema : Schema) : option (Schema * bool) :=
  match sub_schema with
  | UnionSchema schemas =>
      match non_null_types schemas with
      | t :: _ => Some (t, true)
      | [] =>
          match schemas with
          | s0 :: _ => Some (s0, false)
          | [] => None
          end
      end
  | _ => Some (sub_schema, false)
  end.

(** Lines 151-179: what one field adds to [paths], given its effective
    type. *)
Definition field_paths (sub_schema : Schema) (is_optional : bool)
    (full_name : string) (field_doc : option string)
    (array_paths : list string) (include_types : bool)
  : option (list PathItem) :=
  match sub_schema with
  | RecordSchema _ _ =>
      extract_field_paths sub_schema full_name array_paths include_types
  | ArraySchema items =>
      if Str.mem full_name array_paths
      then extract_field_paths items (full_name ++ array_marker)
             array_paths include_types
      else Some [array_leaf include_types full_name field_doc is_optional]
  | EnumSchema symbols =>
      Some [enum_leaf include_types full_name field_doc is_optional symbols]
  | _ =>
      Some [other_leaf include_types full_name field_doc is_optional sub_schema]
  end.

(** The field yields a descriptor of its own: its effective type is
    neither a record nor a selected array. *)
Definition yields_leaf (sub_schema : Schema) (full_name : string)
    (array_paths : list string) : bool :=
  match sub_schema with
  | RecordSchema _ _ => false
  | ArraySchema _ => negb (Str.mem full_name array_paths)
  | _ => true
  end.

(** The descriptors of a walker result. *)
Definition infos (items : list PathItem) : list PathInfo :=
  flat_map (fun it => match it with Info i => [i] | Plain _ => [] end) items.

(** Number of constructors of a schema tree. *)
Fixpoint schema_size (s : Schema) : nat :=
  match s with
  | RecordSchema _ fields =>
      S ((fix go (fs : list Field) : nat :=
            match fs with
            | [] => 0
            | mkField _ t _ :: rest => schema_size t + go rest
            end) fields)
  | ArraySchema items => S (schema_size items)
  | UnionSchema schemas =>
      S ((fix go (ss : list Schema) : nat :=
            match ss with
            | [] => 0
            | t :: rest => schema_size t + go rest
            end) schemas)
  | MapSchema values => S (schema_size values)
  | EnumSchema _ | FixedSchema _ _ _ | PrimitiveSchema _ _ => 1
  end.

(* ================================================================== *)
(** * Array Discovery *)
(* ================================================================== *)

(** Lines 201-204: a union is replaced by its first non-null branch, and
    is kept as it is when it has none. *)
Definition discovery_type (sub_schema : Schema) : Schema :=
  match sub_schema with
  | UnionSchema schemas => first_non_null sub_schema schemas
  | _ => sub_schema
  end.

(** [find_array_fields].  The source appends to the accumulator
    [array_fields] and returns it; the model returns the names appended
    by the call, in the order of the appends. *)
Fixpoint find_array_fields (schema_obj : Schema) (prefix : string)
    (parent_arrays : list string) {struct schema_obj} : list string :=
  match schema_obj with
  | RecordSchema _ fields =>
      (fix for_fields (fs : list Field) : list string :=
         match fs with
         | [] => []
         | mkField name type _ :: rest =>
             let full_name := join_name prefix name in
             let sub_schema := discovery_type type in
             (match sub_schema with
              | RecordSchema _ _ =>
                  find_array_fields sub_schema full_name parent_arrays
              | ArraySchema items =>
                  full_name ::
                  (if Str.mem full_name parent_arrays
                   then find_array_fields items (full_name ++ array_marker)
                          parent_arrays
                   else [])
              | _ => []
              end ++ for_fields rest)%list
         end) fields
  | _ => []
  end.

(* ================================================================== *)
(** * Dictionaries *)
(* ================================================================== *)

(** A Python [dict] with string keys: an association list in insertion
    order, one entry per key. *)
Module Dict.
Section Ops.
Context {V : Type}.

Definition t : Type := list (string * V).

(** [d.get(k)] *)
Fixpoint get (k : string) (d : t) : option V :=
  match d with
  | [] => None
  | (k', v) :: rest => if String.eqb k k' then Some v else get k rest
  end.

(** [k in d] *)
Definition contains (k : string) (d : t) : bool :=
  match get k d with Some _ => true | None => false end.

(** [d[k] = v] *)
Fixpoint set (k : string) (v : V) (d : t) : t :=
  match d with
  | [] => [(k, v)]
  | (k', v') :: rest =>
      if String.eqb k k' then (k', v) :: rest else (k', v') :: set k v rest
  end.

(** [d.get(k, dflt)] *)
Definition get_default (k : string) (dflt : V) (d : t) : V :=
  match get k d with Some v => v | None => dflt end.

Definition keys (d : t) : list string := List.map fst d.
End Ops.
Arguments t : clear implicits.
End Dict.

(* ================================================================== *)
(** * Table Partitioner *)
(* ================================================================== *)

Record TableStructure : Type := mkTables {
  root_table : list PathItem;
  array_tables : Dict.t (list PathItem)
}.

(** [if k not in array_tables: array_tables[k] = []] *)
Definition ensure_table (k : string) (tables : Dict.t (list PathItem))
  : Dict.t (list PathItem) :=
  if Dict.contains k tables then tables else Dict.set k [] tables.

(** [ensure_table] followed by [array_tables[k].append(path_info)] *)
Definition append_to_table (k : string) (path_info : PathItem)
    (tables : Dict.t (list PathItem)) : Dict.t (list PathItem) :=
  let tables := ensure_table k tables in
  Dict.set k (Dict.get_default k [] tables ++ [path_info])%list tables.

(** [path.startswith(array_path + "[].item")] *)
Definition under_array (p array_path : string) : bool :=
  Str.startswith p (array_path ++ array_marker).

(** Lines 286-303, one iteration: the first selected array the path
    falls under takes the descriptor ([break]); the root takes it when
    there is none.  Bare strings are passed over. *)
Definition assign_path (selected_arrays : list string)
    (st : list PathItem * Dict.t (list PathItem)) (path_info : PathItem)
  : list PathItem * Dict.t (list PathItem) :=
  let (root_fields, tables) := st in
  match path_info with
  | Info i =>
      match List.find (under_array (path i)) selected_arrays with
      | Some array_path => (root_fields, append_to_table array_path path_info tables)
      | None => ((root_fields ++ [path_info])%list, tables)
      end
  | Plain _ => st
  end.

(** Lines 314-321: every descriptor under [nested_array] is appended to
    the table of [nested_array]. *)
Definition collect_nested (paths : list PathItem) (nested_array : string)
    (tables : Dict.t (list PathItem)) : Dict.t (list PathItem) :=
  fold_left
    (fun tables path_info =>
       match path_info with
       | Info i =>
           if under_array (path i) nested_array
           then append_to_table nested_array path_info tables
           else tables
       | Plain _ => tables
       end)
    paths tables.

(** Lines 306-321, one iteration of the outer loop. *)
Definition handle_nested (selected_arrays : list string) (paths : list PathItem)
    (tables : Dict.t (list PathItem)) (array_path : string)
  : Dict.t (list PathItem) :=
  fold_left
    (fun tables nested_array =>
       if under_array nested_array array_path
          && negb (String.eqb nested_array array_path)
       then collect_nested paths nested_array tables
       else tables)
    selected_arrays (ensure_table array_path tables).

(** [build_table_hierarchy]; [selected_arrays] is the variable of the
    enclosing scope the source function reads. *)
Definition build_table_hierarchy (selected_arrays : list string)
    (paths : list PathItem) : TableStructure :=
  let (root_fields, tables) :=
    fold_left (assign_path selected_arrays) paths ([], []) in
  let tables := fold_left (handle_nested selected_arrays paths) selected_arrays tables in
  mkTables root_fields tables.

(* ================================================================== *)
(** * Generate DDL *)
(* ================================================================== *)

Definition AVRO_TO_HIVE_TYPE : Dict.t string :=
  [ ("string", "VARCHAR(255)"); ("int", "INT"); ("long", "BIGINT");
    ("float", "FLOAT"); ("double", "DOUBLE"); ("boolean", "BOOLEAN");
    ("bytes", "BINARY"); ("null", "NULL");
    ("timestamp-millis", "TIMESTAMP"); ("date", "DATE");
    ("time-millis", "VARCHAR(30)"); ("enum", "VARCHAR(100)") ].

(** [avro_to_hive_type].  The name [logical_type] of the source holds
    the fifth component of the tuple, whatever it is; a subscript on a
    missing key raises. *)
Definition avro_to_hive_type (field_info : PathInfo) : option string :=
  let hive_type :=
    match extra field_info with
    | EnumValues _ => Dict.get_default "enum" "STRING" AVRO_TO_HIVE_TYPE
    | LogicalType (Some logical_type) =>
        if String.eqb logical_type ""
        then Dict.get_default (field_type field_info) "STRING" AVRO_TO_HIVE_TYPE
        else Dict.get_default logical_type "STRING" AVRO_TO_HIVE_TYPE
    | LogicalType None | NoExtra =>
        Dict.get_default (field_type field_info) "STRING" AVRO_TO_HIVE_TYPE
    end in
  if String.eqb (field_type field_info) "enum"
  then Dict.get "enum" AVRO_TO_HIVE_TYPE
  else Some hive_type.

(** One column of a [CREATE TABLE] statement: what the handler appends
    to the statement in one go. *)
Record Column : Type := mkColumn {
  col_name : string;
  col_type : string;
  col_comment : option string
}.

(** The choice made with the radio button of a nested array. *)
Record Relation : Type := mkRelation {
  parent : string;
  choice : string
}.

(** [next((f for f in fields if isinstance(f, tuple) and len(f) >= 4
    and f[0] == key_path), None)]; the key of the root table is [None]
    when the select box had nothing to offer. *)
Definition find_field (fields : list PathItem) (key_path : option string)
  : option PathInfo :=
  match key_path with
  | None => None
  | Some k =>
      (fix next (fs : list PathItem) : option PathInfo :=
         match fs with
         | [] => None
         | Info i :: rest => if String.eqb (path i) k then Some i else next rest
         | Plain _ :: rest => next rest
         end) fields
  end.

(** Truth value of [parent_array]: [None] and the empty string are
    false. *)
Definition truthy (s : option string) : bool :=
  match s with
  | None => false
  | Some v => negb (String.eqb v "")
  end.

Definition newline : string := String "010" "".

Definition fk_comment (parent_table : string) : option string :=
  Some ("Foreign key to " ++ parent_table).

Section GenerateDDL.

(** What the handler reads from the enclosing scope. *)
Variable root_table_name : string.
Variable common_fields_list : list (string * string).
Variable selected_arrays : list string.
Variable root_fields : list PathItem.
Variable tables : Dict.t (list PathItem).
Variable natural_key : option string.
Variable array_natural_keys : Dict.t string.
Variable parent_child_relations : Dict.t Relation.

(** Lines 511-521: the column name of the root field that is the
    natural key; the last such field wins, and the name is empty when
    there is none. *)
Definition natural_key_col_name : string :=
  fold_left
    (fun acc field_info =>
       match field_info with
       | Info i =>
           match natural_key with
           | Some k => if String.eqb (path i) k
                       then get_column_name (path i) else acc
           | None => acc
           end
       | Plain _ => acc
       end)
    root_fields "".

(** Lines 570-579: [(is_nested_array, parent_array)] after the loop
    over the selected arrays. *)
Definition immediate_parent (array_path : string) : bool * option string :=
  fold_left
    (fun st potential_parent =>
       let '(is_nested_array, parent_array) := st in
       if negb (String.eqb array_path potential_parent)
          && under_array array_path potential_parent
       then
         if negb (truthy parent_array)
            || (String.length (match parent_array with Some p => p | None => "" end)
                <? String.length potential_parent)%nat
         then (true, Some potential_parent)
         else st
       else st)
    selected_arrays (false, None).

(** The foreign key to the table of the array [parent_array]
    (lines 584-597 and 604-618, which are the same code). *)
Definition parent_array_fk (parent_array : string) : option Column :=
  parent_key_path <- Dict.get parent_array array_natural_keys ;;
  let parent_field_name := Str.replace parent_key_path (parent_array ++ ".") "" in
  let parent_key_column := get_column_name parent_field_name in
  let parent_table := root_table_name ++ "_" ++ get_column_name parent_array in
  parent_fields <- Dict.get parent_array tables ;;
  match find_field parent_fields (Some parent_key_path) with
  | Some parent_field_info =>
      hive_type <- avro_to_hive_type parent_field_info ;;
      Some (mkColumn parent_key_column hive_type (fk_comment parent_table))
  | None =>
      Some (mkColumn parent_key_column "VARCHAR(255)" (fk_comment parent_table))
  end.

(** The foreign key to the root table (lines 620-631 and 633-644). *)
Definition root_fk : option Column :=
  let parent_key_column := natural_key_col_name in
  let parent_key_path := natural_key in
  let parent_table := root_table_name in
  match find_field root_fields parent_key_path with
  | Some parent_field_info =>
      hive_type <- avro_to_hive_type parent_field_info ;;
      Some (mkColumn parent_key_column hive_type (fk_comment parent_table))
  | None =>
      Some (mkColumn parent_key_column "VARCHAR(255)" (fk_comment parent_table))
  end.

(** Lines 569-644: the foreign-key column of an array table. *)
Definition foreign_key_column (array_path : string) : option Column :=
  let '(is_nested_array, parent_array) := immediate_parent array_path in
  if is_nested_array && truthy parent_array
     && Dict.contains (match parent_array with Some p => p | None => "" end)
          array_natural_keys
  then parent_array_fk (match parent_array with Some p => p | None => "" end)
  else
    match Dict.get array_path parent_child_relations with
    | Some relation =>
        if String.eqb (choice relation) "Parent array's key"
           && Dict.contains (parent relation) array_natural_keys
        then parent_array_fk (parent relation)
        else root_fk
    | None => root_fk
    end.

(** The table the branches of [foreign_key_column] bind to: the array
    [Some p], or the root table [None]. *)
Definition fk_binding (array_path : string) : option string :=
  let '(is_nested_array, parent_array) := immediate_parent array_path in
  if is_nested_array && truthy parent_array
     && Dict.contains (match parent_array with Some p => p | None => "" end)
          array_natural_keys
  then parent_array
  else
    match Dict.get array_path parent_child_relations with
    | Some relation =>
        if String.eqb (choice relation) "Parent array's key"
           && Dict.contains (parent relation) array_natural_keys
        then Some (parent relation)
        else None
    | None => None
    end.

(** Lines 646-652: the natural key of the array table, when one is
    selected and its descriptor is among the fields of the table. *)
Definition natural_key_columns (array_path : string) (fields : list PathItem)
  : option (list Column) :=
  match Dict.get array_path array_natural_keys with
  | Some array_key_path =>
      match find_field fields (Some array_key_path) with
      | Some array_key_info =>
          let array_key_col :=
            get_column_name (Str.replace array_key_path (array_path ++ ".") "") in
          hive_type <- avro_to_hive_type array_key_info ;;
          Some [mkColumn array_key_col hive_type (Some "Natural key for this array")]
      | None => Some []
      end
  | None => Some []
  end.

(** Line 660: the test that skips the field that is the key. *)
Definition is_key_field (array_path : string) (i : PathInfo) : bool :=
  match Dict.get array_path array_natural_keys with
  | Some array_key_path => String.eqb (path i) array_key_path
  | None => false
  end.

(** Lines 655-661: the descriptors the loop emits a column for. *)
Definition data_fields (array_path : string) (fields : list PathItem)
  : list PathInfo :=
  flat_map
    (fun field_info =>
       match field_info with
       | Info i => if is_key_field array_path i then [] else [i]
       | Plain _ => []
       end)
    fields.

Definition doc_text (d : option string) : option string :=
  match d with
  | Some t => if String.eqb t "" then None else Some t
  | None => None
  end.

(** Lines 663-687: the column of one field of the table. *)
Definition data_column (array_path : string) (i : PathInfo) : option Column :=
  let field_path := Str.replace (path i) (array_path ++ ".") "" in
  let column_name := get_column_name field_path in
  if String.eqb (field_type i) "array" then
    Some (mkColumn (column_name ++ "_json") "STRING"
            (option_map (fun t => "JSON array: " ++ t) (doc_text (doc i))))
  else if String.eqb (field_type i) "record" then
    Some (mkColumn (column_name ++ "_json") "STRING"
            (option_map (fun t => "JSON object: " ++ t) (doc_text (doc i))))
  else
    hive_type <- avro_to_hive_type i ;;
    Some (mkColumn column_name hive_type (doc_text (doc i))).

(** [map] in the error monad: the first failure ends the loop. *)
Fixpoint for_each {A B : Type} (f : A -> option B) (l : list A) : option (list B) :=
  match l with
  | [] => Some []
  | a :: rest => b <- f a ;; bs <- for_each f rest ;; Some (b :: bs)
  end.

Definition common_columns : list Column :=
  List.map (fun nt => mkColumn (fst nt) (snd nt) None) common_fields_list.

(** Lines 558-687: name and columns of the table of one array. *)
Definition array_table (array_path : string) (fields : list PathItem)
  : option (string * list Column) :=
  let table_name := root_table_name ++ "_" ++ get_column_name array_path in
  fk <- foreign_key_column array_path ;;
  key <- natural_key_columns array_path fields ;;
  data <- for_each (data_column array_path) (data_fields array_path fields) ;;
  Some (table_name, common_columns ++ [fk] ++ key ++ data)%list.

(** Lines 512-543: the column of one field of the root table. *)
Definition root_column (i : PathInfo) : option Column :=
  let column_name := get_column_name (path i) in
  if String.eqb (field_type i) "array" then
    Some (mkColumn (column_name ++ "_json") "STRING"
            (option_map (fun t => "JSON array: " ++ t) (doc_text (doc i))))
  else if String.eqb (field_type i) "record" then
    Some (mkColumn (column_name ++ "_json") "STRING"
            (option_map (fun t => "JSON object: " ++ t) (doc_text (doc i))))
  else
    hive_type <- avro_to_hive_type i ;;
    Some (mkColumn column_name hive_type (doc_text (doc i))).

(** Lines 504-543: the columns of the root table. *)
Definition root_table_columns : option (list Column) :=
  data <- for_each root_column (infos root_fields) ;;
  Some (common_columns ++ data)%list.

(** The text of one column, with its separator. *)
Definition render_column (c : Column) : string :=
  "  " ++ col_name c ++ " " ++ col_type c ++
  match col_comment c with
  | Some t => " COMMENT '" ++ t ++ "'"
  | None => ""
  end ++ "," ++ newline.

(** Lines 563 and 689-693: the statement, without the last comma. *)
Definition render_ddl (table_name : string) (columns : list Column) : string :=
  let ddl := "CREATE TABLE " ++ table_name ++ " (" ++ newline ++
             String.concat "" (List.map render_column columns) in
  let ddl := if Str.endswith ddl ("," ++ newline)
             then String.substring 0 (String.length ddl - 2) ddl else ddl in
  ddl ++ newline ++ ")".

(** Lines 558-695: [array_ddls], keyed by table name. *)
Definition array_ddls : option (Dict.t string) :=
  fold_left
    (fun acc entry =>
       ddls <- acc ;;
       t <- array_table (fst entry) (snd entry) ;;
       Some (Dict.set (fst t) (render_ddl (fst t) (snd t)) ddls))
    tables (Some []).

(** The handler: the statement of the root table, then [array_ddls]. *)
Definition generate_ddl : option (string * Dict.t string) :=
  root_columns <- root_table_columns ;;
  arrays <- array_ddls ;;
  Some (render_ddl root_table_name root_columns, arrays).

End GenerateDDL.

(** Lines 430-453 give a natural key to array tables only: every key
    of [array_natural_keys] is a key of [array_tables]. *)
Definition keys_have_tables (array_natural_keys : Dict.t string)
    (tables : Dict.t (list PathItem)) : bool :=
  List.forallb (fun k => Dict.contains k tables) (Dict.keys array_natural_keys).

(** Lines 438-446: the fields the select box of an array table offers
    as natural key, each with the name it is shown under. *)
Definition field_options (array_path : string) (fields : list PathItem)
  : list (string * string) :=
  flat_map
    (fun field_info =>
       match field_info with
       | Info i =>
           if String.eqb (field_type i) "array" || String.eqb (field_type i) "record"
           then []
           else [(path i, Str.replace (path i) (array_path ++ ".") "")]
       | Plain _ => []
       end)
    fields.

(* ================================================================== *)
(** * Avro names *)
(* ================================================================== *)

(** The names Avro allows for fields, [[A-Za-z_][A-Za-z0-9_]*].  The
    walkers do not look at the names; the rule is only used to say what
    the paths of a schema with such names look like. *)
Definition avro_name (n : string) : bool :=
  match n with
  | String c tl =>
      Str.is_name_char c && negb (Str.in_range 48 57 c) &&
      Str.forallb Str.is_name_char tl
  | EmptyString => false
  end.

(** Every field of every record of the schema has an Avro name. *)
Fixpoint avro_names (s : Schema) : bool :=
  match s with
  | RecordSchema _ fields =>
      (fix go (fs : list Field) : bool :=
         match fs with
         | [] => true
         | mkField n t _ :: rest => avro_name n && avro_names t && go rest
         end) fields
  | ArraySchema items => avro_names items
  | UnionSchema schemas =>
      (fix go (ss : list Schema) : bool :=
         match ss with
         | [] => true
         | t :: rest => avro_names t && go rest
         end) schemas
  | MapSchema values => avro_names values
  | EnumSchema _ | FixedSchema _ _ _ | PrimitiveSchema _ _ => true
  end.

(** The last character of a string. *)
Fixpoint last_char (s : string) : option ascii :=
  match s with
  | EmptyString => None
  | String c EmptyString => Some c
  | String _ tl => last_char tl
  end.

(** The string is empty or begins with a character of a name: what the
    walkers get as [prefix]. *)
Definition name_prefix (prefix : string) : bool :=
  String.eqb prefix "" || starts_with_name_char prefix.

(* ================================================================== *)
(** * The partition the specification describes *)
(* ================================================================== *)

(** The Table Partitioner as the specification words it: the group of a
    descriptor is the longest selected array its path falls under, and
    the root ([None]) when it falls under none. *)
Definition spec_group (unnest_policy : list string) (p : string) : option string :=
  fold_left
    (fun best array_path =>
       if under_array p array_path then
         match best with
         | Some b =>
             if (String.length b <? String.length array_path)%nat
             then Some array_path else best
         | None => Some array_path
         end
       else best)
    unnest_policy None.

(** The table of the array [k] holds the item [x]. *)
Definition table_holds (tables : Dict.t (list PathItem)) (k : string)
    (x : PathItem) : Prop :=
  exists l, Dict.get k tables = Some l /\ In x l.

(** How many descriptors of a field list carry the path [p]. *)
Definition count_path (p : string) (items : list PathItem) : nat :=
  List.length
    (List.filter
       (fun it => match it with Info i => String.eqb (path i) p | Plain _ => false end)
       items).

(** How many times the path [p] occurs in the field lists of a
    partition, the root list and the lists of all array tables. *)
Definition occurrences (ts : TableStructure) (p : string) : nat :=
  count_path p (root_table ts) +
  list_sum (List.map (fun entry => count_path p (snd entry)) (array_tables ts)).

(* ================================================================== *)
(** * Sample inputs *)
(* ================================================================== *)

Definition string_schema : Schema := PrimitiveSchema TString None.
Definition int_schema : Schema := PrimitiveSchema TInt None.
Definition null_schema : Schema := PrimitiveSchema TNull None.

(** The order of the specification's scenarios. *)
Definition order_schema : Schema :=
  RecordSchema "Order"
    [ mkField "order_id" string_schema None;
      mkField "items"
        (ArraySchema
           (RecordSchema "Item"
              [ mkField "sku" string_schema None;
                mkField "qty" int_schema None ])) None ].

(** An array [b] inside the items of an array [a]. *)
Definition nested_schema : Schema :=
  RecordSchema "Root"
    [ mkField "id" string_schema None;
      mkField "a"
        (ArraySchema
           (RecordSchema "A"
              [ mkField "k" string_schema None;
                mkField "b"
                  (ArraySchema (RecordSchema "B" [ mkField "x" int_schema None ]))
                  None ])) None ].

Definition nested_policy : list string := [ "a"; "a[].item.b" ].

Definition leaf (p t : string) : PathItem :=
  Info (mkInfo p t None false (LogicalType None)).

Definition nested_leaves : list PathItem :=
  [ leaf "id" "string"; leaf "a[].item.k" "string";
    leaf "a[].item.b[].item.x" "int" ].

(** Three levels: [c] inside the items of [b] inside the items of [a]. *)
Definition deep_schema : Schema :=
  RecordSchema "Root"
    [ mkField "id" string_schema None;
      mkField "a"
        (ArraySchema
           (RecordSchema "A"
              [ mkField "k" string_schema None;
                mkField "b"
                  (ArraySchema
                     (RecordSchema "B"
                        [ mkField "m" string_schema None;
                          mkField "c"
                            (ArraySchema
                               (RecordSchema "C" [ mkField "x" int_schema None ]))
                            None ]))
                  None ])) None ].

Definition deep_policy : list string :=
  [ "a"; "a[].item.b"; "a[].item.b[].item.c" ].

Definition deep_leaves : list PathItem :=
  [ leaf "id" "string"; leaf "a[].item.k" "string";
    leaf "a[].item.b[].item.m" "string";
    leaf "a[].item.b[].item.c[].item.x" "int" ].

(** The partition of [nested_leaves], natural keys for both array tables
    and an explicit choice of the root table for the inner array. *)
Definition nested_tables : TableStructure :=
  build_table_hierarchy nested_policy nested_leaves.

Definition nested_keys : Dict.t string :=
  [ ("a", "a[].item.k"); ("a[].item.b", "a[].item.b[].item.x") ].

Definition inner_key_only : Dict.t string :=
  [ ("a[].item.b", "a[].item.b[].item.x") ].

Definition stale_keys : Dict.t string :=
  [ ("a", "a[].item.gone"); ("a[].item.b", "a[].item.b[].item.x") ].

Definition root_choice : Dict.t Relation :=
  [ ("a[].item.b", mkRelation "root" "Root table's key") ].

(** A record with one optional field and one field that is only null. *)
Definition union_schema : Schema :=
  RecordSchema "U"
    [ mkField "note" (UnionSchema [ null_schema; string_schema; int_schema ]) None;
      mkField "nothing" (UnionSchema [ null_schema ]) None ].

(** What the walker says about an array descriptor, in terms of Array
    Discovery under the same policy. *)
Definition array_leaf_known (schema_obj : Schema) : Prop :=
  forall prefix array_paths include_types items i,
    extract_field_paths schema_obj prefix array_paths include_types = Some items ->
    In (Info i) items ->
    field_type i = "array" ->
    exists full_name,
      path i = full_name ++ "[]" /\
      In full_name (find_array_fields schema_obj prefix array_paths) /\
      Str.mem full_name array_paths = false.

(** Case analysis on the 256 characters. *)
Ltac each_char c :=
  destruct c as [[] [] [] [] [] [] [] []]; vm_compute.

(* ================================================================== *)
(** * Further parts of the program *)
(* ================================================================== *)

(** What [dots_to_underscores] does to one character. *)
Definition dot_char (c : ascii) : ascii :=
  if Ascii.eqb c "." then "_"%char else c.

(** ** The field lists of the partition, written as filters *)

(** The descriptors of [paths] that fall under no selected array, in
    the order of [paths]. *)
Definition root_items (selected_arrays : list string) (paths : list PathItem)
  : list PathItem :=
  List.filter
    (fun it =>
       match it with
       | Info i => negb (existsb (under_array (path i)) selected_arrays)
       | Plain _ => false
       end)
    paths.

(** The descriptors of [paths] whose first selected array, in the order
    of the selection, is [k]. *)
Definition first_match_items (selected_arrays : list string) (k : string)
    (paths : list PathItem) : list PathItem :=
  List.filter
    (fun it =>
       match it with
       | Info i =>
           match List.find (under_array (path i)) selected_arrays with
           | Some a => String.eqb a k
           | None => false
           end
       | Plain _ => false
       end)
    paths.

(** The descriptors of [paths] that fall under the array [k]. *)
Definition under_items (k : string) (paths : list PathItem) : list PathItem :=
  List.filter
    (fun it =>
       match it with
       | Info i => under_array (path i) k
       | Plain _ => false
       end)
    paths.

(** What the second loop of [build_table_hierarchy] appends to the table
    of [k]: the descriptors under [k], once for every pair of an outer
    array and a nested array of the selection whose nested array is
    [k]. *)
Definition nested_copies (selected_arrays : list string) (k : string)
    (paths : list PathItem) : list PathItem :=
  flat_map
    (fun array_path =>
       flat_map
         (fun nested_array =>
            if under_array nested_array array_path
               && negb (String.eqb nested_array array_path)
               && String.eqb nested_array k
            then under_items k paths
            else [])
         selected_arrays)
    selected_arrays.

(** No selected array lies inside another one. *)
Definition flat_selection (selected_arrays : list string) : bool :=
  List.forallb
    (fun array_path =>
       List.forallb
         (fun nested_array =>
            negb (under_array nested_array array_path
                  && negb (String.eqb nested_array array_path)))
         selected_arrays)
    selected_arrays.


(** ** Inputs on which the walker does not fail *)

(** No union of the schema is without branches. *)
Fixpoint no_empty_union (s : Schema) : bool :=
  match s with
  | RecordSchema _ fields =>
      (fix go (fs : list Field) : bool :=
         match fs with
         | [] => true
         | mkField _ t _ :: rest => no_empty_union t && go rest
         end) fields
  | ArraySchema items => no_empty_union items
  | UnionSchema schemas =>
      match schemas with [] => false | _ :: _ => true end &&
      (fix go (ss : list Schema) : bool :=
         match ss with
         | [] => true
         | t :: rest => no_empty_union t && go rest
         end) schemas
  | MapSchema values => no_empty_union values
  | EnumSchema _ | FixedSchema _ _ _ | PrimitiveSchema _ _ => true
  end.

(** The walker comes to a field whose type is a union without branches:
    it looks at the fields of the record, of the records they hold and
    of the items of the selected arrays, as [extract_field_paths] does,
    and at nothing else. *)
Fixpoint meets_empty_union (schema_obj : Schema) (prefix : string)
    (array_paths : list string) {struct schema_obj} : bool :=
  match schema_obj with
  | RecordSchema _ fields =>
      (fix for_fields (fs : list Field) : bool :=
         match fs with
         | [] => false
         | mkField name type _ :: rest =>
             let full_name := join_name prefix name in
             let sub_schema := effective_type type in
             union_index_error type
             || match sub_schema with
                | RecordSchema _ _ =>
                    meets_empty_union sub_schema full_name array_paths
                | ArraySchema items =>
                    Str.mem full_name array_paths
                    && meets_empty_union items (full_name ++ array_marker) array_paths
                | _ => false
                end
             || for_fields rest
         end) fields
  | _ => false
  end.

(** An empty union inside the items of an array. *)
Definition hidden_union_schema : Schema :=
  RecordSchema "R"
    [ mkField "id" string_schema None;
      mkField "a"
        (ArraySchema (RecordSchema "A" [ mkField "u" (UnionSchema []) None ]))
        None ].

(** What the walker appends for a field with [include_types=False], read
    off the descriptor it appends with [include_types=True]
    (lines 160-179). *)
Definition plain_item (it : PathItem) : PathItem :=
  match it with
  | Info i =>
      Plain (if String.eqb (field_type i) "enum"
             then path i ++ " (enum)" else path i)
  | Plain s => Plain s
  end.


(** ** Further parts of the DDL page *)

(** Lines 396-401: the fields the select box of the root table offers
    as natural key. *)
Definition root_fields_options (root_fields : list PathItem) : list string :=
  flat_map
    (fun field_info =>
       match field_info with
       | Info i =>
           if String.eqb (field_type i) "array" || String.eqb (field_type i) "record"
           then []
           else [path i]
       | Plain _ => []
       end)
    root_fields.

(** The text of one column as the handler writes it before the
    separator [",\n"]. *)
Definition column_line (c : Column) : string :=
  "  " ++ col_name c ++ " " ++ col_type c ++
  match col_comment c with
  | Some t => " COMMENT '" ++ t ++ "'"
  | None => ""
  end.

(** The candidates of lines 574-576 for the parent of [array_path]: a
    selected array other than [array_path] that [array_path] lies
    inside. *)
Definition parent_candidate (array_path potential_parent : string) : bool :=
  negb (String.eqb array_path potential_parent)
  && under_array array_path potential_parent.

(** What the loop has found after the selected arrays [seen]. *)
Definition longest_so_far (array_path : string) (seen : list string)
    (st : bool * option string) : Prop :=
  match st with
  | (true, Some p) =>
      In p seen /\ parent_candidate array_path p = true /\
      forall q, In q seen -> parent_candidate array_path q = true ->
                String.length q <= String.length p
  | (false, None) =>
      forall q, In q seen -> parent_candidate array_path q = false
  | _ => False
  end.


(** ** The sidebar: which arrays are selected *)

(** [l.remove(x)]: the first occurrence of [x] goes.  The source calls
    it only when [x in l]. *)
Fixpoint list_remove (x : string) (l : list string) : list string :=
  match l with
  | [] => []
  | y :: rest => if String.eqb y x then rest else y :: list_remove x rest
  end.

(** Lines 254-264, one iteration.  [checkbox field value] is what the
    checkbox of [field] returns when it is drawn with the default
    [value]; the state is [(selected_arrays, changed)]. *)
Definition checkbox_step (checkbox : string -> bool -> bool)
    (st : list string * bool) (field : string) : list string * bool :=
  let (selected_arrays, changed) := st in
  let is_selected := Str.mem field selected_arrays in
  if checkbox field is_selected then
    if negb (Str.mem field selected_arrays)
    then ((selected_arrays ++ [field])%list, true)
    else st
  else if Str.mem field selected_arrays
  then (list_remove field selected_arrays, true)
  else st.

(** Lines 254-264. *)
Definition checkbox_loop (checkbox : string -> bool -> bool)
    (array_fields : list string) (st : list string * bool) : list string * bool :=
  fold_left (checkbox_step checkbox) array_fields st.

(** Lines 236-264: the two buttons, then the checkboxes.  The second
    component says whether the page is run again. *)
Definition update_selection (select_all deselect_all : bool)
    (checkbox : string -> bool -> bool) (array_fields selected_arrays : list string)
  : list string * bool :=
  let st := (selected_arrays, false) in
  let st := if select_all then (array_fields, true) else st in
  let st := if deselect_all then ([], true) else st in
  checkbox_loop checkbox array_fields st.

(** ** The natural keys of the array tables *)

(** [{p[1]: p[0] for p in field_options}] *)
Definition options_dict (options : list (string * string)) : Dict.t string :=
  fold_left (fun d p => Dict.set (snd p) (fst p) d) options [].

(** Lines 436-453, one array table.  [selectbox key options] is what the
    select box with the widget key [key] returns for the list
    [options]. *)
Definition select_key (selectbox : string -> list string -> string)
    (array_natural_keys : Dict.t string) (entry : string * list PathItem)
  : option (Dict.t string) :=
  let (array_path, fields) := entry in
  match field_options array_path fields with
  | [] => Some array_natural_keys
  | options =>
      let options_dict := options_dict options in
      let selected_key :=
        selectbox ("key_" ++ array_path) (Dict.keys options_dict) in
      path <- Dict.get selected_key options_dict ;;
      Some (Dict.set array_path path array_natural_keys)
  end.

(** Lines 405-453: [array_natural_keys] after the loop over the array
    tables. *)
Definition select_keys (selectbox : string -> list string -> string)
    (tables : Dict.t (list PathItem)) : option (Dict.t string) :=
  fold_left
    (fun acc entry => keys <- acc ;; select_key selectbox keys entry)
    tables (Some []).


(** ** The relations between array tables *)

(** [s.split('.')] *)
Fixpoint split_dot (s : string) : list string :=
  match s with
  | EmptyString => [ "" ]
  | String c tl =>
      if Ascii.eqb c "."
      then "" :: split_dot tl
      else match split_dot tl with
           | p :: ps => String c p :: ps
           | [] => [ String c "" ]
           end
  end.

(** ['.'.join(parts)] *)
Definition join_dot (parts : list string) : string := String.concat "." parts.

(** Lines 416-422: the values of [potential_parent], for [i] from
    [len(parts)-1] down to 1. *)
Definition potential_parents (array_path : string) : list string :=
  let parts := split_dot array_path in
  List.map (fun i => join_dot (List.firstn i parts))
    (List.rev (List.seq 1 (List.length parts - 1))).

(** Lines 416-422: [parent_array] after the loop, which stops at the
    first potential parent that is an array table. *)
Definition hierarchy_parent (tables : Dict.t (list PathItem))
    (array_path : string) : option string :=
  List.find (fun potential_parent => Dict.contains potential_parent tables)
    (potential_parents array_path).

(** Lines 413-427: [array_hierarchy], the children of every parent. *)
Definition array_hierarchy (tables : Dict.t (list PathItem))
  : Dict.t (list string) :=
  fold_left
    (fun hierarchy array_path =>
       let parent_array := hierarchy_parent tables array_path in
       if truthy parent_array then
         let p := match parent_array with Some p => p | None => "" end in
         let hierarchy :=
           if Dict.contains p hierarchy then hierarchy
           else Dict.set p [] hierarchy in
         Dict.set p (Dict.get_default p [] hierarchy ++ [ array_path ])%list
           hierarchy
       else hierarchy)
    (Dict.keys tables) [].

(** Lines 457-475, one array table: the entry the loop writes to
    [parent_child_relations], if any.  [radio key] is what the radio
    button with the widget key [key] returns. *)
Definition relation_for (radio : string -> string)
    (hierarchy : Dict.t (list string)) (array_path : string) : option Relation :=
  if Str.mem array_path (List.concat (List.map snd hierarchy)) then
    let parent_array :=
      option_map fst
        (List.find (fun entry => Str.mem array_path (snd entry)) hierarchy) in
    if truthy parent_array then
      let p := match parent_array with Some p => p | None => "" end in
      let relation_choice := radio ("relation_" ++ array_path) in
      Some (mkRelation
              (if String.eqb relation_choice "Parent array's key" then p else "root")
              relation_choice)
    else None
  else None.

(** Lines 408-475: [parent_child_relations] after the loop over the
    array tables. *)
Definition select_relations (radio : string -> string)
    (tables : Dict.t (list PathItem)) : Dict.t Relation :=
  let hierarchy := array_hierarchy tables in
  fold_left
    (fun relations array_path =>
       match relation_for radio hierarchy array_path with
       | Some relation => Dict.set array_path relation relations
       | None => relations
       end)
    (Dict.keys tables) [].

(** ** Schemas as Avro allows them *)

(** No record of the schema has two fields of the same name. *)
Fixpoint unique_field_names (s : Schema) : bool :=
  match s with
  | RecordSchema _ fields =>
      (fix go (fs : list Field) : bool :=
         match fs with
         | [] => true
         | mkField n t _ :: rest =>
             negb (Str.mem n (List.map field_name rest))
             && unique_field_names t && go rest
         end) fields
  | ArraySchema items => unique_field_names items
  | UnionSchema schemas =>
      (fix go (ss : list Schema) : bool :=
         match ss with
         | [] => true
         | t :: rest => unique_field_names t && go rest
         end) schemas
  | MapSchema values => unique_field_names values
  | EnumSchema _ | FixedSchema _ _ _ | PrimitiveSchema _ _ => true
  end.

(** The names of the fields of a record. *)
Definition record_field_names (s : Schema) : list string :=
  match s with
  | RecordSchema _ fields => List.map field_name fields
  | _ => []
  end.

(** The part of a full name before the name of the field. *)
Definition name_lead (prefix : string) : string :=
  if String.eqb prefix "" then "" else prefix ++ ".".

(** What can follow a name in a path: nothing, or a character that is
    not a character of a name. *)
Definition boundary (t : string) : bool :=
  match t with
  | EmptyString => true
  | String c _ => negb (Str.is_name_char c)
  end.


(** ** The tree of table relationships *)

(** The arrow of the relationship texts, U+2192, as its three UTF-8
    bytes. *)
Definition arrow : string :=
  String (Ascii.ascii_of_nat 226)
    (String (Ascii.ascii_of_nat 134) (String (Ascii.ascii_of_nat 146) "")).

(** [f"{column} -> {table}.{column}"], with the arrow. *)
Definition fk_text (column table : string) : string :=
  column ++ " " ++ arrow ++ " " ++ table ++ "." ++ column.

(** An entry of [table_hierarchy]; the entries of "level1" have no
    parent. *)
Record TreeNode : Type := mkNode {
  node_path : string;
  node_table : string;
  node_parent_path : option string;
  node_parent_table : option string;
  node_rel_type : string;
  node_fk : string
}.

(** Lines 779-785: [(is_nested, direct_parent)] after the loop over the
    keys of [array_tables]. *)
Definition direct_parent (tables : Dict.t (list PathItem)) (array_path : string)
  : bool * option string :=
  fold_left
    (fun st potential_parent =>
       let '(is_nested, direct_parent) := st in
       if under_array array_path potential_parent
          && negb (String.eqb array_path potential_parent)
       then
         (true,
          if negb (truthy direct_parent)
             || (String.length (match direct_parent with Some p => p | None => "" end)
                 <? String.length potential_parent)%nat
          then Some potential_parent
          else direct_parent)
       else st)
    (Dict.keys tables) (false, None).

Section Tree.

Variable root_table_name : string.
Variable tables : Dict.t (list PathItem).
Variable natural_key_col_name : string.
Variable array_natural_keys : Dict.t string.
Variable parent_child_relations : Dict.t Relation.

(** Lines 761-767 and 802-808: a child of the root table. *)
Definition level1_node (array_path rel_type : string) : TreeNode :=
  mkNode array_path (root_table_name ++ "_" ++ get_column_name array_path)
    None None rel_type (fk_text natural_key_col_name root_table_name).

(** Lines 768-778 and 788-800: a child of the table of [parent]. *)
Definition level2_node (array_path parent rel_type : string) : TreeNode :=
  let parent_table := root_table_name ++ "_" ++ get_column_name parent in
  let parent_key := Dict.get_default parent "unknown" array_natural_keys in
  let parent_key_col :=
    get_column_name (Str.replace parent_key (parent ++ ".") "") in
  mkNode array_path (root_table_name ++ "_" ++ get_column_name array_path)
    (Some parent) (Some parent_table) rel_type
    (fk_text parent_key_col parent_table).

(** Lines 753-808, one array table: the entry, and whether it goes to
    "level2". *)
Definition classify (array_path : string) : bool * TreeNode :=
  match Dict.get array_path parent_child_relations with
  | Some relation =>
      if String.eqb (choice relation) "Root table's key"
         || String.eqb (parent relation) "root"
      then (false, level1_node array_path "Direct child of root")
      else (true, level2_node array_path (parent relation) "Child of another array")
  | None =>
      let '(is_nested, direct_parent) := direct_parent tables array_path in
      if is_nested && truthy direct_parent
      then (true,
            level2_node array_path
              (match direct_parent with Some p => p | None => "" end)
              "Nested array (implicit)")
      else (false, level1_node array_path "Default child of root")
  end.

(** Lines 750-808: the lists "level1" and "level2" of
    [table_hierarchy]; its other two lists stay empty. *)
Definition table_hierarchy : list TreeNode * list TreeNode :=
  fold_left
    (fun (st : list TreeNode * list TreeNode) array_path =>
       let (level1, level2) := st in
       let (deep, node) := classify array_path in
       if deep then (level1, (level2 ++ [ node ])%list)
       else ((level1 ++ [ node ])%list, level2))
    (Dict.keys tables) ([], []).

End Tree.

(** Line 812: the line of a child of the root table. *)
Definition node_html (t : TreeNode) : string :=
  "<div class='table-node'><div class='table-child'>" ++ node_table t ++
  " <span class='fk-relation'>(" ++ node_fk t ++ ")</span></div>".

(** Line 819: the line of a child of an array table. *)
Definition child_html (t : TreeNode) : string :=
  "<div class='table-node' style='margin-left: 40px;'><div class='table-child'>"
  ++ node_table t ++
  " <span class='fk-relation'>(" ++ node_fk t ++ ")</span></div></div>".

(** Line 815: [[t for t in level2 if t.get("parent_path") == table["path"]]] *)
Definition children (level2 : list TreeNode) (table : TreeNode) : list TreeNode :=
  List.filter
    (fun t => match node_parent_path t with
              | Some p => String.eqb p (node_path table)
              | None => false
              end)
    level2.

(** Lines 811-821: what the loop over "level1" writes to the page. *)
Definition render_tree (level1 level2 : list TreeNode) : list string :=
  flat_map
    (fun table =>
       (node_html table :: List.map child_html (children level2 table)
        ++ [ "</div>" ])%list)
    level1.


(** ** The DDL tab, from the walk to the statements *)

(** Lines 396-403: the natural key of the root table is what its select
    box returns, [None] when the box has no option. *)
Definition select_root_key (selectbox : string -> list string -> string)
    (root_fields : list PathItem) : option string :=
  match root_fields_options root_fields with
  | [] => None
  | options => Some (selectbox "Select natural key for root table" options)
  end.

(** Lines 274 and 362-695: the walk with the selected arrays, the
    tables, the keys and relations chosen on the page, and the
    statements made when the button is pressed. *)
Definition ddl_page (schema : Schema) (selected_arrays : list string)
    (selectbox : string -> list string -> string) (radio : string -> string)
    (root_table_name : string) (common_fields_list : list (string * string))
  : option (string * Dict.t string) :=
  flat_paths <- extract_field_paths schema "" selected_arrays true ;;
  let table_structure := build_table_hierarchy selected_arrays flat_paths in
  let root_fields := root_table table_structure in
  let array_tables := array_tables table_structure in
  let natural_key := select_root_key selectbox root_fields in
  array_natural_keys <- select_keys selectbox array_tables ;;
  let parent_child_relations := select_relations radio array_tables in
  generate_ddl root_table_name common_fields_list selected_arrays root_fields
    array_tables natural_key array_natural_keys parent_child_relations.


(** ** One run of the sidebar *)

(** Lines 218-268: the arrays offered and the selection after the run.
    [first_load] says that the session has no ['first_load'] yet; the
    second component says whether the page is run again. *)
Definition sidebar_run (schema : Schema) (first_load : bool)
    (select_all deselect_all : bool) (checkbox : string -> bool -> bool)
    (selected_arrays : list string) : list string * bool :=
  let array_fields :=
    if first_load then find_array_fields schema "" []
    else find_array_fields schema "" selected_arrays in
  match array_fields with
  | [] => (selected_arrays, false)
  | _ :: _ =>
      update_selection select_all deselect_all checkbox array_fields
        selected_arrays
  end.


(** ** The common fields *)

(** [c.isspace()] for a character below 256. *)
Definition is_space (c : ascii) : bool :=
  Str.in_range 9 13 c || Str.in_range 28 32 c
  || Nat.eqb (Str.code c) 133 || Nat.eqb (Str.code c) 160.

(** [s.lstrip()] *)
Fixpoint lstrip (s : string) : string :=
  match s with
  | EmptyString => EmptyString
  | String c tl => if is_space c then lstrip tl else s
  end.

(** [s.rstrip()] *)
Fixpoint rstrip (s : string) : string :=
  match s with
  | EmptyString => EmptyString
  | String c tl =>
      match rstrip tl with
      | EmptyString => if is_space c then EmptyString else String c EmptyString
      | r => String c r
      end
  end.

(** [s.strip()] *)
Definition strip (s : string) : string := lstrip (rstrip s).

(** [s.split(sep)] for a separator of one character. *)
Fixpoint split_on (sep : ascii) (s : string) : list string :=
  match s with
  | EmptyString => [ "" ]
  | String c tl =>
      if Ascii.eqb c sep
      then "" :: split_on sep tl
      else match split_on sep tl with
           | p :: ps => String c p :: ps
           | [] => [ String c "" ]
           end
  end.

(** The characters of [s] before its first whitespace, and the rest. *)
Fixpoint first_word (s : string) : string * string :=
  match s with
  | EmptyString => ("", "")
  | String c tl =>
      if is_space c then ("", s)
      else let (w, r) := first_word tl in (String c w, r)
  end.

(** [s.split(None, 1)]: the first word and, when something other than
    whitespace follows it, the rest of the string from there. *)
Definition split_once (s : string) : list string :=
  match lstrip s with
  | EmptyString => []
  | s1 =>
      let (w, rest) := first_word s1 in
      match lstrip rest with
      | EmptyString => [ w ]
      | r => [ w; r ]
      end
  end.

(** Lines 386-391: [common_fields_list], from the text of the text
    area. *)
Definition parse_common_fields (common_fields : string)
  : list (string * string) :=
  flat_map
    (fun line =>
       if String.eqb (strip line) "" then []
       else match split_once (strip line) with
            | [ name; type_info ] => [ (name, type_info) ]
            | _ => []
            end)
    (split_on "010" (strip common_fields)).

(** A word: not empty, no whitespace. *)
Definition is_word (s : string) : bool :=
  negb (String.eqb s "") && Str.forallb (fun c => negb (is_space c)) s.

(** Not empty, and neither the first nor the last character is
    whitespace. *)
Definition trimmed (s : string) : bool :=
  match s with
  | EmptyString => false
  | String c _ => negb (is_space c)
  end
  && match last_char s with
     | Some c => negb (is_space c)
     | None => false
     end.

(** No line break. *)
Definition one_line (s : string) : bool :=
  Str.forallb (fun c => negb (Ascii.eqb c "010")) s.

(** A line of the text area as the page shows it by default: name, a
    space, type. *)
Definition common_field_line (field : string * string) : string :=
  fst field ++ " " ++ snd field.

(** ** A caller of the key select boxes *)

(** A caller who picks [wanted] in every select box that offers it, and
    the first option elsewhere. *)
Definition prefer (wanted : string) (key : string) (options : list string) : string :=
  if Str.mem wanted options then wanted else List.hd "" options.

(** The keys this caller ends up with on the nested arrays when the
    wanted field is the leaf [x] of the inner array. *)
Definition shared_keys : Dict.t string :=
  [ ("a", "a[].item.b[].item.x"); ("a[].item.b", "a[].item.b[].item.x") ].

(* ================================================================== *)
(** * Properties of the Path Namer *)
(* ================================================================== *)

Example get_column_name_nested :
  get_column_name "items[].item.skuCode" = "items_sku_code".
Proof. reflexivity. Qed.

Example get_column_name_leaf_array :
  get_column_name "order.lineItems[]" = "order_line_items".
Proof. reflexivity. Qed.

Example get_column_name_caps :
  get_column_name "aBC.HTTPServer2X" = "a_bc_httpserver2_x".
Proof. reflexivity. Qed.

(** The dot of the pattern is a wildcard: "[]" followed by any character
    and "item" is removed. *)
Example get_column_name_wildcard :
  get_column_name "a[]Xitem.b" = "a_b".
Proof. reflexivity. Qed.

Module NamerFacts.

Lemma ident_not_bracket c : Str.is_ident c = true -> Ascii.eqb c "[" = false.
Proof. each_char c; intro H; (discriminate H || reflexivity). Qed.

Lemma ident_not_upper c : Str.is_ident c = true -> Str.is_upper c = false.
Proof. each_char c; intro H; (discriminate H || reflexivity). Qed.

Lemma ident_lower c : Str.is_ident c = true -> Str.lower_char c = c.
Proof. each_char c; intro H; (discriminate H || reflexivity). Qed.

Lemma ident_not_dot c : Str.is_ident c = true -> Ascii.eqb c "." = false.
Proof. each_char c; intro H; (discriminate H || reflexivity). Qed.

Lemma name_char_not_bracket c :
  Str.is_name_char c = true -> Ascii.eqb c "[" = false.
Proof. each_char c; intro H; (discriminate H || reflexivity). Qed.

(** A character of a name is still there after lower-casing and the
    replacement of dots. *)
Lemma name_char_survives c :
  Str.is_name_char c = true ->
  Str.is_ident
    (if Ascii.eqb (Str.lower_char c) "." then "_"%char else Str.lower_char c) = true.
Proof. each_char c; intro H; (discriminate H || reflexivity). Qed.

Lemma forallb_filter p s : Str.forallb p (Str.filter p s) = true.
Proof.
  induction s as [|c tl IH]; simpl; [reflexivity|].
  destruct (p c) eqn:E; simpl; [rewrite E|]; exact IH.
Qed.

Lemma filter_id p s : Str.forallb p s = true -> Str.filter p s = s.
Proof.
  induction s as [|c tl IH]; simpl; [reflexivity|].
  intro H. apply andb_prop in H. destruct H as [Hc Htl].
  rewrite Hc, (IH Htl). reflexivity.
Qed.

(** No match of the array pattern starts at a character that is not
    "[". *)
Lemma marker_at_head a tl :
  Ascii.eqb a "[" = false -> marker_at (String a tl) = false.
Proof.
  intro H. unfold marker_at.
  destruct tl as [|b [|c [|d [|e [|f [|g r]]]]]]; try reflexivity.
  rewrite H. reflexivity.
Qed.

Lemma remove_array_notation_cons a tl :
  marker_at (String a tl) = false ->
  remove_array_notation (String a tl) = String a (remove_array_notation tl).
Proof.
  intro H.
  destruct tl as [|b [|c [|d [|e [|f [|g r]]]]]]; try reflexivity.
  change (remove_array_notation (String a (String b (String c (String d (String e (String f (String g r))))))))
    with (if marker_at (String a (String b (String c (String d (String e (String f (String g r)))))))
          then remove_array_notation r
          else String a (remove_array_notation (String b (String c (String d (String e (String f (String g r)))))))).
  rewrite H. reflexivity.
Qed.

Lemma camel_to_snake_head a tl :
  exists r, camel_to_snake (String a tl) = String a r.
Proof.
  destruct tl as [|b rest]; simpl; [eauto|].
  destruct (Str.is_lower_digit a && Str.is_upper b); eauto.
Qed.

Lemma remove_array_notation_ident s :
  matches_ident_star s = true -> remove_array_notation s = s.
Proof.
  unfold matches_ident_star.
  induction s as [|a tl IH]; [reflexivity|].
  intro H. simpl in H. apply andb_prop in H. destruct H as [Ha Htl].
  rewrite remove_array_notation_cons, (IH Htl); [reflexivity|].
  apply marker_at_head, ident_not_bracket, Ha.
Qed.

Lemma camel_to_snake_ident s :
  matches_ident_star s = true -> camel_to_snake s = s.
Proof.
  unfold matches_ident_star.
  induction s as [|a tl IH]; [reflexivity|].
  intro H. simpl in H. apply andb_prop in H. destruct H as [Ha Htl].
  destruct tl as [|b rest]; [reflexivity|].
  assert (Hb : Str.is_upper b = false).
  { simpl in Htl. apply andb_prop in Htl. apply ident_not_upper, Htl. }
  change (camel_to_snake (String a (String b rest)))
    with (if Str.is_lower_digit a && Str.is_upper b
          then String a (String "_" (String b (camel_to_snake rest)))
          else String a (camel_to_snake (String b rest))).
  rewrite Hb, andb_false_r, (IH Htl). reflexivity.
Qed.

Lemma lower_ident s : matches_ident_star s = true -> Str.lower s = s.
Proof.
  unfold matches_ident_star, Str.lower.
  induction s as [|a tl IH]; [reflexivity|].
  intro H. simpl in H. apply andb_prop in H. destruct H as [Ha Htl].
  simpl. rewrite (ident_lower _ Ha), (IH Htl). reflexivity.
Qed.

Lemma dots_to_underscores_ident s :
  matches_ident_star s = true -> dots_to_underscores s = s.
Proof.
  unfold matches_ident_star, dots_to_underscores.
  induction s as [|a tl IH]; [reflexivity|].
  intro H. simpl in H. apply andb_prop in H. destruct H as [Ha Htl].
  simpl. rewrite (ident_not_dot _ Ha), (IH Htl). reflexivity.
Qed.

(** The result of the namer is made of identifier characters only. *)
Lemma get_column_name_ident field_path :
  matches_ident_star (get_column_name field_path) = true.
Proof. apply forallb_filter. Qed.

(** The namer leaves an identifier as it is. *)
Lemma get_column_name_fixpoint s :
  matches_ident_star s = true -> get_column_name s = s.
Proof.
  intro H. unfold get_column_name, remove_special.
  rewrite (remove_array_notation_ident _ H), (camel_to_snake_ident _ H),
    (lower_ident _ H), (dots_to_underscores_ident _ H).
  apply filter_id, H.
Qed.

(** A leading name character is never dropped. *)
Lemma get_column_name_head c tl :
  Str.is_name_char c = true ->
  exists d r, get_column_name (String c tl) = String d r.
Proof.
  intro H. unfold get_column_name.
  rewrite remove_array_notation_cons
    by (apply marker_at_head, name_char_not_bracket, H).
  destruct (camel_to_snake_head c (remove_array_notation tl)) as [r ->].
  unfold remove_special, dots_to_underscores, Str.lower. simpl.
  rewrite (name_char_survives c H). eauto.
Qed.

(** A path that begins with a character of a name has a non-empty
    column name. *)
Lemma get_column_name_plus field_path :
  starts_with_name_char field_path = true ->
  matches_ident_plus (get_column_name field_path) = true.
Proof.
  intro H. unfold matches_ident_plus. rewrite get_column_name_ident.
  destruct field_path as [|c tl]; [discriminate H|].
  destruct (get_column_name_head c tl H) as [d [r ->]].
  reflexivity.
Qed.

End NamerFacts.

(* ================================================================== *)
(** * Properties of the walkers *)
(* ================================================================== *)

Module WalkerFacts.

Lemma mem_In x l : Str.mem x l = true <-> In x l.
Proof.
  unfold Str.mem. rewrite existsb_exists. split.
  - intros [y [Hy E]]. apply String.eqb_eq in E. subst. exact Hy.
  - intro H. exists x. split; [exact H|apply String.eqb_refl].
Qed.

(** ** Sizes, for induction on the effective type of a field *)

Lemma schema_size_record n fields :
  schema_size (RecordSchema n fields) =
  S (list_sum (List.map (fun f => schema_size (field_schema f)) fields)).
Proof.
  simpl. f_equal.
  induction fields as [|[name t d] rest IH]; simpl; [reflexivity|].
  rewrite IH. reflexivity.
Qed.

Lemma schema_size_union schemas :
  schema_size (UnionSchema schemas) = S (list_sum (List.map schema_size schemas)).
Proof.
  simpl. f_equal.
  induction schemas as [|t rest IH]; simpl; [reflexivity|].
  rewrite IH. reflexivity.
Qed.

Lemma In_list_sum {A} (f : A -> nat) x l :
  In x l -> f x <= list_sum (List.map f l).
Proof.
  induction l as [|y l IH]; simpl; [contradiction|].
  intros [->|H]; [lia|]. specialize (IH H). lia.
Qed.

Lemma first_non_null_In d l :
  first_non_null d l = d \/ In (first_non_null d l) l.
Proof.
  induction l as [|t rest IH]; simpl; [left; reflexivity|].
  destruct (non_null t); [right; left; reflexivity|].
  destruct IH as [IH|IH]; [left; exact IH|right; right; exact IH].
Qed.

(** The two outcomes of the search for a non-null branch. *)
Lemma first_non_null_cases d l :
  (non_null_types l = [] /\ first_non_null d l = d) \/
  (exists t ts, non_null_types l = t :: ts /\ first_non_null d l = t
                /\ non_null t = true).
Proof.
  induction l as [|t rest IH]; simpl; [left; split; reflexivity|].
  destruct (non_null t) eqn:E.
  - right. exists t, (non_null_types rest). repeat split. exact E.
  - exact IH.
Qed.

Lemma effective_type_size t : schema_size (effective_type t) <= schema_size t.
Proof.
  destruct t; simpl effective_type; try lia.
  rewrite schema_size_union.
  destruct (first_non_null_In
              (match schemas with s0 :: _ => s0 | [] => UnionSchema schemas end)
              schemas) as [E|H].
  - rewrite E. destruct schemas as [|s0 rest].
    + rewrite schema_size_union. simpl. lia.
    + simpl. lia.
  - pose proof (In_list_sum schema_size _ _ H). lia.
Qed.

Lemma discovery_type_size t : schema_size (discovery_type t) <= schema_size t.
Proof.
  destruct t; simpl discovery_type; try lia.
  destruct (first_non_null_In (UnionSchema schemas) schemas) as [E|H].
  - rewrite E. lia.
  - rewrite schema_size_union.
    pose proof (In_list_sum schema_size _ _ H). lia.
Qed.

Lemma field_size_lt n f fields :
  In f fields -> schema_size (field_schema f) < schema_size (RecordSchema n fields).
Proof.
  intro H. rewrite schema_size_record.
  pose proof (In_list_sum (fun f => schema_size (field_schema f)) _ _ H). lia.
Qed.

Lemma items_size_lt items : schema_size items < schema_size (ArraySchema items).
Proof. simpl. lia. Qed.

(** Induction on the size of the schema. *)
Lemma schema_size_ind (P : Schema -> Prop) :
  (forall s, (forall t, schema_size t < schema_size s -> P t) -> P s) ->
  forall s, P s.
Proof.
  intros H s.
  induction s as [s IH] using (well_founded_induction
                                 (Wf_nat.well_founded_ltof _ schema_size)).
  apply H. exact IH.
Qed.

(** ** Effective types *)

(** The three parts the walker computes are lines 139-149. *)
Lemma resolve_field_type_spec t :
  resolve_field_type t =
  if union_index_error t then None
  else Some (effective_type t, effective_optional t).
Proof.
  destruct t; try reflexivity.
  destruct schemas as [|s0 rest]; [reflexivity|].
  unfold resolve_field_type, effective_type, effective_optional, union_index_error.
  destruct (first_non_null_cases s0 (s0 :: rest))
    as [[E1 E2]|[t [ts [E1 [E2 _]]]]]; rewrite E1, E2; reflexivity.
Qed.

(** Array Discovery looks at the same type as the walker whenever the
    walker's effective type is not null. *)
Lemma discovery_type_effective t :
  non_null (effective_type t) = true -> discovery_type t = effective_type t.
Proof.
  destruct t; try reflexivity.
  unfold effective_type, discovery_type.
  destruct schemas as [|s0 rest]; [reflexivity|].
  destruct (first_non_null_cases s0 (s0 :: rest))
    as [[E1 E2]|[t [ts [E1 [E2 E3]]]]]; rewrite E2; intro H.
  - exfalso. simpl in E1. rewrite H in E1. discriminate E1.
  - destruct (first_non_null_cases (UnionSchema (s0 :: rest)) (s0 :: rest))
      as [[F1 F2]|[t' [ts' [F1 [F2 _]]]]]; rewrite F1 in E1.
    + discriminate E1.
    + rewrite F2. congruence.
Qed.

(** ** Unfolding the loops over the fields *)

Lemma extract_record_nil n prefix array_paths include_types :
  extract_field_paths (RecordSchema n []) prefix array_paths include_types = Some [].
Proof. reflexivity. Qed.

Lemma extract_record_cons n name type field_doc rest prefix array_paths include_types :
  extract_field_paths (RecordSchema n (mkField name type field_doc :: rest))
    prefix array_paths include_types =
  match resolve_field_type type with
  | None => None
  | Some (sub_schema, is_optional) =>
      here <- field_paths sub_schema is_optional (join_name prefix name)
                field_doc array_paths include_types ;;
      later <- extract_field_paths (RecordSchema n rest) prefix array_paths
                 include_types ;;
      Some (here ++ later)%list
  end.
Proof.
  rewrite resolve_field_type_spec.
  simpl extract_field_paths at 1.
  destruct (union_index_error type); [reflexivity|].
  unfold field_paths. reflexivity.
Qed.


Lemma find_record_cons n name type field_doc rest prefix parent_arrays :
  find_array_fields (RecordSchema n (mkField name type field_doc :: rest))
    prefix parent_arrays =
  (match discovery_type type with
   | RecordSchema _ _ =>
       find_array_fields (discovery_type type) (join_name prefix name) parent_arrays
   | ArraySchema items =>
       join_name prefix name ::
       (if Str.mem (join_name prefix name) parent_arrays
        then find_array_fields items (join_name prefix name ++ array_marker)
               parent_arrays
        else [])
   | _ => []
   end ++ find_array_fields (RecordSchema n rest) prefix parent_arrays)%list.
Proof. reflexivity. Qed.

End WalkerFacts.

Module DiscoveryFacts.
Import WalkerFacts.

(** Monotony along the fields of a record, given monotony on every
    schema that is not larger than the type of one of the fields. *)
Lemma find_record_incl n fields prefix policy1 policy2 :
  incl policy1 policy2 ->
  (forall t, (exists f, In f fields /\ schema_size t <= schema_size (field_schema f)) ->
             forall prefix', incl (find_array_fields t prefix' policy1)
                                  (find_array_fields t prefix' policy2)) ->
  incl (find_array_fields (RecordSchema n fields) prefix policy1)
       (find_array_fields (RecordSchema n fields) prefix policy2).
Proof.
  intros Hsub. induction fields as [|[name type field_doc] rest IH]; intro Hrec.
  - apply incl_refl.
  - rewrite !find_record_cons. apply incl_app_app.
    + pose proof (discovery_type_size type) as Hsize.
      destruct (discovery_type type) eqn:E; try apply incl_refl.
      * apply Hrec. exists (mkField name type field_doc).
        split; [left; reflexivity|exact Hsize].
      * apply incl_cons; [left; reflexivity|]. apply incl_tl.
        destruct (Str.mem (join_name prefix name) policy1) eqn:M1;
          [|apply incl_nil_l].
        assert (M2 : Str.mem (join_name prefix name) policy2 = true).
        { apply mem_In, Hsub, mem_In, M1. }
        rewrite M2. apply Hrec. exists (mkField name type field_doc).
        split; [left; reflexivity|]. simpl in Hsize. simpl. lia.
    + apply IH. intros t [f [Hf Hle]]. apply Hrec.
      exists f. split; [right; exact Hf|exact Hle].
Qed.

Lemma find_array_fields_incl schema_obj :
  forall prefix policy1 policy2,
    incl policy1 policy2 ->
    incl (find_array_fields schema_obj prefix policy1)
         (find_array_fields schema_obj prefix policy2).
Proof.
  induction schema_obj as [s IH] using schema_size_ind.
  intros prefix policy1 policy2 Hsub.
  destruct s; try apply incl_refl.
  apply find_record_incl; [exact Hsub|].
  intros t [f [Hf Hle]] prefix'. apply IH; [|exact Hsub].
  pose proof (field_size_lt fullname f fields Hf). lia.
Qed.

End DiscoveryFacts.

Module LeafFacts.
Import WalkerFacts.

Lemma endswith_refl p : Str.endswith p p = true.
Proof.
  destruct p as [|c tl]; [reflexivity|].
  change (Str.endswith (String c tl) (String c tl))
    with (String.eqb (String c tl) (String c tl) || Str.endswith tl (String c tl)).
  rewrite String.eqb_refl. reflexivity.
Qed.

Lemma endswith_append s p : Str.endswith (s ++ p) p = true.
Proof.
  induction s as [|c tl IH]; [apply endswith_refl|].
  change (Str.endswith (String c tl ++ p) p)
    with (String.eqb (String c (tl ++ p)) p || Str.endswith (tl ++ p) p).
  rewrite IH. apply orb_true_r.
Qed.

Lemma other_leaf_not_array include_types full_name field_doc is_optional sub i :
  (forall items, sub <> ArraySchema items) ->
  other_leaf include_types full_name field_doc is_optional sub = Info i ->
  field_type i <> "array".
Proof.
  intros Hsub E. unfold other_leaf in E.
  destruct include_types; [|discriminate E].
  injection E as <-. simpl.
  destruct sub; simpl; try discriminate.
  - exfalso. eapply Hsub. reflexivity.
  - destruct prim; discriminate.
Qed.

Lemma array_leaf_record n fields :
  (forall t, (exists f, In f fields /\ schema_size t <= schema_size (field_schema f)) ->
             array_leaf_known t) ->
  array_leaf_known (RecordSchema n fields).
Proof.
  induction fields as [|[name type field_doc] rest IH]; intro Hrec;
    intros prefix array_paths include_types items i Hwalk Hin Harr.
  - rewrite extract_record_nil in Hwalk. injection Hwalk as <-. contradiction.
  - rewrite extract_record_cons, resolve_field_type_spec in Hwalk.
    destruct (union_index_error type); [discriminate Hwalk|].
    destruct (field_paths (effective_type type) (effective_optional type)
                (join_name prefix name) field_doc array_paths include_types)
      as [here|] eqn:Hhere; [|discriminate Hwalk].
    destruct (extract_field_paths (RecordSchema n rest) prefix array_paths
                include_types) as [later|] eqn:Hlater; [|discriminate Hwalk].
    injection Hwalk as <-.
    rewrite find_record_cons.
    apply in_app_or in Hin. destruct Hin as [Hin|Hin].
    + pose proof (effective_type_size type) as Hsize.
      pose proof (discovery_type_effective type) as Hdisc.
      unfold field_paths in Hhere.
      destruct (effective_type type) eqn:E.
      * (* record *)
        rewrite (Hdisc eq_refl).
        destruct (Hrec (RecordSchema fullname fields)
                    (ex_intro _ (mkField name type field_doc)
                       (conj (or_introl eq_refl) Hsize))
                    _ _ _ _ _ Hhere Hin Harr) as [fn [H1 [H2 H3]]].
        exists fn. repeat split; try assumption. apply in_or_app. left. exact H2.
      * (* array *)
        rewrite (Hdisc eq_refl).
        destruct (Str.mem (join_name prefix name) array_paths) eqn:M.
        -- assert (Hle : schema_size s <= schema_size (field_schema (mkField name type field_doc)))
             by (simpl in Hsize; simpl; lia).
           destruct (Hrec s (ex_intro _ (mkField name type field_doc)
                               (conj (or_introl eq_refl) Hle))
                       _ _ _ _ _ Hhere Hin Harr) as [fn [H1 [H2 H3]]].
           exists fn. repeat split; try assumption.
           apply in_or_app. left. right. exact H2.
        -- injection Hhere as <-. destruct Hin as [Hin|[]].
           unfold array_leaf in Hin. destruct include_types; [|discriminate Hin].
           injection Hin as <-. exists (join_name prefix name).
           repeat split; [|exact M]. apply in_or_app. left. left. reflexivity.
      * (* union *)
        injection Hhere as <-. destruct Hin as [Hin|[]].
        exfalso. revert Harr. eapply other_leaf_not_array; [|exact Hin]. discriminate.
      * (* enum *)
        injection Hhere as <-. destruct Hin as [Hin|[]].
        unfold enum_leaf in Hin. destruct include_types; [|discriminate Hin].
        injection Hin as <-. discriminate Harr.
      * injection Hhere as <-. destruct Hin as [Hin|[]].
        exfalso. revert Harr. eapply other_leaf_not_array; [|exact Hin]. discriminate.
      * injection Hhere as <-. destruct Hin as [Hin|[]].
        exfalso. revert Harr. eapply other_leaf_not_array; [|exact Hin]. discriminate.
      * injection Hhere as <-. destruct Hin as [Hin|[]].
        exfalso. revert Harr. eapply other_leaf_not_array; [|exact Hin]. discriminate.
    + assert (Hrest : array_leaf_known (RecordSchema n rest)).
      { apply IH. intros t [f [Hf Hle]]. apply Hrec.
        exists f. split; [right; exact Hf|exact Hle]. }
      destruct (Hrest _ _ _ _ _ Hlater Hin Harr) as [fn [H1 [H2 H3]]].
      exists fn. repeat split; try assumption. apply in_or_app. right. exact H2.
Qed.

Lemma array_leaf_known_all schema_obj : array_leaf_known schema_obj.
Proof.
  induction schema_obj as [s IH] using schema_size_ind.
  destruct s;
    try (intros prefix array_paths include_types items i Hwalk Hin;
         injection Hwalk as <-; contradiction).
  apply array_leaf_record. intros t [f [Hf Hle]]. apply IH.
  pose proof (field_size_lt fullname f fields Hf). lia.
Qed.

End LeafFacts.

(* ================================================================== *)
(** * Properties of the partition and of the DDL handler *)
(* ================================================================== *)

Module DictFacts.

Lemma get_set_same {V} k (v : V) d : Dict.get k (Dict.set k v d) = Some v.
Proof.
  induction d as [|[k' v'] rest IH]; simpl.
  - rewrite String.eqb_refl. reflexivity.
  - destruct (String.eqb k k') eqn:E; simpl; rewrite E; [reflexivity|exact IH].
Qed.

Lemma get_set_other {V} k k' (v : V) d :
  k <> k' -> Dict.get k (Dict.set k' v d) = Dict.get k d.
Proof.
  intro Hne. induction d as [|[k0 v0] rest IH]; simpl.
  - destruct (String.eqb k k') eqn:E; [|reflexivity].
    apply String.eqb_eq in E. contradiction.
  - destruct (String.eqb k' k0) eqn:E; simpl.
    + apply String.eqb_eq in E. subst k0.
      destruct (String.eqb k k') eqn:E'; [|reflexivity].
      apply String.eqb_eq in E'. contradiction.
    + destruct (String.eqb k k0); [reflexivity|exact IH].
Qed.

Lemma contains_set {V} k k' (v : V) d :
  Dict.contains k d = true -> Dict.contains k (Dict.set k' v d) = true.
Proof.
  unfold Dict.contains. intro H.
  destruct (string_dec k k') as [->|Hne].
  - rewrite get_set_same. reflexivity.
  - rewrite get_set_other by exact Hne. exact H.
Qed.

Lemma contains_set_same {V} k (v : V) d :
  Dict.contains k (Dict.set k v d) = true.
Proof. unfold Dict.contains. rewrite get_set_same. reflexivity. Qed.

Lemma contains_get {V} k (d : Dict.t V) :
  Dict.contains k d = true -> exists v, Dict.get k d = Some v.
Proof.
  unfold Dict.contains. destruct (Dict.get k d) as [v|]; [eauto|discriminate].
Qed.

Lemma contains_keys {V} k (d : Dict.t V) :
  Dict.contains k d = true -> In k (Dict.keys d).
Proof.
  unfold Dict.contains.
  induction d as [|[k' v'] rest IH]; simpl; [discriminate|].
  destruct (String.eqb k k') eqn:E.
  - apply String.eqb_eq in E. left. symmetry. exact E.
  - intro H. right. apply IH, H.
Qed.

Lemma get_In {V} k (v : V) d : Dict.get k d = Some v -> In (k, v) d.
Proof.
  induction d as [|[k' v'] rest IH]; simpl; [discriminate|].
  destruct (String.eqb k k') eqn:E.
  - apply String.eqb_eq in E. intro H. injection H as ->. left. congruence.
  - intro H. right. apply IH, H.
Qed.

(** An invariant of the accumulator goes through a loop. *)
Lemma fold_left_invariant {A B} (P : A -> Prop) (f : A -> B -> A) l :
  (forall acc x, P acc -> P (f acc x)) ->
  forall init, P init -> P (fold_left f l init).
Proof.
  intro Hstep. induction l as [|x l IH]; simpl; intros init H; [exact H|].
  apply IH, Hstep, H.
Qed.

End DictFacts.

Module PartitionFacts.
Import DictFacts.

Lemma ensure_table_contains k tables :
  Dict.contains k (ensure_table k tables) = true.
Proof.
  unfold ensure_table. destruct (Dict.contains k tables) eqn:E; [exact E|].
  apply contains_set_same.
Qed.

Lemma ensure_table_keeps k k' tables :
  Dict.contains k tables = true -> Dict.contains k (ensure_table k' tables) = true.
Proof.
  unfold ensure_table. intro H.
  destruct (Dict.contains k' tables); [exact H|]. apply contains_set, H.
Qed.

Lemma append_to_table_keeps k k' x tables :
  Dict.contains k tables = true ->
  Dict.contains k (append_to_table k' x tables) = true.
Proof.
  intro H. unfold append_to_table. apply contains_set, ensure_table_keeps, H.
Qed.

Lemma collect_nested_keeps k paths nested tables :
  Dict.contains k tables = true ->
  Dict.contains k (collect_nested paths nested tables) = true.
Proof.
  unfold collect_nested.
  apply (fold_left_invariant (fun t => Dict.contains k t = true)).
  intros acc [s|i] H; [exact H|].
  destruct (under_array (path i) nested); [|exact H].
  apply append_to_table_keeps, H.
Qed.

Lemma handle_nested_keeps k selected paths tables array_path :
  Dict.contains k tables = true ->
  Dict.contains k (handle_nested selected paths tables array_path) = true.
Proof.
  intro H. unfold handle_nested.
  apply (fold_left_invariant (fun t => Dict.contains k t = true)).
  - intros acc nested Hacc.
    destruct (under_array nested array_path && negb (String.eqb nested array_path));
      [|exact Hacc].
    apply collect_nested_keeps, Hacc.
  - apply ensure_table_keeps, H.
Qed.

Lemma handle_nested_seeds selected paths tables array_path :
  Dict.contains array_path (handle_nested selected paths tables array_path) = true.
Proof.
  unfold handle_nested.
  apply (fold_left_invariant (fun t => Dict.contains array_path t = true)).
  - intros acc nested Hacc.
    destruct (under_array nested array_path && negb (String.eqb nested array_path));
      [|exact Hacc].
    apply collect_nested_keeps, Hacc.
  - apply ensure_table_contains.
Qed.

Lemma seeded_by_loop selected paths l :
  forall tables array_path,
    In array_path l ->
    Dict.contains array_path
      (fold_left (handle_nested selected paths) l tables) = true.
Proof.
  induction l as [|x l IH]; intros tables array_path Hin; [contradiction|].
  simpl. destruct (in_dec string_dec array_path l) as [Hl|Hl].
  - apply IH, Hl.
  - destruct Hin as [->|Hin]; [|contradiction].
    apply (fold_left_invariant (fun t => Dict.contains array_path t = true)).
    + intros acc y Hacc. apply handle_nested_keeps, Hacc.
    + apply handle_nested_seeds.
Qed.

(** Every selected array has a table, whether or not a descriptor
    falls under it. *)
Lemma selected_array_has_table selected paths array_path :
  In array_path selected ->
  Dict.contains array_path
    (array_tables (build_table_hierarchy selected paths)) = true.
Proof.
  intro Hin. unfold build_table_hierarchy.
  destruct (fold_left (assign_path selected) paths ([], [])) as [root_fields tables].
  simpl. apply seeded_by_loop, Hin.
Qed.

(** ** Where the descriptors go *)

(** A step of a loop that establishes [P], and no later step that
    breaks it. *)
Lemma fold_left_reaches {A B} (P : A -> Prop) (f : A -> B -> A) l x :
  In x l ->
  (forall acc, P (f acc x)) ->
  (forall acc y, P acc -> P (f acc y)) ->
  forall init, P (fold_left f l init).
Proof.
  intros Hin Hx Hkeep. induction l as [|y l IH]; [contradiction|].
  intro init. simpl. destruct Hin as [->|Hin].
  - apply fold_left_invariant; [exact Hkeep|apply Hx].
  - apply IH, Hin.
Qed.

Lemma ensure_table_holds tables k k' x :
  table_holds tables k x -> table_holds (ensure_table k' tables) k x.
Proof.
  intros [l [Hget Hin]]. unfold ensure_table.
  destruct (Dict.contains k' tables) eqn:E; [exists l; split; assumption|].
  exists l. split; [|exact Hin].
  rewrite get_set_other; [exact Hget|].
  intros ->. unfold Dict.contains in E. rewrite Hget in E. discriminate E.
Qed.

Lemma append_to_table_holds tables k k' x y :
  table_holds tables k x -> table_holds (append_to_table k' y tables) k x.
Proof.
  intro H. apply (ensure_table_holds _ _ k') in H. destruct H as [l [Hget Hin]].
  unfold append_to_table. destruct (string_dec k k') as [->|Hne].
  - exists (l ++ [y])%list. split; [|apply in_or_app; left; exact Hin].
    rewrite get_set_same. unfold Dict.get_default. rewrite Hget. reflexivity.
  - exists l. split; [|exact Hin]. rewrite get_set_other; assumption.
Qed.

Lemma append_to_table_adds tables k x : table_holds (append_to_table k x tables) k x.
Proof.
  unfold append_to_table, table_holds. rewrite get_set_same.
  eexists. split; [reflexivity|]. apply in_or_app. right. left. reflexivity.
Qed.

Lemma collect_nested_holds paths nested tables k x :
  table_holds tables k x -> table_holds (collect_nested paths nested tables) k x.
Proof.
  unfold collect_nested.
  apply (fold_left_invariant (fun t => table_holds t k x)).
  intros acc [s|i] H; [exact H|].
  destruct (under_array (path i) nested); [|exact H].
  apply append_to_table_holds, H.
Qed.

Lemma collect_nested_adds paths nested tables i :
  In (Info i) paths -> under_array (path i) nested = true ->
  table_holds (collect_nested paths nested tables) nested (Info i).
Proof.
  intros Hin Hunder. unfold collect_nested.
  apply (fold_left_reaches (fun t => table_holds t nested (Info i)) _ paths (Info i) Hin).
  - intro acc. rewrite Hunder. apply append_to_table_adds.
  - intros acc [s|j] H; [exact H|].
    destruct (under_array (path j) nested); [|exact H].
    apply append_to_table_holds, H.
Qed.

Lemma handle_nested_holds selected paths tables array_path k x :
  table_holds tables k x ->
  table_holds (handle_nested selected paths tables array_path) k x.
Proof.
  intro H. unfold handle_nested.
  apply (fold_left_invariant (fun t => table_holds t k x)).
  - intros acc nested Hacc.
    destruct (under_array nested array_path && negb (String.eqb nested array_path));
      [|exact Hacc].
    apply collect_nested_holds, Hacc.
  - apply ensure_table_holds, H.
Qed.

Lemma handle_nested_adds selected paths tables array_path nested i :
  In nested selected ->
  under_array nested array_path = true -> nested <> array_path ->
  In (Info i) paths -> under_array (path i) nested = true ->
  table_holds (handle_nested selected paths tables array_path) nested (Info i).
Proof.
  intros Hsel Hunder Hne Hin Hi. unfold handle_nested.
  apply (fold_left_reaches (fun t => table_holds t nested (Info i)) _ selected nested Hsel).
  - intro acc. rewrite Hunder.
    apply String.eqb_neq in Hne. rewrite Hne. simpl.
    apply collect_nested_adds; assumption.
  - intros acc y H.
    destruct (under_array y array_path && negb (String.eqb y array_path)); [|exact H].
    apply collect_nested_holds, H.
Qed.

Lemma assign_path_holds selected st y k x :
  table_holds (snd st) k x -> table_holds (snd (assign_path selected st y)) k x.
Proof.
  destruct st as [root_fields tables]. simpl. intro H.
  destruct y as [s|i]; [exact H|].
  destruct (find (under_array (path i)) selected); simpl; [|exact H].
  apply append_to_table_holds, H.
Qed.

Lemma assign_path_root selected st y x :
  In x (fst st) -> In x (fst (assign_path selected st y)).
Proof.
  destruct st as [root_fields tables]. simpl. intro H.
  destruct y as [s|i]; [exact H|].
  destruct (find (under_array (path i)) selected); simpl; [exact H|].
  apply in_or_app. left. exact H.
Qed.

(** The first loop: a descriptor is in the table of the first selected
    array it falls under, or in the root list when there is none. *)
Lemma first_loop_array selected paths i array_path :
  In (Info i) paths ->
  find (under_array (path i)) selected = Some array_path ->
  table_holds (snd (fold_left (assign_path selected) paths ([], []))) array_path (Info i).
Proof.
  intros Hin Hfind.
  apply (fold_left_reaches
           (fun st => table_holds (snd st) array_path (Info i)) _ paths (Info i) Hin).
  - intros [root_fields tables]. simpl. rewrite Hfind. simpl.
    apply append_to_table_adds.
  - intros acc y. apply assign_path_holds.
Qed.

Lemma first_loop_root selected paths i :
  In (Info i) paths ->
  find (under_array (path i)) selected = None ->
  In (Info i) (fst (fold_left (assign_path selected) paths ([], []))).
Proof.
  intros Hin Hfind.
  apply (fold_left_reaches (fun st => In (Info i) (fst st)) _ paths (Info i) Hin).
  - intros [root_fields tables]. simpl. rewrite Hfind. simpl.
    apply in_or_app. right. left. reflexivity.
  - intros acc y. apply assign_path_root.
Qed.

Lemma second_loop_holds selected paths l tables k x :
  table_holds tables k x ->
  table_holds (fold_left (handle_nested selected paths) l tables) k x.
Proof.
  apply (fold_left_invariant (fun t => table_holds t k x)).
  intros acc y. apply handle_nested_holds.
Qed.

(** No descriptor is lost: it is in the root list or in the table of
    the first selected array it falls under. *)
Lemma descriptor_kept selected paths i :
  In (Info i) paths ->
  let ts := build_table_hierarchy selected paths in
  match find (under_array (path i)) selected with
  | Some array_path => table_holds (array_tables ts) array_path (Info i)
  | None => In (Info i) (root_table ts)
  end.
Proof.
  intro Hin. unfold build_table_hierarchy.
  pose proof (first_loop_array selected paths i) as Harr.
  pose proof (first_loop_root selected paths i Hin) as Hroot.
  destruct (fold_left (assign_path selected) paths ([], [])) as [root_fields tables].
  simpl in *.
  destruct (find (under_array (path i)) selected) as [array_path|].
  - apply second_loop_holds, (Harr array_path Hin eq_refl).
  - apply Hroot. reflexivity.
Qed.

(** The second loop: a descriptor under a selected array that is nested
    in another selected array is in the table of the nested array, too. *)
Lemma descriptor_in_nested selected paths i outer nested :
  In (Info i) paths ->
  In outer selected -> In nested selected ->
  under_array nested outer = true -> nested <> outer ->
  under_array (path i) nested = true ->
  table_holds (array_tables (build_table_hierarchy selected paths)) nested (Info i).
Proof.
  intros Hin Hout Hnest Hunder Hne Hi. unfold build_table_hierarchy.
  destruct (fold_left (assign_path selected) paths ([], [])) as [root_fields tables].
  simpl.
  apply (fold_left_reaches (fun t => table_holds t nested (Info i)) _ selected outer Hout).
  - intro acc. apply handle_nested_adds; assumption.
  - intros acc y. apply handle_nested_holds.
Qed.

(** Both at once: the descriptor stays in the table of the first
    selected array it falls under when the second loop copies it into
    the table of a nested selected array. *)
Lemma descriptor_in_both selected paths i outer nested :
  In (Info i) paths ->
  find (under_array (path i)) selected = Some outer ->
  In nested selected ->
  under_array nested outer = true -> nested <> outer ->
  under_array (path i) nested = true ->
  let tables := array_tables (build_table_hierarchy selected paths) in
  table_holds tables outer (Info i) /\ table_holds tables nested (Info i).
Proof.
  intros Hin Hfind Hnest Hunder Hne Hi tables. split.
  - pose proof (descriptor_kept selected paths i Hin) as H.
    simpl in H. rewrite Hfind in H. exact H.
  - apply (descriptor_in_nested selected paths i outer nested); try assumption.
    apply find_some in Hfind. apply Hfind.
Qed.

End PartitionFacts.

Module DDLFacts.
Import DictFacts PartitionFacts.

(** The type table has an entry for enums, so no lookup fails. *)
Lemma avro_to_hive_type_total field_info :
  exists hive_type, avro_to_hive_type field_info = Some hive_type.
Proof.
  unfold avro_to_hive_type.
  destruct (String.eqb (field_type field_info) "enum"); [|eauto].
  exists "VARCHAR(100)". reflexivity.
Qed.

Lemma for_each_total {A B} (f : A -> option B) l :
  (forall a, exists b, f a = Some b) -> exists bs, for_each f l = Some bs.
Proof.
  intro Hf. induction l as [|a rest [bs IH]]; simpl; [eauto|].
  destruct (Hf a) as [b ->]. rewrite IH. simpl. eauto.
Qed.

Lemma data_column_total array_path i :
  exists column, data_column array_path i = Some column.
Proof.
  unfold data_column.
  destruct (String.eqb (field_type i) "array"); [eauto|].
  destruct (String.eqb (field_type i) "record"); [eauto|].
  destruct (avro_to_hive_type_total i) as [t ->]. simpl. eauto.
Qed.

Lemma root_column_total i : exists column, root_column i = Some column.
Proof.
  unfold root_column.
  destruct (String.eqb (field_type i) "array"); [eauto|].
  destruct (String.eqb (field_type i) "record"); [eauto|].
  destruct (avro_to_hive_type_total i) as [t ->]. simpl. eauto.
Qed.

Lemma find_field_path fields key info :
  find_field fields (Some key) = Some info ->
  path info = key /\ In (Info info) fields.
Proof.
  induction fields as [|[s|i] rest IH]; simpl; [discriminate| |].
  - intro H. destruct (IH H) as [H1 H2]. split; [exact H1|right; exact H2].
  - destruct (String.eqb (path i) key) eqn:E.
    + intro H. injection H as <-. apply String.eqb_eq in E.
      split; [exact E|left; reflexivity].
    + intro H. destruct (IH H) as [H1 H2]. split; [exact H1|right; exact H2].
Qed.

Lemma find_field_found fields key i :
  In (Info i) fields -> path i = key ->
  exists info, find_field fields (Some key) = Some info.
Proof.
  intros Hin Hpath. induction fields as [|[s|j] rest IH]; simpl; [contradiction| |].
  - destruct Hin as [Hin|Hin]; [discriminate Hin|]. apply IH, Hin.
  - destruct (String.eqb (path j) key) eqn:E; [eauto|].
    destruct Hin as [Hin|Hin]; [|apply IH, Hin].
    injection Hin as ->. rewrite Hpath, String.eqb_refl in E. discriminate E.
Qed.

(** The parent found by the loop of lines 574-579 is a selected array. *)
Lemma immediate_parent_selected selected_arrays array_path is_nested p :
  immediate_parent selected_arrays array_path = (is_nested, Some p) ->
  In p selected_arrays.
Proof.
  unfold immediate_parent.
  set (step := fun (st : bool * option string) (potential_parent : string) => _).
  assert (Hinv : forall l init,
            (forall q, snd init = Some q -> In q selected_arrays) ->
            incl l selected_arrays ->
            forall q, snd (fold_left step l init) = Some q -> In q selected_arrays).
  { induction l as [|x l IH]; intros init Hinit Hl q; simpl; [apply Hinit|].
    apply IH.
    - intros q'. unfold step. destruct init as [b parent_array].
      destruct (negb (String.eqb array_path x) && under_array array_path x);
        [|apply Hinit].
      destruct (negb (truthy parent_array)
                || (String.length (match parent_array with Some p0 => p0 | None => "" end)
                    <? String.length x)%nat); [|apply Hinit].
      simpl. intro E. injection E as <-. apply Hl. left. reflexivity.
    - intros y Hy. apply Hl. right. exact Hy. }
  intro H. apply (Hinv selected_arrays (false, None)).
  - simpl. discriminate.
  - apply incl_refl.
  - rewrite H. reflexivity.
Qed.

Section Handler.

Variable root_table_name : string.
Variable common_fields_list : list (string * string).
Variable selected_arrays : list string.
Variable root_fields : list PathItem.
Variable tables : Dict.t (list PathItem).
Variable natural_key : option string.
Variable array_natural_keys : Dict.t string.
Variable parent_child_relations : Dict.t Relation.

(** The branches of lines 582-644 only choose the table to bind to. *)
Lemma foreign_key_column_binding array_path :
  foreign_key_column root_table_name selected_arrays root_fields tables natural_key
    array_natural_keys parent_child_relations array_path =
  match fk_binding selected_arrays array_natural_keys parent_child_relations array_path with
  | Some p => parent_array_fk root_table_name tables array_natural_keys p
  | None => root_fk root_table_name root_fields natural_key
  end.
Proof.
  unfold foreign_key_column, fk_binding.
  destruct (immediate_parent selected_arrays array_path) as [is_nested parent_array].
  destruct (is_nested && truthy parent_array
            && Dict.contains (match parent_array with Some p => p | None => "" end)
                 array_natural_keys) eqn:E.
  - destruct parent_array as [p|]; [reflexivity|].
    rewrite andb_false_r in E. discriminate E.
  - destruct (Dict.get array_path parent_child_relations) as [relation|]; [|reflexivity].
    destruct (String.eqb (choice relation) "Parent array's key"
              && Dict.contains (parent relation) array_natural_keys); reflexivity.
Qed.

(** An array the handler binds to has a natural key, and is either a
    selected array or the parent of an explicit relation. *)
Lemma fk_binding_parent array_path p :
  fk_binding selected_arrays array_natural_keys parent_child_relations array_path = Some p ->
  Dict.contains p array_natural_keys = true.
Proof.
  unfold fk_binding.
  destruct (immediate_parent selected_arrays array_path) as [is_nested parent_array].
  destruct (is_nested && truthy parent_array
            && Dict.contains (match parent_array with Some p => p | None => "" end)
                 array_natural_keys) eqn:E.
  - intros ->. apply andb_prop in E. apply E.
  - destruct (Dict.get array_path parent_child_relations) as [relation|]; [|discriminate].
    destruct (String.eqb (choice relation) "Parent array's key"
              && Dict.contains (parent relation) array_natural_keys) eqn:F;
      [|discriminate].
    intro H. injection H as <-. apply andb_prop in F. apply F.
Qed.

Lemma root_fk_total :
  exists column, root_fk root_table_name root_fields natural_key = Some column.
Proof.
  unfold root_fk. destruct (find_field root_fields natural_key) as [info|]; [|eauto].
  destruct (avro_to_hive_type_total info) as [t ->]. cbn [bind]. eauto.
Qed.

Lemma root_fk_stale :
  find_field root_fields natural_key = None ->
  exists column,
    root_fk root_table_name root_fields natural_key = Some column /\
    col_type column = "VARCHAR(255)".
Proof. unfold root_fk. intros ->. eauto. Qed.

Lemma parent_array_fk_total p :
  Dict.contains p array_natural_keys = true ->
  Dict.contains p tables = true ->
  exists column, parent_array_fk root_table_name tables array_natural_keys p = Some column.
Proof.
  intros Hk Ht. unfold parent_array_fk.
  destruct (contains_get _ _ Hk) as [key ->].
  destruct (contains_get _ _ Ht) as [fields ->]. cbn [bind].
  destruct (find_field fields (Some key)) as [info|]; [|eauto].
  destruct (avro_to_hive_type_total info) as [t ->]. cbn [bind]. eauto.
Qed.

Lemma parent_array_fk_stale p key fields :
  Dict.get p array_natural_keys = Some key ->
  Dict.get p tables = Some fields ->
  find_field fields (Some key) = None ->
  exists column,
    parent_array_fk root_table_name tables array_natural_keys p = Some column /\
    col_type column = "VARCHAR(255)".
Proof.
  intros Hk Ht Hf. unfold parent_array_fk. rewrite Hk, Ht. cbn [bind]. rewrite Hf. eauto.
Qed.

Lemma natural_key_columns_total array_path fields :
  exists columns, natural_key_columns array_natural_keys array_path fields = Some columns.
Proof.
  unfold natural_key_columns.
  destruct (Dict.get array_path array_natural_keys) as [key|]; [|eauto].
  destruct (find_field fields (Some key)) as [info|]; [|eauto].
  destruct (avro_to_hive_type_total info) as [t ->]. cbn [bind]. eauto.
Qed.

Lemma array_table_total array_path fields :
  (exists column,
     foreign_key_column root_table_name selected_arrays root_fields tables natural_key
       array_natural_keys parent_child_relations array_path = Some column) ->
  exists t,
    array_table root_table_name common_fields_list selected_arrays root_fields tables
      natural_key array_natural_keys parent_child_relations array_path fields = Some t.
Proof.
  intros [fk Hfk]. unfold array_table. rewrite Hfk. cbn [bind].
  destruct (natural_key_columns_total array_path fields) as [key ->]. cbn [bind].
  destruct (for_each_total (data_column array_path)
              (data_fields array_natural_keys array_path fields)
              (data_column_total array_path)) as [data ->].
  cbn [bind]. eauto.
Qed.

Lemma root_table_columns_total :
  exists columns, root_table_columns common_fields_list root_fields = Some columns.
Proof.
  unfold root_table_columns.
  destruct (for_each_total root_column (infos root_fields) root_column_total)
    as [data ->].
  cbn [bind]. eauto.
Qed.

End Handler.

End DDLFacts.

(* ================================================================== *)
(** * Paths of schemas with Avro names *)
(* ================================================================== *)

Module NameFacts.
Import WalkerFacts.

Lemma avro_name_start n : avro_name n = true -> starts_with_name_char n = true.
Proof.
  destruct n as [|c tl]; simpl; [discriminate|].
  intro H. apply andb_prop in H. destruct H as [H _].
  apply andb_prop in H. apply H.
Qed.

Lemma starts_append s t :
  starts_with_name_char s = true -> starts_with_name_char (s ++ t) = true.
Proof. destruct s; simpl; [discriminate|trivial]. Qed.

(** The full name of a field starts like a name. *)
Lemma join_name_start prefix name :
  name_prefix prefix = true -> avro_name name = true ->
  starts_with_name_char (join_name prefix name) = true.
Proof.
  unfold name_prefix, join_name. intros Hp Hn.
  destruct (String.eqb prefix "") eqn:E.
  - apply avro_name_start, Hn.
  - simpl in Hp. apply starts_append, Hp.
Qed.

Lemma name_prefix_of_start s : starts_with_name_char s = true -> name_prefix s = true.
Proof. unfold name_prefix. intros ->. apply orb_true_r. Qed.

Lemma avro_names_record n fields :
  avro_names (RecordSchema n fields) = true ->
  forall f, In f fields ->
    avro_name (field_name f) = true /\ avro_names (field_schema f) = true.
Proof.
  simpl. induction fields as [|[name t d] rest IH]; intros H f Hf; [contradiction|].
  apply andb_prop in H. destruct H as [H Hrest].
  apply andb_prop in H. destruct H as [Hname Ht].
  destruct Hf as [<-|Hf]; [split; assumption|]. apply IH; assumption.
Qed.

Lemma avro_names_record_tail n f rest :
  avro_names (RecordSchema n (f :: rest)) = true ->
  avro_names (RecordSchema n rest) = true.
Proof.
  destruct f as [name t d]. simpl. intro H.
  apply andb_prop in H. apply H.
Qed.

Lemma avro_names_union schemas :
  avro_names (UnionSchema schemas) = true ->
  forall t, In t schemas -> avro_names t = true.
Proof.
  simpl. induction schemas as [|s0 rest IH]; intros H t Ht; [contradiction|].
  apply andb_prop in H. destruct H as [H0 Hrest].
  destruct Ht as [<-|Ht]; [exact H0|]. apply IH; assumption.
Qed.

Lemma avro_names_first_non_null d schemas :
  avro_names d = true -> avro_names (UnionSchema schemas) = true ->
  avro_names (first_non_null d schemas) = true.
Proof.
  intros Hd Hs. destruct (first_non_null_In d schemas) as [->|H]; [exact Hd|].
  apply (avro_names_union schemas Hs), H.
Qed.

Lemma avro_names_effective t :
  avro_names t = true -> avro_names (effective_type t) = true.
Proof.
  intro H. destruct t; try exact H.
  unfold effective_type. apply avro_names_first_non_null; [|exact H].
  destruct schemas as [|s0 rest]; [exact H|].
  apply (avro_names_union _ H). left. reflexivity.
Qed.

Lemma avro_names_discovery t :
  avro_names t = true -> avro_names (discovery_type t) = true.
Proof.
  intro H. destruct t; try exact H.
  unfold discovery_type. apply avro_names_first_non_null; exact H.
Qed.

(** ** The walker: every path starts with a character of a name *)

Lemma leaf_paths_start sub_schema is_optional full_name field_doc array_paths
    include_types items i :
  starts_with_name_char full_name = true ->
  (forall t prefix items',
     schema_size t <= schema_size sub_schema -> avro_names t = true ->
     name_prefix prefix = true ->
     extract_field_paths t prefix array_paths include_types = Some items' ->
     In (Info i) items' -> starts_with_name_char (path i) = true) ->
  avro_names sub_schema = true ->
  field_paths sub_schema is_optional full_name field_doc array_paths include_types
    = Some items ->
  In (Info i) items ->
  starts_with_name_char (path i) = true.
Proof.
  intros Hfull Hrec Hnames Hpaths Hin. unfold field_paths in Hpaths.
  assert (Hleaf : forall t, other_leaf include_types full_name field_doc is_optional t
                            = Info i -> starts_with_name_char (path i) = true).
  { intros t E. unfold other_leaf in E. destruct include_types; [|discriminate E].
    injection E as <-. exact Hfull. }
  destruct sub_schema;
    try (injection Hpaths as <-; destruct Hin as [Hin|[]]; eapply Hleaf; exact Hin).
  - eapply Hrec; [apply le_n|exact Hnames|apply name_prefix_of_start, Hfull
                  |exact Hpaths|exact Hin].
  - destruct (Str.mem full_name array_paths).
    + apply (Hrec sub_schema (full_name ++ array_marker) items);
        [simpl; lia|exact Hnames
        |apply name_prefix_of_start, starts_append, Hfull
        |exact Hpaths|exact Hin].
    + injection Hpaths as <-. destruct Hin as [Hin|[]].
      unfold array_leaf in Hin. destruct include_types; [|discriminate Hin].
      injection Hin as <-. apply starts_append, Hfull.
  - injection Hpaths as <-. destruct Hin as [Hin|[]].
    unfold enum_leaf in Hin. destruct include_types; [|discriminate Hin].
    injection Hin as <-. exact Hfull.
Qed.

Lemma walker_paths_start schema_obj :
  forall prefix array_paths include_types items i,
    avro_names schema_obj = true ->
    name_prefix prefix = true ->
    extract_field_paths schema_obj prefix array_paths include_types = Some items ->
    In (Info i) items ->
    starts_with_name_char (path i) = true.
Proof.
  induction schema_obj as [s IH] using schema_size_ind.
  intros prefix array_paths include_types items i Hnames Hprefix.
  destruct s; try (intro H; injection H as <-; contradiction).
  assert (Haux : forall fs, (forall f, In f fs -> In f fields) ->
            forall items', avro_names (RecordSchema fullname fs) = true ->
            extract_field_paths (RecordSchema fullname fs) prefix array_paths
              include_types = Some items' ->
            In (Info i) items' -> starts_with_name_char (path i) = true);
    [|apply (Haux fields); [trivial|exact Hnames]].
  clear items Hnames.
  induction fs as [|[name type field_doc] rest IHfs]; intros Hsub items Hnames Hwalk Hin.
  - rewrite extract_record_nil in Hwalk. injection Hwalk as <-. contradiction.
  - rewrite extract_record_cons, resolve_field_type_spec in Hwalk.
    destruct (union_index_error type); [discriminate Hwalk|].
    destruct (field_paths (effective_type type) (effective_optional type)
                (join_name prefix name) field_doc array_paths include_types)
      as [here|] eqn:Hhere; [|discriminate Hwalk].
    destruct (extract_field_paths (RecordSchema fullname rest) prefix array_paths
                include_types) as [later|] eqn:Hlater; [|discriminate Hwalk].
    injection Hwalk as <-.
    destruct (avro_names_record _ _ Hnames (mkField name type field_doc)
                (or_introl eq_refl)) as [Hname Htype].
    apply in_app_or in Hin. destruct Hin as [Hin|Hin].
    + eapply leaf_paths_start;
        [apply join_name_start; [exact Hprefix|exact Hname]
        | |apply avro_names_effective, Htype|exact Hhere|exact Hin].
      intros t prefix' items' Hle Ht Hp Hw Hi.
      eapply IH; [|exact Ht|exact Hp|exact Hw|exact Hi].
      pose proof (effective_type_size type).
      pose proof (field_size_lt fullname (mkField name type field_doc) fields
                    (Hsub _ (or_introl eq_refl))).
      simpl field_schema in *. lia.
    + eapply IHfs; [|eapply avro_names_record_tail, Hnames|reflexivity|exact Hin].
      intros f Hf. apply Hsub. right. exact Hf.
Qed.

(** ** Array Discovery: every path ends with a character of a name *)

Lemma last_char_append s t : t <> "" -> last_char (s ++ t) = last_char t.
Proof.
  intro Ht. induction s as [|c tl IH]; [reflexivity|].
  simpl. rewrite IH. destruct (tl ++ t) eqn:E; [|reflexivity].
  destruct tl; simpl in E; [contradiction|discriminate E].
Qed.

Lemma last_char_name_chars s :
  s <> "" -> Str.forallb Str.is_name_char s = true ->
  exists c, last_char s = Some c /\ Str.is_name_char c = true.
Proof.
  induction s as [|c tl IH]; [contradiction|].
  intros _ H. simpl in H. apply andb_prop in H. destruct H as [Hc Htl].
  destruct tl as [|d tl']; [exists c; split; [reflexivity|exact Hc]|].
  destruct (IH ltac:(discriminate) Htl) as [e [He1 He2]].
  exists e. split; [exact He1|exact He2].
Qed.

Lemma avro_name_last n :
  avro_name n = true ->
  n <> "" /\ exists c, last_char n = Some c /\ Str.is_name_char c = true.
Proof.
  destruct n as [|c tl]; [discriminate|].
  intro H. unfold avro_name in H.
  apply andb_prop in H. destruct H as [H Htl].
  apply andb_prop in H. destruct H as [Hc _].
  split; [discriminate|].
  apply last_char_name_chars; [discriminate|].
  change (Str.is_name_char c && Str.forallb Str.is_name_char tl = true).
  rewrite Hc. exact Htl.
Qed.

Lemma join_name_last prefix name :
  avro_name name = true ->
  exists c, last_char (join_name prefix name) = Some c /\ Str.is_name_char c = true.
Proof.
  intro H. destruct (avro_name_last _ H) as [Hne Hlast].
  unfold join_name. destruct (String.eqb prefix ""); [exact Hlast|].
  rewrite !last_char_append; [exact Hlast|exact Hne|].
  destruct name; [contradiction|discriminate].
Qed.

Lemma endswith_last s p :
  p <> "" -> Str.endswith s p = true -> last_char s = last_char p.
Proof.
  intro Hp. induction s as [|c tl IH].
  - simpl. destruct p; [contradiction|discriminate].
  - change (Str.endswith (String c tl) p)
      with (String.eqb (String c tl) p || Str.endswith tl p).
    intro H. apply orb_prop in H. destruct H as [H|H].
    + apply String.eqb_eq in H. rewrite H. reflexivity.
    + specialize (IH H). simpl. rewrite IH.
      destruct tl; [|reflexivity].
      simpl in H. destruct p; [contradiction|discriminate H].
Qed.

Lemma name_char_not_close c : Str.is_name_char c = true -> c <> "]"%char.
Proof. each_char c; intro H; (discriminate H || discriminate). Qed.

Lemma name_end_not_suffixed q c :
  last_char q = Some c -> Str.is_name_char c = true -> Str.endswith q "[]" = false.
Proof.
  intros Hq Hc. destruct (Str.endswith q "[]") eqn:E; [|reflexivity].
  apply endswith_last in E; [|discriminate].
  rewrite Hq in E. simpl in E. injection E as ->.
  exfalso. revert Hc. vm_compute. discriminate.
Qed.

Lemma discovered_paths_end schema_obj :
  forall prefix parent_arrays q,
    avro_names schema_obj = true ->
    In q (find_array_fields schema_obj prefix parent_arrays) ->
    Str.endswith q "[]" = false.
Proof.
  induction schema_obj as [s IH] using schema_size_ind.
  intros prefix parent_arrays q Hnames.
  destruct s; try contradiction.
  assert (Haux : forall fs, (forall f, In f fs -> In f fields) ->
            avro_names (RecordSchema fullname fs) = true ->
            In q (find_array_fields (RecordSchema fullname fs) prefix parent_arrays) ->
            Str.endswith q "[]" = false);
    [|apply (Haux fields); [trivial|exact Hnames]].
  clear Hnames.
  induction fs as [|[name type field_doc] rest IHfs]; intros Hsub Hnames Hin;
    [contradiction|].
  rewrite find_record_cons in Hin.
  destruct (avro_names_record _ _ Hnames (mkField name type field_doc)
              (or_introl eq_refl)) as [Hname Htype].
  assert (Hlt : forall t, schema_size t <= schema_size (discovery_type type) ->
                          schema_size t < schema_size (RecordSchema fullname fields)).
  { intros t Ht. pose proof (discovery_type_size type).
    pose proof (field_size_lt fullname (mkField name type field_doc) fields
                  (Hsub _ (or_introl eq_refl))).
    simpl field_schema in *. lia. }
  apply in_app_or in Hin. destruct Hin as [Hin|Hin].
  - pose proof (avro_names_discovery type Htype) as Hd.
    destruct (discovery_type type) eqn:E; try contradiction.
    + exact (IH _ (Hlt _ (le_n _)) _ _ _ Hd Hin).
    + destruct Hin as [<-|Hin].
      * destruct (join_name_last prefix name Hname) as [c [Hc1 Hc2]].
        eapply name_end_not_suffixed; eassumption.
      * destruct (Str.mem (join_name prefix name) parent_arrays); [|contradiction].
        refine (IH s (Hlt s _) _ _ _ Hd Hin). simpl. lia.
  - eapply IHfs; [|eapply avro_names_record_tail, Hnames|exact Hin].
    intros f Hf. apply Hsub. right. exact Hf.
Qed.

(** ** What the names give *)

(** On a schema with Avro names, the column name of every path of the
    walker matches [[a-z0-9_]+]. *)
Lemma walker_column_names schema_obj array_paths include_types items i :
  avro_names schema_obj = true ->
  extract_field_paths schema_obj "" array_paths include_types = Some items ->
  In (Info i) items ->
  matches_ident_plus (get_column_name (path i)) = true.
Proof.
  intros Hnames Hwalk Hin. apply NamerFacts.get_column_name_plus.
  exact (walker_paths_start schema_obj "" array_paths include_types items i
           Hnames eq_refl Hwalk Hin).
Qed.

(** On a schema with Avro names, a policy made of paths that Array
    Discovery reports holds no path of an array descriptor. *)
Lemma discovered_policy_excludes_leaves schema_obj array_paths items i :
  avro_names schema_obj = true ->
  (forall q, In q array_paths ->
             exists parent_arrays, In q (find_array_fields schema_obj "" parent_arrays)) ->
  extract_field_paths schema_obj "" array_paths true = Some items ->
  In (Info i) items ->
  field_type i = "array" ->
  ~ In (path i) array_paths.
Proof.
  intros Hnames Hpolicy Hwalk Hin Harr Hmember.
  destruct (LeafFacts.array_leaf_known_all schema_obj _ _ _ _ _ Hwalk Hin Harr)
    as [full_name [Hpath _]].
  destruct (Hpolicy _ Hmember) as [parent_arrays Hq].
  pose proof (discovered_paths_end schema_obj "" parent_arrays _ Hnames Hq) as Hend.
  rewrite Hpath, LeafFacts.endswith_append in Hend. discriminate Hend.
Qed.

End NameFacts.

(* ================================================================== *)
(** * The Path Namer: naming contract and idempotence *)
(* ================================================================== *)

(** C8, counterexample.  The walker gives the field "$" the path "$",
    and the namer strips its only character: the column name is empty
    and does not match [[a-z0-9_]+]. *)
Lemma get_column_name_empty :
  extract_field_paths (RecordSchema "R" [ mkField "$" string_schema None ]) "" [] true
    = Some [ leaf "$" "string" ] /\
  get_column_name "$" = "" /\
  matches_ident_plus (get_column_name "$") = false.
Proof. repeat split. Qed.

(** C8, as amended.  For every string the column name consists of
    characters of [[a-z0-9_]] only, so it is lower case and matches
    [[a-z0-9_]*]; it is non-empty, and matches [[a-z0-9_]+], whenever
    the path begins with a letter, a digit or an underscore. *)
Theorem get_column_name_contract (field_path : string) :
  matches_ident_star (get_column_name field_path) = true /\
  (starts_with_name_char field_path = true ->
   matches_ident_plus (get_column_name field_path) = true).
Proof.
  split; [apply NamerFacts.get_column_name_ident|].
  apply NamerFacts.get_column_name_plus.
Qed.

Lemma get_column_name_contract_witness :
  starts_with_name_char "items[].item.skuCode" = true /\
  matches_ident_plus (get_column_name "items[].item.skuCode") = true.
Proof.
  split; [reflexivity|].
  apply (get_column_name_contract "items[].item.skuCode"). reflexivity.
Defined.

(** C9.  The Path Namer is idempotent: naming a column name again gives
    the same column name, for every input string. *)
Theorem get_column_name_idempotent (x : string) :
  get_column_name (get_column_name x) = get_column_name x.
Proof.
  apply NamerFacts.get_column_name_fixpoint, NamerFacts.get_column_name_ident.
Qed.

(* ================================================================== *)
(** * The Schema Walker: unions *)
(* ================================================================== *)

Example walk_union_schema :
  extract_field_paths union_schema "" [] true =
  Some [ Info (mkInfo "note" "string" None true (LogicalType None));
         Info (mkInfo "nothing" "null" None false (LogicalType None)) ].
Proof. reflexivity. Qed.




(** The two cases of a union with branches, on [union_schema]. *)
Example walk_union_first_non_null :
  extract_field_paths
    (RecordSchema "U"
       [ mkField "note" (UnionSchema [ null_schema; string_schema; int_schema ]) None ])
    "" [] true
  = Some [ Info (mkInfo "note" "string" None true (LogicalType None)) ].
Proof. reflexivity. Qed.

Example walk_union_all_null :
  extract_field_paths
    (RecordSchema "U" [ mkField "nothing" (UnionSchema [ null_schema ]) None ])
    "" [] true
  = Some [ Info (mkInfo "nothing" "null" None false (LogicalType None)) ].
Proof. reflexivity. Qed.

(* ================================================================== *)
(** * Array Discovery *)
(* ================================================================== *)

Example discover_top_level :
  find_array_fields nested_schema "" [] = [ "a" ].
Proof. reflexivity. Qed.

Example discover_inside_selected :
  find_array_fields nested_schema "" [ "a" ] = [ "a"; "a[].item.b" ].
Proof. reflexivity. Qed.

(** C6.  Array discovery is monotone in the unnest policy: when every
    member of the first policy is a member of the second, every array
    path [find_array_fields] returns under the first policy is returned
    under the second, for every schema and every prefix. *)
Theorem find_array_fields_monotone
    (schema_obj : Schema) (prefix : string) (policy1 policy2 : list string) :
  incl policy1 policy2 ->
  incl (find_array_fields schema_obj prefix policy1)
       (find_array_fields schema_obj prefix policy2).
Proof. apply DiscoveryFacts.find_array_fields_incl. Qed.

Lemma find_array_fields_monotone_witness :
  incl [ "a" ] nested_policy /\
  incl (find_array_fields deep_schema "" [ "a" ])
       (find_array_fields deep_schema "" nested_policy).
Proof.
  assert (H : incl [ "a" ] nested_policy).
  { intros x [<-|[]]. left. reflexivity. }
  split; [exact H|].
  exact (find_array_fields_monotone deep_schema "" [ "a" ] nested_policy H).
Defined.

(* ================================================================== *)
(** * Array descriptors and the unnest policy *)
(* ================================================================== *)

(** C10, counterexample.  The policy may hold a string that ends in
    "[]".  The walker looks for "tags", does not find it, and emits the
    array descriptor "tags[]", which is a member of the policy it was
    produced under. *)
Lemma array_leaf_in_policy :
  extract_field_paths
    (RecordSchema "R" [ mkField "tags" (ArraySchema string_schema) None ])
    "" [ "tags[]" ] true
  = Some [ Info (mkInfo "tags[]" "array" None false NoExtra) ] /\
  Str.mem "tags[]" [ "tags[]" ] = true.
Proof. split; reflexivity. Qed.

(** C10, as amended.  Every array descriptor the walker emits has a path
    that is the name of the array field followed by "[]";
    [find_array_fields] reports that field, under the same policy, under
    the name without the suffix; and that name is not a member of the
    policy.  The emitted path itself is not a member of the policy
    whenever no member of the policy ends in "[]". *)
Theorem array_leaf_path_suffix
    (schema_obj : Schema) (prefix : string) (array_paths : list string)
    (items : list PathItem) (i : PathInfo) :
  extract_field_paths schema_obj prefix array_paths true = Some items ->
  In (Info i) items ->
  field_type i = "array" ->
  exists full_name,
    path i = full_name ++ "[]" /\
    In full_name (find_array_fields schema_obj prefix array_paths) /\
    ~ In full_name array_paths /\
    ((forall q, In q array_paths -> Str.endswith q "[]" = false) ->
     ~ In (path i) array_paths).
Proof.
  intros Hwalk Hin Harr.
  destruct (LeafFacts.array_leaf_known_all schema_obj _ _ _ _ _ Hwalk Hin Harr)
    as [full_name [Hpath [Hfound Hmem]]].
  exists full_name. repeat split; [exact Hpath|exact Hfound| |].
  - intro H. apply WalkerFacts.mem_In in H. rewrite H in Hmem. discriminate Hmem.
  - intros Hpolicy H. apply Hpolicy in H.
    rewrite Hpath, LeafFacts.endswith_append in H. discriminate H.
Qed.

Lemma array_leaf_path_suffix_witness :
  extract_field_paths nested_schema "" [ "a" ] true
  = Some [ leaf "id" "string"; leaf "a[].item.k" "string";
           Info (mkInfo "a[].item.b[]" "array" None false NoExtra) ] /\
  exists full_name,
    "a[].item.b[]" = full_name ++ "[]" /\
    In full_name (find_array_fields nested_schema "" [ "a" ]) /\
    ~ In full_name [ "a" ] /\
    ((forall q, In q [ "a" ] -> Str.endswith q "[]" = false) ->
     ~ In "a[].item.b[]" [ "a" ]).
Proof.
  split; [reflexivity|].
  apply (array_leaf_path_suffix nested_schema "" [ "a" ]
           [ leaf "id" "string"; leaf "a[].item.k" "string";
             Info (mkInfo "a[].item.b[]" "array" None false NoExtra) ]
           (mkInfo "a[].item.b[]" "array" None false NoExtra)).
  - reflexivity.
  - right. right. left. reflexivity.
  - reflexivity.
Defined.

(* ================================================================== *)
(** * The Table Partitioner on nested arrays *)
(* ================================================================== *)

Example partition_order :
  build_table_hierarchy [ "items" ]
    [ leaf "order_id" "string"; leaf "items[].item.sku" "string";
      leaf "items[].item.qty" "int" ]
  = mkTables [ leaf "order_id" "string" ]
      [ ("items", [ leaf "items[].item.sku" "string"; leaf "items[].item.qty" "int" ]) ].
Proof. reflexivity. Qed.

(** C1, at the failing input.  With the arrays "a" and "a[].item.b"
    selected in that order, the longest selected array above the
    descriptor "a[].item.b[].item.x" is "a[].item.b", yet the first loop
    of [build_table_hierarchy] puts the descriptor into the table of
    "a", the first selected array it falls under, and it stays there
    when the second loop adds it to the table of "a[].item.b". *)
Theorem nested_leaf_in_outer_table :
  extract_field_paths nested_schema "" nested_policy true = Some nested_leaves /\
  spec_group nested_policy "a[].item.b[].item.x" = Some "a[].item.b" /\
  build_table_hierarchy nested_policy nested_leaves =
  mkTables
    [ leaf "id" "string" ]
    [ ("a", [ leaf "a[].item.k" "string"; leaf "a[].item.b[].item.x" "int" ]);
      ("a[].item.b", [ leaf "a[].item.b[].item.x" "int" ]) ].
Proof. repeat split. Qed.

(** C2, at the failing input.  With three levels of selected arrays the
    descriptor of the innermost field is in the tables of all three
    arrays, and twice in the table of the innermost one: its path occurs
    four times in the partition instead of once. *)
Theorem nested_leaf_duplicated :
  extract_field_paths deep_schema "" deep_policy true = Some deep_leaves /\
  build_table_hierarchy deep_policy deep_leaves =
  mkTables
    [ leaf "id" "string" ]
    [ ("a", [ leaf "a[].item.k" "string"; leaf "a[].item.b[].item.m" "string";
              leaf "a[].item.b[].item.c[].item.x" "int" ]);
      ("a[].item.b", [ leaf "a[].item.b[].item.m" "string";
                       leaf "a[].item.b[].item.c[].item.x" "int" ]);
      ("a[].item.b[].item.c", [ leaf "a[].item.b[].item.c[].item.x" "int";
                                leaf "a[].item.b[].item.c[].item.x" "int" ]) ] /\
  occurrences (build_table_hierarchy deep_policy deep_leaves)
    "a[].item.b[].item.c[].item.x" = 4.
Proof. repeat split. Qed.

(* ================================================================== *)
(** * Generate DDL: foreign keys and natural keys *)
(* ================================================================== *)

Example generate_order_ddl :
  generate_ddl "order" [ ("run_id", "STRING") ] [ "items" ]
    [ leaf "order_id" "string" ]
    [ ("items", [ leaf "items[].item.sku" "string"; leaf "items[].item.qty" "int" ]) ]
    (Some "order_id") [ ("items", "items[].item.sku") ] []
  = Some
      ("CREATE TABLE order (" ++ newline ++
       "  run_id STRING," ++ newline ++
       "  order_id VARCHAR(255)" ++ newline ++ ")",
       [ ("order_items",
          "CREATE TABLE order_items (" ++ newline ++
          "  run_id STRING," ++ newline ++
          "  order_id VARCHAR(255) COMMENT 'Foreign key to order'," ++ newline ++
          "  items_sku VARCHAR(255) COMMENT 'Natural key for this array'," ++ newline ++
          "  items_qty INT" ++ newline ++ ")") ]).
Proof. reflexivity. Qed.

(** Nothing selected: the array stays in the root table as a JSON
    column, and there is no child table. *)
Example generate_order_ddl_unselected :
  extract_field_paths order_schema "" [] true =
    Some [ leaf "order_id" "string";
           Info (mkInfo "items[]" "array" None false NoExtra) ] /\
  generate_ddl "order" [] []
    [ leaf "order_id" "string"; Info (mkInfo "items[]" "array" None false NoExtra) ]
    [] (Some "order_id") [] []
  = Some
      ("CREATE TABLE order (" ++ newline ++
       "  order_id VARCHAR(255)," ++ newline ++
       "  items_json STRING" ++ newline ++ ")",
       []).
Proof. split; reflexivity. Qed.

(** Nested arrays: the column of the inner field [x] is in the table of
    the outer array as well as in the table of the inner one. *)
Example generate_nested_ddl :
  generate_ddl "orders" [] nested_policy (root_table nested_tables)
    (array_tables nested_tables) (Some "id") nested_keys []
  = Some
      ("CREATE TABLE orders (" ++ newline ++
       "  id VARCHAR(255)" ++ newline ++ ")",
       [ ("orders_a",
          "CREATE TABLE orders_a (" ++ newline ++
          "  id VARCHAR(255) COMMENT 'Foreign key to orders'," ++ newline ++
          "  a_k VARCHAR(255) COMMENT 'Natural key for this array'," ++ newline ++
          "  a_b_x INT" ++ newline ++ ")");
         ("orders_a_b",
          "CREATE TABLE orders_a_b (" ++ newline ++
          "  a_k VARCHAR(255) COMMENT 'Foreign key to orders_a'," ++ newline ++
          "  a_b_x INT COMMENT 'Natural key for this array'" ++ newline ++ ")") ]).
Proof. reflexivity. Qed.

(** C3, counterexample.  The array "a[].item.b" lies inside the selected
    array "a", which has a natural key, and the caller chose the key of
    the root table for it.  The foreign key that is emitted is the key
    of the table of "a", not the key of the root table. *)
Lemma explicit_root_choice_overridden :
  immediate_parent nested_policy "a[].item.b" = (true, Some "a") /\
  Dict.get "a[].item.b" root_choice = Some (mkRelation "root" "Root table's key") /\
  foreign_key_column "orders" nested_policy (root_table nested_tables)
    (array_tables nested_tables) (Some "id") nested_keys root_choice "a[].item.b"
  = Some (mkColumn "a_k" "VARCHAR(255)" (Some "Foreign key to orders_a")) /\
  root_fk "orders" (root_table nested_tables) (Some "id")
  = Some (mkColumn "id" "VARCHAR(255)" (Some "Foreign key to orders")).
Proof. repeat split. Qed.

(** C3, as amended.  For an array table with an enclosing selected
    array [p] and an explicit choice of the root table's key: the
    foreign key is the key of the root table when [p] has no natural
    key, and it is the key of the table of [p], in spite of the choice,
    when [p] has one (the check for a nested array takes precedence). *)
Theorem explicit_root_choice_binding
    (root_table_name : string) (selected_arrays : list string)
    (root_fields : list PathItem) (tables : Dict.t (list PathItem))
    (natural_key : option string) (array_natural_keys : Dict.t string)
    (parent_child_relations : Dict.t Relation)
    (array_path p : string) (relation : Relation) :
  immediate_parent selected_arrays array_path = (true, Some p) ->
  String.eqb p "" = false ->
  Dict.get array_path parent_child_relations = Some relation ->
  choice relation = "Root table's key" ->
  foreign_key_column root_table_name selected_arrays root_fields tables natural_key
    array_natural_keys parent_child_relations array_path =
  if Dict.contains p array_natural_keys
  then parent_array_fk root_table_name tables array_natural_keys p
  else root_fk root_table_name root_fields natural_key.
Proof.
  intros Hparent Hp Hrel Hchoice. unfold foreign_key_column.
  rewrite Hparent, Hrel, Hchoice. unfold truthy. rewrite Hp.
  destruct (Dict.contains p array_natural_keys); reflexivity.
Qed.

Lemma explicit_root_choice_binding_witness :
  (immediate_parent nested_policy "a[].item.b" = (true, Some "a") /\
   Dict.contains "a" inner_key_only = false) /\
  foreign_key_column "orders" nested_policy (root_table nested_tables)
    (array_tables nested_tables) (Some "id") inner_key_only root_choice "a[].item.b"
  = root_fk "orders" (root_table nested_tables) (Some "id").
Proof.
  split; [split; reflexivity|].
  exact (explicit_root_choice_binding "orders" nested_policy (root_table nested_tables)
           (array_tables nested_tables) (Some "id") inner_key_only root_choice
           "a[].item.b" "a" (mkRelation "root" "Root table's key")
           eq_refl eq_refl eq_refl eq_refl).
Defined.

(** C4.  Take the tables of [build_table_hierarchy] and natural keys
    chosen for array tables.  The handler raises nothing, and the table
    of every array has a foreign-key column, right after the common
    columns.  When the natural key of the table that column refers to
    (an array table, or the root table) has no descriptor in that table,
    the column has the type VARCHAR(255). *)
Theorem stale_key_fallback
    (root_table_name : string) (common_fields_list : list (string * string))
    (selected_arrays : list string) (paths : list PathItem)
    (natural_key : option string) (array_natural_keys : Dict.t string)
    (parent_child_relations : Dict.t Relation) :
  let ts := build_table_hierarchy selected_arrays paths in
  keys_have_tables array_natural_keys (array_tables ts) = true ->
  (exists ddl,
     generate_ddl root_table_name common_fields_list selected_arrays (root_table ts)
       (array_tables ts) natural_key array_natural_keys parent_child_relations
     = Some ddl) /\
  (forall array_path fields, exists column key data,
     foreign_key_column root_table_name selected_arrays (root_table ts)
       (array_tables ts) natural_key array_natural_keys parent_child_relations
       array_path = Some column /\
     array_table root_table_name common_fields_list selected_arrays (root_table ts)
       (array_tables ts) natural_key array_natural_keys parent_child_relations
       array_path fields =
     Some (root_table_name ++ "_" ++ get_column_name array_path,
           (common_columns common_fields_list ++ [ column ] ++ key ++ data)%list) /\
     match fk_binding selected_arrays array_natural_keys parent_child_relations
             array_path with
     | Some p =>
         forall parent_key parent_fields,
           Dict.get p array_natural_keys = Some parent_key ->
           Dict.get p (array_tables ts) = Some parent_fields ->
           find_field parent_fields (Some parent_key) = None ->
           col_type column = "VARCHAR(255)"
     | None =>
         find_field (root_table ts) natural_key = None ->
         col_type column = "VARCHAR(255)"
     end).
Proof.
  intros ts Hkeys.
  assert (Htable : forall p, Dict.contains p array_natural_keys = true ->
                             Dict.contains p (array_tables ts) = true).
  { intros p Hp. unfold keys_have_tables in Hkeys.
    rewrite forallb_forall in Hkeys. apply Hkeys, DictFacts.contains_keys, Hp. }
  assert (Hfk : forall array_path, exists column,
     foreign_key_column root_table_name selected_arrays (root_table ts)
       (array_tables ts) natural_key array_natural_keys parent_child_relations
       array_path = Some column /\
     match fk_binding selected_arrays array_natural_keys parent_child_relations
             array_path with
     | Some p =>
         forall parent_key parent_fields,
           Dict.get p array_natural_keys = Some parent_key ->
           Dict.get p (array_tables ts) = Some parent_fields ->
           find_field parent_fields (Some parent_key) = None ->
           col_type column = "VARCHAR(255)"
     | None =>
         find_field (root_table ts) natural_key = None ->
         col_type column = "VARCHAR(255)"
     end).
  { intro array_path. rewrite DDLFacts.foreign_key_column_binding.
    destruct (fk_binding selected_arrays array_natural_keys parent_child_relations
                array_path) as [p|] eqn:Hb.
    - pose proof (DDLFacts.fk_binding_parent _ _ _ _ _ Hb) as Hp.
      destruct (DDLFacts.parent_array_fk_total root_table_name (array_tables ts)
                  array_natural_keys p Hp (Htable p Hp)) as [column Hcol].
      exists column. split; [exact Hcol|].
      intros key fields Hk Ht Hf.
      destruct (DDLFacts.parent_array_fk_stale root_table_name (array_tables ts)
                  array_natural_keys p key fields Hk Ht Hf) as [column' [E Hty]].
      congruence.
    - destruct (DDLFacts.root_fk_total root_table_name (root_table ts) natural_key)
        as [column Hcol].
      exists column. split; [exact Hcol|].
      intro Hf.
      destruct (DDLFacts.root_fk_stale root_table_name (root_table ts) natural_key Hf)
        as [column' [E Hty]].
      congruence. }
  split.
  - unfold generate_ddl.
    destruct (DDLFacts.root_table_columns_total common_fields_list (root_table ts))
      as [root_columns ->].
    cbn [bind].
    assert (Hall : exists ddls,
              array_ddls root_table_name common_fields_list selected_arrays
                (root_table ts) (array_tables ts) natural_key array_natural_keys
                parent_child_relations = Some ddls).
    { unfold array_ddls.
      apply (DictFacts.fold_left_invariant
               (fun acc : option (Dict.t string) => exists ddls, acc = Some ddls)).
      - intros acc entry [ddls ->]. cbn [bind].
        destruct (Hfk (fst entry)) as [column [Hcol _]].
        destruct (DDLFacts.array_table_total root_table_name common_fields_list
                    selected_arrays (root_table ts) (array_tables ts) natural_key
                    array_natural_keys parent_child_relations (fst entry) (snd entry)
                    (ex_intro _ column Hcol)) as [t ->].
        cbn [bind]. eauto.
      - eauto. }
    destruct Hall as [ddls ->]. cbn [bind]. eauto.
  - intros array_path fields.
    destruct (Hfk array_path) as [column [Hcol Hstale]].
    destruct (DDLFacts.natural_key_columns_total array_natural_keys array_path fields)
      as [key Hkey].
    destruct (DDLFacts.for_each_total (data_column array_path)
                (data_fields array_natural_keys array_path fields)
                (DDLFacts.data_column_total array_path)) as [data Hdata].
    exists column, key, data. split; [exact Hcol|]. split; [|exact Hstale].
    unfold array_table. rewrite Hcol. cbn [bind]. rewrite Hkey. cbn [bind].
    rewrite Hdata. reflexivity.
Qed.

Lemma stale_key_fallback_witness :
  keys_have_tables stale_keys (array_tables nested_tables) = true /\
  fk_binding nested_policy stale_keys [] "a[].item.b" = Some "a" /\
  find_field [ leaf "a[].item.k" "string"; leaf "a[].item.b[].item.x" "int" ]
    (Some "a[].item.gone") = None /\
  exists column,
    foreign_key_column "orders" nested_policy (root_table nested_tables)
      (array_tables nested_tables) (Some "id") stale_keys [] "a[].item.b"
    = Some column /\
    col_type column = "VARCHAR(255)".
Proof.
  split; [reflexivity|]. split; [reflexivity|]. split; [reflexivity|].
  destruct (proj2 (stale_key_fallback "orders" [] nested_policy nested_leaves
                     (Some "id") stale_keys [] eq_refl) "a[].item.b" [])
    as [column [key [data [Hcol [_ Hstale]]]]].
  exists column. split; [exact Hcol|].
  exact (Hstale "a[].item.gone"
           [ leaf "a[].item.k" "string"; leaf "a[].item.b[].item.x" "int" ]
           eq_refl eq_refl eq_refl).
Defined.

Module KeyFacts.

(** A key offered by the select box is the path of a descriptor of the
    table. *)
Lemma field_options_in array_path fields key :
  In key (List.map fst (field_options array_path fields)) ->
  exists i, In (Info i) fields /\ path i = key.
Proof.
  unfold field_options. intro H.
  apply in_map_iff in H. destruct H as [[p shown] [Hfst Hin]]. simpl in Hfst. subst p.
  apply in_flat_map in Hin. destruct Hin as [[s|i] [Hitem Hopt]]; [contradiction|].
  destruct (String.eqb (field_type i) "array" || String.eqb (field_type i) "record");
    [contradiction|].
  destruct Hopt as [E|[]]. injection E as E _. eauto.
Qed.

Lemma data_fields_in array_natural_keys array_path fields i :
  In i (data_fields array_natural_keys array_path fields) <->
  In (Info i) fields /\ is_key_field array_natural_keys array_path i = false.
Proof.
  unfold data_fields. rewrite in_flat_map. split.
  - intros [[s|j] [Hitem Hin]]; [contradiction|].
    destruct (is_key_field array_natural_keys array_path j) eqn:E; [contradiction|].
    destruct Hin as [->|[]]. split; assumption.
  - intros [Hitem E]. exists (Info i). split; [exact Hitem|].
    rewrite E. left. reflexivity.
Qed.

End KeyFacts.

(** The natural-key column and the data columns of an array table whose
    natural key was chosen among the fields its select box offers: the
    key has a descriptor in the table; the table gets exactly one
    natural-key column, made from that descriptor; the data columns are
    made from the descriptors of the table whose path is not the key,
    and from all of them.  So the key is a natural-key column once and
    never a data column.  Nothing is said here about the foreign-key
    column, which is made from the key of the parent table. *)
Theorem natural_key_emitted_once
    (root_table_name : string) (common_fields_list : list (string * string))
    (selected_arrays : list string) (root_fields : list PathItem)
    (tables : Dict.t (list PathItem)) (natural_key : option string)
    (array_natural_keys : Dict.t string) (parent_child_relations : Dict.t Relation)
    (array_path : string) (fields : list PathItem) (key : string) :
  Dict.get array_path array_natural_keys = Some key ->
  In key (List.map fst (field_options array_path fields)) ->
  let emitted := data_fields array_natural_keys array_path fields in
  exists key_info hive_type data,
    find_field fields (Some key) = Some key_info /\
    path key_info = key /\
    avro_to_hive_type key_info = Some hive_type /\
    natural_key_columns array_natural_keys array_path fields =
      Some [ mkColumn (get_column_name (Str.replace key (array_path ++ ".") ""))
               hive_type (Some "Natural key for this array") ] /\
    for_each (data_column array_path) emitted = Some data /\
    (forall i, In i emitted <-> In (Info i) fields /\ path i <> key) /\
    array_table root_table_name common_fields_list selected_arrays root_fields tables
      natural_key array_natural_keys parent_child_relations array_path fields =
    (fk <- foreign_key_column root_table_name selected_arrays root_fields tables
             natural_key array_natural_keys parent_child_relations array_path ;;
     Some (root_table_name ++ "_" ++ get_column_name array_path,
           (common_columns common_fields_list ++ [ fk ] ++
            [ mkColumn (get_column_name (Str.replace key (array_path ++ ".") ""))
                hive_type (Some "Natural key for this array") ] ++ data)%list)).
Proof.
  intros Hkey Hoffered emitted.
  destruct (KeyFacts.field_options_in _ _ _ Hoffered) as [i [Hi Hpath]].
  destruct (DDLFacts.find_field_found fields key i Hi Hpath) as [key_info Hfind].
  destruct (DDLFacts.find_field_path _ _ _ Hfind) as [Hinfo _].
  destruct (DDLFacts.avro_to_hive_type_total key_info) as [hive_type Hty].
  destruct (DDLFacts.for_each_total (data_column array_path) emitted
              (DDLFacts.data_column_total array_path)) as [data Hdata].
  assert (Hcols : natural_key_columns array_natural_keys array_path fields =
      Some [ mkColumn (get_column_name (Str.replace key (array_path ++ ".") ""))
               hive_type (Some "Natural key for this array") ]).
  { unfold natural_key_columns. rewrite Hkey, Hfind, Hty. reflexivity. }
  exists key_info, hive_type, data.
  split; [exact Hfind|]. split; [exact Hinfo|]. split; [exact Hty|].
  split; [exact Hcols|]. split; [exact Hdata|]. split.
  - intro j. unfold emitted. rewrite KeyFacts.data_fields_in.
    unfold is_key_field. rewrite Hkey. rewrite String.eqb_neq. reflexivity.
  - unfold array_table. rewrite Hcols. fold emitted. rewrite Hdata.
    destruct (foreign_key_column root_table_name selected_arrays root_fields tables
                natural_key array_natural_keys parent_child_relations array_path);
      reflexivity.
Qed.

Lemma natural_key_emitted_once_witness :
  (Dict.get "a[].item.b" nested_keys = Some "a[].item.b[].item.x" /\
   List.map fst (field_options "a[].item.b"
                   [ leaf "a[].item.b[].item.x" "int"; leaf "a[].item.b[].item.y" "long" ])
   = [ "a[].item.b[].item.x"; "a[].item.b[].item.y" ]) /\
  exists key_info hive_type data,
    find_field [ leaf "a[].item.b[].item.x" "int"; leaf "a[].item.b[].item.y" "long" ]
      (Some "a[].item.b[].item.x") = Some key_info /\
    path key_info = "a[].item.b[].item.x" /\
    avro_to_hive_type key_info = Some hive_type /\
    natural_key_columns nested_keys "a[].item.b"
      [ leaf "a[].item.b[].item.x" "int"; leaf "a[].item.b[].item.y" "long" ] =
      Some [ mkColumn "a_b_x" hive_type (Some "Natural key for this array") ] /\
    for_each (data_column "a[].item.b")
      (data_fields nested_keys "a[].item.b"
         [ leaf "a[].item.b[].item.x" "int"; leaf "a[].item.b[].item.y" "long" ])
      = Some data.
Proof.
  split; [split; reflexivity|].
  destruct (natural_key_emitted_once "orders" [] nested_policy
              (root_table nested_tables) (array_tables nested_tables) (Some "id")
              nested_keys [] "a[].item.b"
              [ leaf "a[].item.b[].item.x" "int"; leaf "a[].item.b[].item.y" "long" ]
              "a[].item.b[].item.x" eq_refl (or_introl eq_refl))
    as [key_info [hive_type [data [H1 [H2 [H3 [H4 [H5 _]]]]]]]].
  exists key_info, hive_type, data. repeat split; assumption.
Defined.

(** C7.  The nested arrays with both arrays selected.  The table of "a"
    also holds the leaf "a[].item.b[].item.x" of the inner array, so the
    select box of "a" offers it.  With that leaf selected as the key of
    both tables, the table of the inner array gets the column a_b_x
    twice: as foreign key to orders_a (lines 584-595) and as natural key
    (lines 647-652).  The key's leaf is therefore not emitted exactly
    once in the statement of its table. *)
Theorem key_leaf_emitted_twice :
  extract_field_paths nested_schema "" nested_policy true = Some nested_leaves /\
  array_tables nested_tables =
    [ ("a", [ leaf "a[].item.k" "string"; leaf "a[].item.b[].item.x" "int" ]);
      ("a[].item.b", [ leaf "a[].item.b[].item.x" "int" ]) ] /\
  select_keys (prefer "a[].item.b[].item.x") (array_tables nested_tables)
    = Some shared_keys /\
  array_table "orders" [] nested_policy (root_table nested_tables)
    (array_tables nested_tables) (Some "id") shared_keys [] "a[].item.b"
    [ leaf "a[].item.b[].item.x" "int" ]
    = Some ("orders_a_b",
            [ mkColumn "a_b_x" "INT" (Some "Foreign key to orders_a");
              mkColumn "a_b_x" "INT" (Some "Natural key for this array") ]) /\
  ddl_page nested_schema nested_policy (prefer "a[].item.b[].item.x")
    (fun _ => "Root table's key") "orders" []
    = Some
        ("CREATE TABLE orders (" ++ newline ++
         "  id VARCHAR(255)" ++ newline ++ ")",
         [ ("orders_a",
            "CREATE TABLE orders_a (" ++ newline ++
            "  id VARCHAR(255) COMMENT 'Foreign key to orders'," ++ newline ++
            "  a_b_x INT COMMENT 'Natural key for this array'," ++ newline ++
            "  a_k VARCHAR(255)" ++ newline ++ ")");
           ("orders_a_b",
            "CREATE TABLE orders_a_b (" ++ newline ++
            "  a_b_x INT COMMENT 'Foreign key to orders_a'," ++ newline ++
            "  a_b_x INT COMMENT 'Natural key for this array'" ++ newline ++ ")") ]).
Proof. repeat split. Qed.

(* ================================================================== *)
(** * More on the Path Namer *)
(* ================================================================== *)

Module CollisionFacts.

Lemma dot_char_open c : Ascii.eqb (dot_char c) "[" = Ascii.eqb c "[".
Proof. each_char c; reflexivity. Qed.

Lemma dot_char_close c : Ascii.eqb (dot_char c) "]" = Ascii.eqb c "]".
Proof. each_char c; reflexivity. Qed.

Lemma dot_char_newline c : Ascii.eqb (dot_char c) "010" = Ascii.eqb c "010".
Proof. each_char c; reflexivity. Qed.

Lemma dot_char_i c : Ascii.eqb (dot_char c) "i" = Ascii.eqb c "i".
Proof. each_char c; reflexivity. Qed.

Lemma dot_char_t c : Ascii.eqb (dot_char c) "t" = Ascii.eqb c "t".
Proof. each_char c; reflexivity. Qed.

Lemma dot_char_e c : Ascii.eqb (dot_char c) "e" = Ascii.eqb c "e".
Proof. each_char c; reflexivity. Qed.

Lemma dot_char_m c : Ascii.eqb (dot_char c) "m" = Ascii.eqb c "m".
Proof. each_char c; reflexivity. Qed.

Lemma dot_char_lower_digit c : Str.is_lower_digit (dot_char c) = Str.is_lower_digit c.
Proof. each_char c; reflexivity. Qed.

Lemma dot_char_upper c : Str.is_upper (dot_char c) = Str.is_upper c.
Proof. each_char c; reflexivity. Qed.

Lemma dot_char_lower c : Str.lower_char (dot_char c) = dot_char (Str.lower_char c).
Proof. each_char c; reflexivity. Qed.

Lemma dot_char_twice c : dot_char (dot_char c) = dot_char c.
Proof. each_char c; reflexivity. Qed.

Lemma dots_cons c tl :
  dots_to_underscores (String c tl) = String (dot_char c) (dots_to_underscores tl).
Proof. reflexivity. Qed.

Lemma dots_append s t :
  dots_to_underscores (s ++ t) = dots_to_underscores s ++ dots_to_underscores t.
Proof.
  induction s as [|c tl IH]; [reflexivity|].
  change (String c tl ++ t) with (String c (tl ++ t)).
  rewrite !dots_cons, IH. reflexivity.
Qed.

Lemma marker_at_dots x : marker_at (dots_to_underscores x) = marker_at x.
Proof.
  destruct x as [|a [|b [|c [|d [|e [|f [|g r]]]]]]]; try reflexivity.
  rewrite !dots_cons. unfold marker_at.
  rewrite dot_char_open, dot_char_close, dot_char_newline, dot_char_i, dot_char_t,
    dot_char_e, dot_char_m.
  reflexivity.
Qed.

(** The two equations of [remove_array_notation]. *)
Lemma remove_array_notation_match a b c d e f g r :
  marker_at (String a (String b (String c (String d (String e (String f (String g r)))))))
    = true ->
  remove_array_notation
    (String a (String b (String c (String d (String e (String f (String g r)))))))
  = remove_array_notation r.
Proof.
  intro H.
  change (remove_array_notation
            (String a (String b (String c (String d (String e (String f (String g r))))))))
    with (if marker_at (String a (String b (String c (String d (String e (String f (String g r)))))))
          then remove_array_notation r
          else String a (remove_array_notation
                           (String b (String c (String d (String e (String f (String g r)))))))).
  rewrite H. reflexivity.
Qed.

Lemma marker_at_long x :
  marker_at x = true ->
  exists a b c d e f g r,
    x = String a (String b (String c (String d (String e (String f (String g r)))))).
Proof.
  destruct x as [|a [|b [|c [|d [|e [|f [|g r]]]]]]]; try discriminate.
  intros _. repeat eexists.
Qed.

Lemma remove_array_notation_dots x :
  remove_array_notation (dots_to_underscores x)
  = dots_to_underscores (remove_array_notation x).
Proof.
  assert (H : forall n x, String.length x <= n ->
            remove_array_notation (dots_to_underscores x)
            = dots_to_underscores (remove_array_notation x)).
  { induction n as [|n IH]; intros y Hlen.
    - destruct y; [reflexivity|simpl in Hlen; lia].
    - destruct y as [|a tl]; [reflexivity|].
      destruct (marker_at (String a tl)) eqn:M.
      + destruct (marker_at_long _ M) as [a' [b [c [d [e [f [g [r E]]]]]]]].
        injection E as -> ->.
        rewrite (remove_array_notation_match _ _ _ _ _ _ _ _ M).
        pose proof (marker_at_dots
                      (String a' (String b (String c (String d (String e (String f (String g r))))))))
          as Md.
        rewrite M in Md. rewrite !dots_cons in *.
        rewrite (remove_array_notation_match _ _ _ _ _ _ _ _ Md).
        apply IH. cbn [String.length] in Hlen |- *. lia.
      + rewrite (NamerFacts.remove_array_notation_cons _ _ M).
        pose proof (marker_at_dots (String a tl)) as Md. rewrite M in Md.
        rewrite !dots_cons in *.
        rewrite (NamerFacts.remove_array_notation_cons _ _ Md).
        f_equal. apply IH. cbn [String.length] in Hlen |- *. lia. }
  apply (H (String.length x)). apply le_n.
Qed.

Lemma camel_to_snake_step a b rest :
  camel_to_snake (String a (String b rest)) =
  if Str.is_lower_digit a && Str.is_upper b
  then String a (String "_" (String b (camel_to_snake rest)))
  else String a (camel_to_snake (String b rest)).
Proof. reflexivity. Qed.

Lemma camel_to_snake_dots x :
  camel_to_snake (dots_to_underscores x) = dots_to_underscores (camel_to_snake x).
Proof.
  assert (H : forall n x, String.length x <= n ->
            camel_to_snake (dots_to_underscores x)
            = dots_to_underscores (camel_to_snake x)).
  { induction n as [|n IH]; intros y Hlen.
    - destruct y; [reflexivity|simpl in Hlen; lia].
    - destruct y as [|a [|b rest]]; [reflexivity|reflexivity|].
      rewrite !dots_cons, !camel_to_snake_step, dot_char_lower_digit, dot_char_upper.
      destruct (Str.is_lower_digit a && Str.is_upper b).
      + rewrite !dots_cons. do 3 f_equal. apply IH. cbn [String.length] in Hlen |- *. lia.
      + rewrite dots_cons. f_equal. rewrite <- dots_cons.
        apply IH. cbn [String.length] in Hlen |- *. lia. }
  apply (H (String.length x)). apply le_n.
Qed.

Lemma lower_dots x :
  Str.lower (dots_to_underscores x) = dots_to_underscores (Str.lower x).
Proof.
  induction x as [|c tl IH]; [reflexivity|].
  rewrite dots_cons. unfold Str.lower in *. simpl Str.map.
  rewrite dots_cons, dot_char_lower, IH. reflexivity.
Qed.

Lemma dots_twice x : dots_to_underscores (dots_to_underscores x) = dots_to_underscores x.
Proof.
  induction x as [|c tl IH]; [reflexivity|].
  rewrite !dots_cons, dot_char_twice, IH. reflexivity.
Qed.

(** The namer does not see whether a separator is a dot or an
    underscore. *)
Lemma get_column_name_dots x :
  get_column_name (dots_to_underscores x) = get_column_name x.
Proof.
  unfold get_column_name.
  rewrite remove_array_notation_dots, camel_to_snake_dots, lower_dots, dots_twice.
  reflexivity.
Qed.

End CollisionFacts.

(** X1.  Two paths that differ only in a separator, a dot in one and an
    underscore in the other, have the same column name: the nested
    field "a.b" and the flat field "a_b" collide. *)
Theorem dot_underscore_collision (s t : string) :
  get_column_name (s ++ "." ++ t) = get_column_name (s ++ "_" ++ t).
Proof.
  rewrite <- (CollisionFacts.get_column_name_dots (s ++ "." ++ t)).
  rewrite <- (CollisionFacts.get_column_name_dots (s ++ "_" ++ t)).
  rewrite !CollisionFacts.dots_append. reflexivity.
Qed.

(** X2.  The strings the namer leaves unchanged are exactly the strings
    made of characters of [[a-z0-9_]]. *)
Theorem get_column_name_fixed_points (s : string) :
  get_column_name s = s <-> matches_ident_star s = true.
Proof.
  split.
  - intro H. rewrite <- H. apply NamerFacts.get_column_name_ident.
  - apply NamerFacts.get_column_name_fixpoint.
Qed.

(* ================================================================== *)
(** * The Table Partitioner in full *)
(* ================================================================== *)

Module TableFacts.
Import DictFacts PartitionFacts.

Lemma get_set {V} k k' (v : V) d :
  Dict.get k (Dict.set k' v d) = if String.eqb k k' then Some v else Dict.get k d.
Proof.
  destruct (String.eqb k k') eqn:E.
  - apply String.eqb_eq in E. subst. apply get_set_same.
  - apply String.eqb_neq in E. apply get_set_other, E.
Qed.

Lemma get_default_ensure k k' (tables : Dict.t (list PathItem)) :
  Dict.get_default k [] (ensure_table k' tables) = Dict.get_default k [] tables.
Proof.
  unfold ensure_table, Dict.get_default.
  destruct (Dict.contains k' tables) eqn:E; [reflexivity|].
  rewrite get_set. destruct (String.eqb k k') eqn:K; [|reflexivity].
  apply String.eqb_eq in K. subst k'.
  unfold Dict.contains in E. destruct (Dict.get k tables); [discriminate E|reflexivity].
Qed.

(** Appending to a table changes that table only. *)
Lemma get_default_append k k' x tables :
  Dict.get_default k [] (append_to_table k' x tables) =
  (Dict.get_default k [] tables ++ if String.eqb k k' then [x] else [])%list.
Proof.
  unfold append_to_table.
  pose proof (get_default_ensure k k' tables) as Hk.
  pose proof (get_default_ensure k' k' tables) as Hk'.
  unfold Dict.get_default in *. rewrite get_set.
  destruct (String.eqb k k') eqn:E.
  - apply String.eqb_eq in E. subst k'. rewrite Hk'. reflexivity.
  - rewrite Hk, app_nil_r. reflexivity.
Qed.

(** ** The first loop *)

Lemma first_loop_fold selected l :
  forall root_fields tables,
    fst (fold_left (assign_path selected) l (root_fields, tables))
      = (root_fields ++ root_items selected l)%list /\
    forall k,
      Dict.get_default k []
        (snd (fold_left (assign_path selected) l (root_fields, tables)))
      = (Dict.get_default k [] tables ++ first_match_items selected k l)%list.
Proof.
  induction l as [|x l IH]; intros root_fields tables.
  - simpl. rewrite app_nil_r. split; [reflexivity|].
    intro k. rewrite app_nil_r. reflexivity.
  - change (fold_left (assign_path selected) (x :: l) (root_fields, tables))
      with (fold_left (assign_path selected) l
              (assign_path selected (root_fields, tables) x)).
    destruct x as [s|i].
    + apply (IH root_fields tables).
    + assert (Hstep : assign_path selected (root_fields, tables) (Info i) =
                      match find (under_array (path i)) selected with
                      | Some a => (root_fields, append_to_table a (Info i) tables)
                      | None => ((root_fields ++ [Info i])%list, tables)
                      end) by reflexivity.
      rewrite Hstep. clear Hstep.
      unfold root_items, first_match_items. cbn [List.filter].
      destruct (find (under_array (path i)) selected) as [a|] eqn:F.
      * assert (Hex : existsb (under_array (path i)) selected = true).
        { apply existsb_exists. exists a. apply (find_some _ _ F). }
        rewrite Hex. cbn [negb].
        destruct (IH root_fields (append_to_table a (Info i) tables)) as [H1 H2].
        split; [exact H1|].
        intro k. rewrite H2, get_default_append, <- app_assoc.
        rewrite (String.eqb_sym a k).
        destruct (String.eqb k a); reflexivity.
      * assert (Hex : existsb (under_array (path i)) selected = false).
        { destruct (existsb (under_array (path i)) selected) eqn:E; [|reflexivity].
          apply existsb_exists in E. destruct E as [a [Ha Hu]].
          pose proof (find_none _ _ F a Ha) as Hn. congruence. }
        rewrite Hex. cbn [negb].
        destruct (IH (root_fields ++ [Info i])%list tables) as [H1 H2].
        split; [rewrite H1, <- app_assoc; reflexivity|exact H2].
Qed.

(** ** The second loop *)

Lemma collect_nested_get k paths nested tables :
  Dict.get_default k [] (collect_nested paths nested tables) =
  (Dict.get_default k [] tables ++
   if String.eqb nested k then under_items nested paths else [])%list.
Proof.
  unfold collect_nested, under_items.
  revert tables. induction paths as [|x l IH]; intro tables.
  - simpl. destruct (String.eqb nested k); rewrite app_nil_r; reflexivity.
  - cbn [fold_left List.filter]. destruct x as [s|i]; [apply IH|].
    destruct (under_array (path i) nested); [|apply IH].
    rewrite IH, get_default_append, (String.eqb_sym k nested).
    destruct (String.eqb nested k); rewrite <- app_assoc; reflexivity.
Qed.

Lemma handle_nested_get k selected paths tables array_path :
  Dict.get_default k [] (handle_nested selected paths tables array_path) =
  (Dict.get_default k [] tables ++
   flat_map
     (fun nested_array =>
        if under_array nested_array array_path
           && negb (String.eqb nested_array array_path)
           && String.eqb nested_array k
        then under_items k paths
        else [])
     selected)%list.
Proof.
  unfold handle_nested.
  rewrite <- (get_default_ensure k array_path tables).
  generalize (ensure_table array_path tables) as t.
  induction selected as [|n l IH]; intro t.
  - simpl. rewrite app_nil_r. reflexivity.
  - cbn [fold_left flat_map].
    destruct (under_array n array_path && negb (String.eqb n array_path)) eqn:E.
    + rewrite IH, collect_nested_get, <- app_assoc. cbn [andb].
      destruct (String.eqb n k) eqn:K; [|reflexivity].
      apply String.eqb_eq in K. subst n. reflexivity.
    + rewrite IH. reflexivity.
Qed.

Lemma second_loop_get k selected paths l :
  forall tables,
    Dict.get_default k [] (fold_left (handle_nested selected paths) l tables) =
    (Dict.get_default k [] tables ++
     flat_map
       (fun array_path =>
          flat_map
            (fun nested_array =>
               if under_array nested_array array_path
                  && negb (String.eqb nested_array array_path)
                  && String.eqb nested_array k
               then under_items k paths
               else [])
            selected)
       l)%list.
Proof.
  induction l as [|a l IH]; intro tables.
  - simpl. rewrite app_nil_r. reflexivity.
  - cbn [fold_left flat_map]. rewrite IH, handle_nested_get, <- app_assoc.
    reflexivity.
Qed.

(** ** The keys of the tables *)

Lemma contains_set_inv {V} k k' (v : V) d :
  Dict.contains k (Dict.set k' v d) = true -> k = k' \/ Dict.contains k d = true.
Proof.
  unfold Dict.contains. rewrite get_set.
  destruct (String.eqb k k') eqn:E.
  - apply String.eqb_eq in E. left. exact E.
  - right. assumption.
Qed.

Lemma contains_append_inv k k' x tables :
  Dict.contains k (append_to_table k' x tables) = true ->
  k = k' \/ Dict.contains k tables = true.
Proof.
  unfold append_to_table. intro H. apply contains_set_inv in H.
  destruct H as [H|H]; [left; exact H|].
  unfold ensure_table in H. destruct (Dict.contains k' tables); [right; exact H|].
  apply contains_set_inv in H. exact H.
Qed.

Lemma contains_ensure_inv k k' (tables : Dict.t (list PathItem)) :
  Dict.contains k (ensure_table k' tables) = true ->
  k = k' \/ Dict.contains k tables = true.
Proof.
  unfold ensure_table. destruct (Dict.contains k' tables); [right; assumption|].
  apply contains_set_inv.
Qed.

(** Only selected arrays get a table. *)
Lemma table_is_selected selected paths k :
  Dict.contains k (array_tables (build_table_hierarchy selected paths)) = true ->
  In k selected.
Proof.
  unfold build_table_hierarchy.
  assert (H1 : forall l st,
            (Dict.contains k (snd st) = true -> In k selected) ->
            Dict.contains k (snd (fold_left (assign_path selected) l st)) = true ->
            In k selected).
  { induction l as [|x l IH]; intros st Hst; [exact Hst|].
    simpl. apply IH. destruct st as [r t]. destruct x as [s|i]; [exact Hst|].
    simpl. destruct (find (under_array (path i)) selected) as [a|] eqn:F;
      [|exact Hst].
    simpl. intro H. apply contains_append_inv in H. destruct H as [->|H].
    - apply (find_some _ _ F).
    - apply Hst, H. }
  specialize (H1 paths ([], [])).
  destruct (fold_left (assign_path selected) paths ([], [])) as [root_fields tables].
  simpl in *.
  assert (H0 : Dict.contains k tables = true -> In k selected)
    by (apply H1; discriminate).
  clear H1.
  assert (H2 : forall l t,
            incl l selected ->
            (Dict.contains k t = true -> In k selected) ->
            Dict.contains k (fold_left (handle_nested selected paths) l t) = true ->
            In k selected).
  { induction l as [|a l IH]; intros t Hl Ht; [exact Ht|].
    simpl. apply IH; [intros y Hy; apply Hl; right; exact Hy|].
    unfold handle_nested.
    assert (H3 : forall l' t',
              incl l' selected ->
              (Dict.contains k t' = true -> In k selected) ->
              Dict.contains k
                (fold_left
                   (fun tables nested_array =>
                      if under_array nested_array a
                         && negb (String.eqb nested_array a)
                      then collect_nested paths nested_array tables
                      else tables) l' t') = true ->
              In k selected).
    { induction l' as [|n l' IH']; intros t' Hl' Ht'; [exact Ht'|].
      simpl. apply IH'; [intros y Hy; apply Hl'; right; exact Hy|].
      destruct (under_array n a && negb (String.eqb n a)); [|exact Ht'].
      unfold collect_nested.
      apply (fold_left_invariant
               (fun t'' => Dict.contains k t'' = true -> In k selected));
        [|exact Ht'].
      intros acc [s|i] Hacc; [exact Hacc|].
      destruct (under_array (path i) n); [|exact Hacc].
      intro H. apply contains_append_inv in H. destruct H as [->|H].
      - apply Hl'. left. reflexivity.
      - apply Hacc, H. }
    apply H3; [apply incl_refl|].
    intro H. apply contains_ensure_inv in H. destruct H as [->|H].
    - apply Hl. left. reflexivity.
    - apply Ht, H. }
  apply H2; [apply incl_refl|exact H0].
Qed.

(** ** The keys of a dictionary are distinct *)

Lemma keys_get {V} k (d : Dict.t V) :
  In k (Dict.keys d) -> exists v, Dict.get k d = Some v.
Proof.
  induction d as [|[k' v'] rest IH]; simpl; [contradiction|].
  intros [->|H].
  - rewrite String.eqb_refl. eauto.
  - destruct (String.eqb k k'); [eauto|apply IH, H].
Qed.

Lemma set_keys {V} k (v : V) d :
  Dict.keys (Dict.set k v d) =
  if Dict.contains k d then Dict.keys d else (Dict.keys d ++ [k])%list.
Proof.
  unfold Dict.contains, Dict.keys.
  induction d as [|[k' v'] d IH]; [reflexivity|].
  cbn [Dict.set Dict.get]. destruct (String.eqb k k') eqn:E; [reflexivity|].
  cbn [List.map fst]. rewrite IH.
  destruct (Dict.get k d); reflexivity.
Qed.

Lemma set_keys_nodup {V} k (v : V) d :
  NoDup (Dict.keys d) -> NoDup (Dict.keys (Dict.set k v d)).
Proof.
  intro H. rewrite set_keys. destruct (Dict.contains k d) eqn:C; [exact H|].
  apply NoDup_app; [exact H|constructor; [intros []|constructor]|].
  intros y Hy [E|[]]. subst y.
  destruct (keys_get k d Hy) as [w Hw].
  unfold Dict.contains in C. rewrite Hw in C. discriminate C.
Qed.

Lemma append_keys_nodup k x tables :
  NoDup (Dict.keys tables) -> NoDup (Dict.keys (append_to_table k x tables)).
Proof.
  intro H. unfold append_to_table. apply set_keys_nodup.
  unfold ensure_table. destruct (Dict.contains k tables); [exact H|].
  apply set_keys_nodup, H.
Qed.

Lemma build_keys_nodup selected paths :
  NoDup (Dict.keys (array_tables (build_table_hierarchy selected paths))).
Proof.
  unfold build_table_hierarchy.
  assert (H1 : NoDup (Dict.keys
                        (snd (fold_left (assign_path selected) paths ([], []))))).
  { apply (fold_left_invariant (fun st => NoDup (Dict.keys (snd st)))).
    - intros [r t] [s|i] H; [exact H|]. cbn [snd] in H. unfold assign_path.
      destruct (find (under_array (path i)) selected); [|exact H].
      apply append_keys_nodup, H.
    - constructor. }
  destruct (fold_left (assign_path selected) paths ([], [])) as [root_fields tables].
  cbn [array_tables snd] in *.
  apply fold_left_invariant; [|exact H1].
  intros acc a Hacc. unfold handle_nested.
  apply fold_left_invariant.
  - intros acc' n Hacc'.
    destruct (under_array n a && negb (String.eqb n a)); [|exact Hacc'].
    unfold collect_nested. apply fold_left_invariant; [|exact Hacc'].
    intros acc'' [s|i] H; [exact H|].
    destruct (under_array (path i) n); [|exact H].
    apply append_keys_nodup, H.
  - unfold ensure_table. destruct (Dict.contains a acc); [exact Hacc|].
    apply set_keys_nodup, Hacc.
Qed.

End TableFacts.


Module CountFacts.
Import DictFacts PartitionFacts TableFacts.

Lemma count_path_app p l1 l2 :
  count_path p (l1 ++ l2)%list = count_path p l1 + count_path p l2.
Proof. unfold count_path. rewrite filter_app, length_app. reflexivity. Qed.

(** The sum of the counts over all tables of a dict. *)
Lemma sum_set p k v (d : Dict.t (list PathItem)) :
  list_sum (map (fun entry => count_path p (snd entry)) (Dict.set k v d))
    + count_path p (Dict.get_default k [] d)
  = list_sum (map (fun entry => count_path p (snd entry)) d) + count_path p v.
Proof.
  unfold Dict.get_default.
  induction d as [|[k' l] d IH].
  - cbn [Dict.set Dict.get map list_sum fold_right snd].
    change (count_path p []) with 0. unfold list_sum. cbn [fold_right]. lia.
  - cbn [Dict.set Dict.get]. destruct (String.eqb k k').
    + unfold list_sum. cbn [map fold_right snd]. lia.
    + unfold list_sum in *. cbn [map fold_right snd]. lia.
Qed.

Lemma sum_ensure p k (tables : Dict.t (list PathItem)) :
  list_sum (map (fun entry => count_path p (snd entry)) (ensure_table k tables))
  = list_sum (map (fun entry => count_path p (snd entry)) tables).
Proof.
  unfold ensure_table. destruct (Dict.contains k tables) eqn:E; [reflexivity|].
  pose proof (sum_set p k [] tables) as H.
  unfold Dict.contains in E. unfold Dict.get_default in H.
  destruct (Dict.get k tables); [discriminate E|].
  change (count_path p []) with 0 in H. lia.
Qed.

Lemma sum_append p k x (tables : Dict.t (list PathItem)) :
  list_sum (map (fun entry => count_path p (snd entry))
              (append_to_table k x tables))
  = list_sum (map (fun entry => count_path p (snd entry)) tables)
    + count_path p [x].
Proof.
  unfold append_to_table.
  pose proof (sum_set p k (Dict.get_default k [] (ensure_table k tables) ++ [x])%list
                (ensure_table k tables)) as H.
  rewrite count_path_app, sum_ensure in H. lia.
Qed.

Lemma first_loop_count p selected l :
  forall root_fields tables,
    count_path p
      (fst (fold_left (assign_path selected) l (root_fields, tables)))
    + list_sum
        (map (fun entry => count_path p (snd entry))
           (snd (fold_left (assign_path selected) l (root_fields, tables))))
    = count_path p root_fields
      + list_sum (map (fun entry => count_path p (snd entry)) tables)
      + count_path p l.
Proof.
  induction l as [|x l IH]; intros root_fields tables.
  - cbn [fold_left fst snd]. change (count_path p []) with 0. lia.
  - change (fold_left (assign_path selected) (x :: l) (root_fields, tables))
      with (fold_left (assign_path selected) l
              (assign_path selected (root_fields, tables) x)).
    change (x :: l) with ([x] ++ l)%list. rewrite count_path_app.
    destruct x as [s|i].
    + change (assign_path selected (root_fields, tables) (Plain s))
        with (root_fields, tables).
      rewrite IH. change (count_path p [Plain s]) with 0. lia.
    + assert (Hstep : assign_path selected (root_fields, tables) (Info i) =
                      match find (under_array (path i)) selected with
                      | Some a => (root_fields, append_to_table a (Info i) tables)
                      | None => ((root_fields ++ [Info i])%list, tables)
                      end) by reflexivity.
      rewrite Hstep. clear Hstep.
      destruct (find (under_array (path i)) selected) as [a|].
      * rewrite IH, sum_append. lia.
      * rewrite IH, count_path_app. lia.
Qed.

(** ** A selection without nesting *)

Lemma flat_inner paths array_path l :
  forallb
    (fun nested_array =>
       negb (under_array nested_array array_path
             && negb (String.eqb nested_array array_path))) l = true ->
  forall tables,
    fold_left
      (fun tables nested_array =>
         if under_array nested_array array_path
            && negb (String.eqb nested_array array_path)
         then collect_nested paths nested_array tables
         else tables) l tables = tables.
Proof.
  induction l as [|n l IH]; intros H tables; [reflexivity|].
  cbn [forallb] in H. apply andb_true_iff in H. destruct H as [Hn Hl].
  cbn [fold_left].
  destruct (under_array n array_path && negb (String.eqb n array_path));
    [discriminate Hn|].
  apply IH, Hl.
Qed.

Lemma flat_second_loop p selected paths l :
  forallb
    (fun array_path =>
       forallb
         (fun nested_array =>
            negb (under_array nested_array array_path
                  && negb (String.eqb nested_array array_path)))
         selected) l = true ->
  forall tables,
    list_sum (map (fun entry => count_path p (snd entry))
                (fold_left (handle_nested selected paths) l tables))
    = list_sum (map (fun entry => count_path p (snd entry)) tables).
Proof.
  induction l as [|a l IH]; intros H tables; [reflexivity|].
  cbn [forallb] in H. apply andb_true_iff in H. destruct H as [Ha Hl].
  cbn [fold_left]. rewrite (IH Hl).
  unfold handle_nested. rewrite (flat_inner paths a selected Ha).
  apply sum_ensure.
Qed.

Lemma flat_no_copies selected k paths l :
  forallb
    (fun array_path =>
       forallb
         (fun nested_array =>
            negb (under_array nested_array array_path
                  && negb (String.eqb nested_array array_path)))
         selected) l = true ->
  flat_map
    (fun array_path =>
       flat_map
         (fun nested_array =>
            if under_array nested_array array_path
               && negb (String.eqb nested_array array_path)
               && String.eqb nested_array k
            then under_items k paths
            else [])
         selected) l = [].
Proof.
  induction l as [|a l IH]; intro H; [reflexivity|].
  cbn [forallb] in H. apply andb_true_iff in H. destruct H as [Ha Hl].
  cbn [flat_map]. rewrite (IH Hl), app_nil_r.
  clear IH Hl. induction selected as [|n l' IH']; [reflexivity|].
  cbn [forallb] in Ha. apply andb_true_iff in Ha. destruct Ha as [Hn Hl'].
  cbn [flat_map]. rewrite (IH' Hl').
  destruct (under_array n a && negb (String.eqb n a)); [discriminate Hn|].
  reflexivity.
Qed.

Lemma build_unfold selected paths :
  build_table_hierarchy selected paths =
  mkTables
    (fst (fold_left (assign_path selected) paths
            (@pair (list PathItem) (Dict.t (list PathItem)) [] [])))
    (fold_left (handle_nested selected paths) selected
       (snd (fold_left (assign_path selected) paths
               (@pair (list PathItem) (Dict.t (list PathItem)) [] [])))).
Proof.
  unfold build_table_hierarchy.
  change (@pair (list PathItem) (Dict.t (list PathItem)) [] [])
    with (@pair (list PathItem) (list (string * list PathItem)) [] []).
  destruct (fold_left (assign_path selected) paths ([], [])); reflexivity.
Qed.

End CountFacts.

(** X3.  The root table holds exactly the descriptors that fall under no
    selected array, in the order of the walker. *)
Theorem root_table_exact (selected_arrays : list string) (paths : list PathItem) :
  root_table (build_table_hierarchy selected_arrays paths)
  = root_items selected_arrays paths.
Proof.
  rewrite CountFacts.build_unfold. cbn [root_table].
  destruct (TableFacts.first_loop_fold selected_arrays paths [] []) as [H _].
  exact H.
Qed.

(** X4.  The array tables in full: there is a table for [k] exactly
    when [k] is selected, and it holds first the descriptors whose first
    selected array is [k], then the descriptors under [k] once more for
    every selected array that [k] lies inside. *)
Theorem array_tables_exact (selected_arrays : list string)
    (paths : list PathItem) (k : string) :
  Dict.get k (array_tables (build_table_hierarchy selected_arrays paths))
  = if Str.mem k selected_arrays
    then Some (first_match_items selected_arrays k paths
               ++ nested_copies selected_arrays k paths)%list
    else None.
Proof.
  pose proof (TableFacts.table_is_selected selected_arrays paths k) as Hsel.
  pose proof (PartitionFacts.selected_array_has_table selected_arrays paths k) as Hhas.
  assert (Hget :
            Dict.get_default k []
              (array_tables (build_table_hierarchy selected_arrays paths))
            = (first_match_items selected_arrays k paths
               ++ nested_copies selected_arrays k paths)%list).
  { rewrite CountFacts.build_unfold. cbn [array_tables].
    destruct (TableFacts.first_loop_fold selected_arrays paths [] []) as [_ H].
    rewrite TableFacts.second_loop_get, (H k). reflexivity. }
  unfold Dict.contains, Dict.get_default in *.
  destruct (Str.mem k selected_arrays) eqn:M.
  - assert (Hin : In k selected_arrays).
    { unfold Str.mem in M. apply existsb_exists in M.
      destruct M as [y [Hy E]]. apply String.eqb_eq in E. subst y. exact Hy. }
    specialize (Hhas Hin).
    destruct (Dict.get k (array_tables (build_table_hierarchy selected_arrays paths)));
      [rewrite Hget; reflexivity|discriminate Hhas].
  - destruct (Dict.get k (array_tables (build_table_hierarchy selected_arrays paths)));
      [|reflexivity].
    assert (Hin : In k selected_arrays) by (apply Hsel; reflexivity).
    assert (M' : Str.mem k selected_arrays = true).
    { unfold Str.mem. apply existsb_exists. exists k. split; [exact Hin|].
      apply String.eqb_refl. }
    congruence.
Qed.

(** X5.  When no selected array lies inside another one the partition
    is exact: the table of a selected array holds the descriptors whose
    first selected array it is and nothing else, and every path occurs
    in the partition as often as in the walker's list. *)
Theorem flat_selection_partition (selected_arrays : list string)
    (paths : list PathItem) :
  flat_selection selected_arrays = true ->
  (forall k, In k selected_arrays ->
     Dict.get k (array_tables (build_table_hierarchy selected_arrays paths))
     = Some (first_match_items selected_arrays k paths)) /\
  (forall p,
     occurrences (build_table_hierarchy selected_arrays paths) p
     = count_path p paths).
Proof.
  intro Hflat. unfold flat_selection in Hflat. split.
  - intros k Hin.
    pose proof (PartitionFacts.selected_array_has_table selected_arrays paths k Hin)
      as Hhas.
    rewrite CountFacts.build_unfold in *. cbn [array_tables] in *.
    destruct (TableFacts.first_loop_fold selected_arrays paths [] []) as [_ H].
    pose proof (TableFacts.second_loop_get k selected_arrays paths selected_arrays
                  (snd (fold_left (assign_path selected_arrays) paths
                          (@pair (list PathItem) (Dict.t (list PathItem)) [] []))))
      as Hget.
    rewrite (CountFacts.flat_no_copies selected_arrays k paths selected_arrays Hflat),
      app_nil_r, (H k) in Hget.
    unfold Dict.contains in Hhas. unfold Dict.get_default in Hget.
    revert Hhas Hget.
    generalize (fold_left (handle_nested selected_arrays paths) selected_arrays
                  (snd (fold_left (assign_path selected_arrays) paths
                          (@pair (list PathItem) (Dict.t (list PathItem)) [] [])))).
    intros tables Hhas Hget.
    destruct (Dict.get k tables); [|discriminate Hhas].
    rewrite Hget. reflexivity.
  - intro p.
    pose proof (CountFacts.first_loop_count p selected_arrays paths [] []) as H.
    rewrite CountFacts.build_unfold.
    unfold occurrences in *. cbn [root_table array_tables] in *.
    rewrite (CountFacts.flat_second_loop p selected_arrays paths selected_arrays
               Hflat).
    rewrite H. change (count_path p []) with 0. reflexivity.
Qed.

Lemma flat_selection_partition_witness :
  flat_selection ["a"] = true /\
  Dict.get "a" (array_tables (build_table_hierarchy ["a"] nested_leaves))
  = Some (first_match_items ["a"] "a" nested_leaves) /\
  occurrences (build_table_hierarchy ["a"] nested_leaves) "a[].item.k"
  = count_path "a[].item.k" nested_leaves.
Proof.
  split; [reflexivity|].
  destruct (flat_selection_partition ["a"] nested_leaves eq_refl) as [H1 H2].
  split; [apply H1; left; reflexivity|apply H2].
Defined.


(* ================================================================== *)
(** * More on the Schema Walker and Array Discovery *)
(* ================================================================== *)

Module WalkFacts.
Import WalkerFacts.

(** Induction along the walk: the fields of a record one after the
    other, and below a field every schema that is not larger than its
    type. *)
Lemma walker_ind (P : Schema -> Prop) :
  (forall s, (forall n fs, s <> RecordSchema n fs) -> P s) ->
  (forall n, P (RecordSchema n [])) ->
  (forall n name type field_doc rest,
     (forall t, schema_size t <= schema_size type -> P t) ->
     P (RecordSchema n rest) ->
     P (RecordSchema n (mkField name type field_doc :: rest))) ->
  forall s, P s.
Proof.
  intros Hother Hnil Hcons s.
  induction s as [s IH] using schema_size_ind.
  destruct s; try (apply Hother; discriminate).
  assert (Haux : forall fs, (forall f, In f fs -> In f fields) ->
                            P (RecordSchema fullname fs)).
  { induction fs as [|[name type field_doc] rest IHfs]; intro Hsub; [apply Hnil|].
    apply Hcons.
    - intros t Hle. apply IH.
      pose proof (field_size_lt fullname (mkField name type field_doc) fields
                    (Hsub _ (or_introl eq_refl))) as Hlt.
      simpl field_schema in Hlt. lia.
    - apply IHfs. intros f Hf. apply Hsub. right. exact Hf. }
  apply Haux. intros f Hf. exact Hf.
Qed.

(** ** Prefixes *)

Lemma prefix_append p r : String.prefix p (p ++ r) = true.
Proof.
  induction p as [|c p IH]; [destruct r; reflexivity|].
  simpl. destruct (ascii_dec c c) as [_|N]; [exact IH|contradiction].
Qed.

Lemma prefix_refl p : String.prefix p p = true.
Proof.
  induction p as [|c p IH]; [reflexivity|].
  simpl. destruct (ascii_dec c c) as [_|N]; [exact IH|contradiction].
Qed.

Lemma prefix_split p s : String.prefix p s = true -> exists r, s = p ++ r.
Proof.
  revert s. induction p as [|c p IH]; intros s H.
  - exists s. reflexivity.
  - destruct s as [|d s]; [discriminate H|]. simpl in H.
    destruct (ascii_dec c d) as [->|_]; [|discriminate H].
    destruct (IH s H) as [r ->]. exists r. reflexivity.
Qed.

Lemma append_assoc (a b c : string) : (a ++ b) ++ c = a ++ (b ++ c).
Proof. induction a as [|x a IH]; simpl; [reflexivity|rewrite IH; reflexivity]. Qed.

Lemma startswith_trans s q p :
  Str.startswith s q = true -> Str.startswith q p = true ->
  Str.startswith s p = true.
Proof.
  unfold Str.startswith. intros H1 H2.
  destruct (prefix_split _ _ H1) as [r1 ->].
  destruct (prefix_split _ _ H2) as [r2 ->].
  rewrite append_assoc. apply prefix_append.
Qed.

Lemma join_name_prefix prefix name :
  Str.startswith (join_name prefix name) prefix = true.
Proof.
  unfold join_name, Str.startswith.
  destruct (String.eqb prefix "") eqn:E.
  - apply String.eqb_eq in E. subst. destruct name; reflexivity.
  - apply prefix_append.
Qed.

(** ** Unions *)

Lemma no_empty_union_branch schemas t :
  no_empty_union (UnionSchema schemas) = true -> In t schemas ->
  no_empty_union t = true.
Proof.
  intros H Hin. simpl in H. apply andb_prop in H. destruct H as [_ H].
  induction schemas as [|s rest IH]; [contradiction|].
  apply andb_prop in H. destruct H as [Hs Hrest].
  destruct Hin as [->|Hin]; [exact Hs|apply IH; assumption].
Qed.

Lemma no_empty_union_effective t :
  no_empty_union t = true ->
  no_empty_union (effective_type t) = true /\ union_index_error t = false.
Proof.
  intro H. destruct t; try (split; [exact H|reflexivity]).
  destruct schemas as [|s0 rest]; [discriminate H|].
  split; [|reflexivity].
  unfold effective_type.
  destruct (first_non_null_In s0 (s0 :: rest)) as [E|Hin].
  - rewrite E. apply (no_empty_union_branch (s0 :: rest)); [exact H|left; reflexivity].
  - apply (no_empty_union_branch (s0 :: rest)); [exact H|exact Hin].
Qed.

Lemma no_empty_union_cons n name type field_doc rest :
  no_empty_union (RecordSchema n (mkField name type field_doc :: rest)) =
  no_empty_union type && no_empty_union (RecordSchema n rest).
Proof. reflexivity. Qed.

(** ** The two modes *)

Lemma schema_type_not_enum s :
  (forall symbols, s <> EnumSchema symbols) ->
  String.eqb (schema_type s) "enum" = false.
Proof.
  intro H. destruct s; try reflexivity.
  - exfalso. eapply H. reflexivity.
  - destruct prim; reflexivity.
Qed.

Lemma field_paths_plain sub_schema is_optional full_name field_doc array_paths :
  (forall t, schema_size t <= schema_size sub_schema ->
     forall prefix,
       extract_field_paths t prefix array_paths false =
       option_map (List.map plain_item)
         (extract_field_paths t prefix array_paths true)) ->
  field_paths sub_schema is_optional full_name field_doc array_paths false =
  option_map (List.map plain_item)
    (field_paths sub_schema is_optional full_name field_doc array_paths true).
Proof.
  intro Hrec. unfold field_paths.
  destruct sub_schema eqn:E;
    try (unfold other_leaf; cbn [option_map List.map plain_item field_type path];
         rewrite schema_type_not_enum by (intros symbols; discriminate);
         reflexivity).
  - apply Hrec. apply le_n.
  - destruct (Str.mem full_name array_paths).
    + apply Hrec. simpl. lia.
    + reflexivity.
  - reflexivity.
Qed.

(** On a schema without empty unions the walker returns. *)
Lemma walker_returns (schema_obj : Schema) (prefix : string)
    (array_paths : list string) (include_types : bool) :
  no_empty_union schema_obj = true ->
  exists items,
    extract_field_paths schema_obj prefix array_paths include_types = Some items.
Proof.
  revert prefix.
  induction schema_obj as [s Hs|n|n name type field_doc rest IHt IHrest]
    using walker_ind; intros prefix Hok.
  - destruct s; try (eexists; reflexivity). exfalso. eapply Hs. reflexivity.
  - eexists. reflexivity.
  - rewrite no_empty_union_cons in Hok. apply andb_prop in Hok.
    destruct Hok as [Htype Hrest].
    destruct (no_empty_union_effective type Htype) as [Heff Herr].
    rewrite WalkerFacts.extract_record_cons, WalkerFacts.resolve_field_type_spec, Herr.
    destruct (IHrest prefix Hrest) as [later ->].
    assert (Hhere : exists here,
              field_paths (effective_type type) (effective_optional type)
                (join_name prefix name) field_doc array_paths include_types
              = Some here).
    { pose proof (WalkerFacts.effective_type_size type) as Hsize.
      unfold field_paths.
      destruct (effective_type type) eqn:E; try (eexists; reflexivity).
      - apply IHt; [exact Hsize|exact Heff].
      - destruct (Str.mem (join_name prefix name) array_paths);
          [|eexists; reflexivity].
        apply IHt; [simpl in Hsize; lia|exact Heff]. }
    destruct Hhere as [here ->]. cbn [bind]. eexists. reflexivity.
Qed.

(** ** When the walker raises *)

Lemma meets_cons n name type field_doc rest prefix array_paths :
  meets_empty_union (RecordSchema n (mkField name type field_doc :: rest))
    prefix array_paths =
  union_index_error type
  || match effective_type type with
     | RecordSchema _ _ =>
         meets_empty_union (effective_type type) (join_name prefix name) array_paths
     | ArraySchema items =>
         Str.mem (join_name prefix name) array_paths
         && meets_empty_union items (join_name prefix name ++ array_marker) array_paths
     | _ => false
     end
  || meets_empty_union (RecordSchema n rest) prefix array_paths.
Proof.
  simpl meets_empty_union at 1.
  destruct (effective_type type); reflexivity.
Qed.

(** The walker raises exactly when it comes to an empty union. *)
Lemma walker_raises (schema_obj : Schema) (prefix : string)
    (array_paths : list string) (include_types : bool) :
  extract_field_paths schema_obj prefix array_paths include_types = None <->
  meets_empty_union schema_obj prefix array_paths = true.
Proof.
  revert prefix.
  induction schema_obj as [s Hs|n|n name type field_doc rest IHt IHrest]
    using walker_ind; intros prefix.
  - destruct s; try (split; discriminate). exfalso. eapply Hs. reflexivity.
  - split; discriminate.
  - rewrite WalkerFacts.extract_record_cons, WalkerFacts.resolve_field_type_spec,
      meets_cons.
    destruct (union_index_error type); [split; reflexivity|].
    cbn [orb].
    pose proof (WalkerFacts.effective_type_size type) as Hsize.
    specialize (IHrest prefix).
    assert (Hhere :
      field_paths (effective_type type) (effective_optional type)
        (join_name prefix name) field_doc array_paths include_types = None <->
      match effective_type type with
      | RecordSchema _ _ =>
          meets_empty_union (effective_type type) (join_name prefix name) array_paths
      | ArraySchema items =>
          Str.mem (join_name prefix name) array_paths
          && meets_empty_union items (join_name prefix name ++ array_marker)
               array_paths
      | _ => false
      end = true).
    { unfold field_paths.
      destruct (effective_type type) eqn:E; try (split; discriminate).
      - apply IHt. exact Hsize.
      - destruct (Str.mem (join_name prefix name) array_paths);
          [|split; discriminate].
        cbn [andb]. apply IHt. simpl in Hsize. lia. }
    rewrite orb_true_iff, <- Hhere, <- IHrest.
    destruct (field_paths (effective_type type) (effective_optional type)
                (join_name prefix name) field_doc array_paths include_types)
      as [here|]; cbn [bind].
    + destruct (extract_field_paths (RecordSchema n rest) prefix array_paths
                  include_types) as [later|]; cbn [bind].
      * split; [discriminate|]. intros [H|H]; discriminate H.
      * split; [right; reflexivity|reflexivity].
    + split; [left; reflexivity|reflexivity].
Qed.

(** A schema without empty unions has none the walker could come to. *)
Lemma meets_none (schema_obj : Schema) (prefix : string)
    (array_paths : list string) :
  no_empty_union schema_obj = true ->
  meets_empty_union schema_obj prefix array_paths = false.
Proof.
  intro Hok.
  destruct (walker_returns schema_obj prefix array_paths true Hok) as [items H].
  destruct (meets_empty_union schema_obj prefix array_paths) eqn:E; [|reflexivity].
  apply (walker_raises schema_obj prefix array_paths true) in E.
  rewrite E in H. discriminate H.
Qed.

(** The walker returns when it comes to no empty union. *)
Lemma walker_returns_when (schema_obj : Schema) (prefix : string)
    (array_paths : list string) (include_types : bool) :
  meets_empty_union schema_obj prefix array_paths = false ->
  exists items,
    extract_field_paths schema_obj prefix array_paths include_types = Some items.
Proof.
  intro Hno.
  destruct (extract_field_paths schema_obj prefix array_paths include_types)
    as [items|] eqn:E; [exists items; reflexivity|].
  apply walker_raises in E. rewrite E in Hno. discriminate Hno.
Qed.

End WalkFacts.

(** X6.  When the walker raises, on a schema that is a finite tree of
    types, as all schemas of this file are (a named type that refers to
    itself is not one: the source keeps no set of visited types and
    walks such a type without end).  The walker raises exactly when it
    comes to a field whose type is a union without branches, in the
    record, in a record it holds or in the items of a selected array;
    otherwise it returns a list.  On a schema none of whose unions is
    empty it therefore returns, for every prefix, policy and mode. *)
Theorem extract_field_paths_returns (schema_obj : Schema) (prefix : string)
    (array_paths : list string) (include_types : bool) :
  (extract_field_paths schema_obj prefix array_paths include_types = None <->
   meets_empty_union schema_obj prefix array_paths = true) /\
  (meets_empty_union schema_obj prefix array_paths = false ->
   exists items,
     extract_field_paths schema_obj prefix array_paths include_types = Some items) /\
  (no_empty_union schema_obj = true ->
   meets_empty_union schema_obj prefix array_paths = false /\
   exists items,
     extract_field_paths schema_obj prefix array_paths include_types = Some items).
Proof.
  split; [apply WalkFacts.walker_raises|].
  split; [apply WalkFacts.walker_returns_when|].
  intro Hok. split; [apply WalkFacts.meets_none, Hok|].
  apply WalkFacts.walker_returns, Hok.
Qed.

Lemma extract_field_paths_returns_witness :
  no_empty_union nested_schema = true /\
  meets_empty_union nested_schema "" nested_policy = false /\
  exists items,
    extract_field_paths nested_schema "" nested_policy true = Some items.
Proof.
  split; [reflexivity|].
  apply (proj2 (proj2 (extract_field_paths_returns nested_schema ""
                         nested_policy true))).
  reflexivity.
Defined.

(** An empty union in the items of an array makes the walker raise once
    the array is selected, and not before. *)
Example walk_hidden_union :
  extract_field_paths hidden_union_schema "" [] true
  = Some [ leaf "id" "string";
           Info (mkInfo "a[]" "array" None false NoExtra) ] /\
  meets_empty_union hidden_union_schema "" [] = false /\
  extract_field_paths hidden_union_schema "" [ "a" ] true = None /\
  meets_empty_union hidden_union_schema "" [ "a" ] = true /\
  no_empty_union hidden_union_schema = false.
Proof. repeat split. Qed.

(** X7.  The two modes of the walker agree: the list of strings of
    [include_types=False] is the list of descriptors of
    [include_types=True] with every descriptor replaced by its path,
    followed by " (enum)" for an enum; one call raises exactly when the
    other does. *)
Theorem extract_field_paths_modes (schema_obj : Schema) (prefix : string)
    (array_paths : list string) :
  extract_field_paths schema_obj prefix array_paths false =
  option_map (List.map plain_item)
    (extract_field_paths schema_obj prefix array_paths true).
Proof.
  revert prefix.
  induction schema_obj as [s Hs|n|n name type field_doc rest IHt IHrest]
    using WalkFacts.walker_ind; intro prefix.
  - destruct s; try reflexivity. exfalso. eapply Hs. reflexivity.
  - reflexivity.
  - rewrite !WalkerFacts.extract_record_cons.
    destruct (resolve_field_type type) as [[sub_schema is_optional]|] eqn:R;
      [|reflexivity].
    assert (Hsize : schema_size sub_schema <= schema_size type).
    { rewrite WalkerFacts.resolve_field_type_spec in R.
      destruct (union_index_error type); [discriminate R|].
      injection R as <- _. apply WalkerFacts.effective_type_size. }
    rewrite (WalkFacts.field_paths_plain sub_schema is_optional
               (join_name prefix name) field_doc array_paths)
      by (intros t Hle prefix'; apply IHt; lia).
    rewrite (IHrest prefix).
    destruct (field_paths sub_schema is_optional (join_name prefix name) field_doc
                array_paths true) as [here|]; [|reflexivity].
    destruct (extract_field_paths (RecordSchema n rest) prefix array_paths true)
      as [later|]; [|reflexivity].
    cbn [bind option_map]. rewrite map_app. reflexivity.
Qed.

(** X8.  Every path the walker returns starts with the prefix it was
    called with; so the descriptors made inside the items of a selected
    array, where the prefix is the array followed by "[].item", pass the
    test by which the partitioner assigns descriptors to that array. *)
Theorem extract_field_paths_prefix (schema_obj : Schema) (prefix : string)
    (array_paths : list string) (include_types : bool)
    (items : list PathItem) (i : PathInfo) :
  extract_field_paths schema_obj prefix array_paths include_types = Some items ->
  In (Info i) items ->
  Str.startswith (path i) prefix = true.
Proof.
  revert prefix items.
  induction schema_obj as [s Hs|n|n name type field_doc rest IHt IHrest]
    using WalkFacts.walker_ind; intros prefix items Hwalk Hin.
  - destruct s; try (injection Hwalk as <-; contradiction).
    exfalso. eapply Hs. reflexivity.
  - injection Hwalk as <-. contradiction.
  - rewrite WalkerFacts.extract_record_cons, WalkerFacts.resolve_field_type_spec
      in Hwalk.
    destruct (union_index_error type); [discriminate Hwalk|].
    destruct (field_paths (effective_type type) (effective_optional type)
                (join_name prefix name) field_doc array_paths include_types)
      as [here|] eqn:Hhere; [|discriminate Hwalk].
    destruct (extract_field_paths (RecordSchema n rest) prefix array_paths
                include_types) as [later|] eqn:Hlater; [|discriminate Hwalk].
    injection Hwalk as <-.
    apply in_app_or in Hin. destruct Hin as [Hin|Hin];
      [|apply (IHrest prefix later Hlater Hin)].
    apply (WalkFacts.startswith_trans _ (join_name prefix name));
      [|apply WalkFacts.join_name_prefix].
    pose proof (WalkerFacts.effective_type_size type) as Hsize.
    assert (Hself : Str.startswith (join_name prefix name) (join_name prefix name)
                    = true).
    { apply WalkFacts.prefix_refl. }
    assert (Hleaf : forall t, other_leaf include_types (join_name prefix name)
                                field_doc (effective_optional type) t = Info i ->
                              Str.startswith (path i) (join_name prefix name) = true).
    { intros t E. unfold other_leaf in E. destruct include_types; [|discriminate E].
      injection E as <-. exact Hself. }
    unfold field_paths in Hhere.
    destruct (effective_type type) eqn:E;
      try (injection Hhere as <-; destruct Hin as [Hin|[]];
           eapply Hleaf; exact Hin).
    + apply (IHt _ Hsize _ _ Hhere Hin).
    + destruct (Str.mem (join_name prefix name) array_paths).
      * apply (WalkFacts.startswith_trans _ (join_name prefix name ++ array_marker));
          [|apply WalkFacts.prefix_append].
        refine (IHt s _ _ _ Hhere Hin). simpl in Hsize. lia.
      * injection Hhere as <-. destruct Hin as [Hin|[]].
        unfold array_leaf in Hin. destruct include_types; [|discriminate Hin].
        injection Hin as <-. apply WalkFacts.prefix_append.
    + injection Hhere as <-. destruct Hin as [Hin|[]].
      unfold enum_leaf in Hin. destruct include_types; [|discriminate Hin].
      injection Hin as <-. exact Hself.
Qed.

Lemma extract_field_paths_prefix_witness :
  extract_field_paths
    (RecordSchema "B" [ mkField "x" int_schema None ]) "a[].item" nested_policy true
    = Some [ leaf "a[].item.x" "int" ] /\
  Str.startswith "a[].item.x" "a[].item" = true.
Proof.
  split; [reflexivity|].
  apply (extract_field_paths_prefix
           (RecordSchema "B" [ mkField "x" int_schema None ]) "a[].item"
           nested_policy true [ leaf "a[].item.x" "int" ]
           (mkInfo "a[].item.x" "int" None false (LogicalType None))).
  - reflexivity.
  - left. reflexivity.
Defined.


Module PolicyFacts.
Import WalkerFacts.

Lemma append_length (a b : string) :
  String.length (a ++ b) = String.length a + String.length b.
Proof. induction a as [|c a IH]; simpl; [reflexivity|rewrite IH; reflexivity]. Qed.

Lemma append_inv_tail (a b c : string) : a ++ c = b ++ c -> a = b.
Proof.
  revert b. induction a as [|x a IH]; intros [|y b] H.
  - reflexivity.
  - exfalso. apply (f_equal String.length) in H.
    simpl in H. rewrite append_length in H. lia.
  - exfalso. apply (f_equal String.length) in H.
    simpl in H. rewrite append_length in H. lia.
  - simpl in H. injection H as -> H. rewrite (IH b H). reflexivity.
Qed.

(** Where Array Discovery and the walker look at different types, the
    field is a union without a non-null branch. *)
Lemma discovery_or_null t :
  discovery_type t = effective_type t \/
  ((forall n fs, discovery_type t <> RecordSchema n fs) /\
   (forall items, discovery_type t <> ArraySchema items) /\
   (union_index_error t = true \/ non_null (effective_type t) = false)).
Proof.
  destruct t; try (left; reflexivity).
  destruct schemas as [|s0 rest].
  - right. repeat split; try discriminate. left. reflexivity.
  - unfold discovery_type, effective_type.
    destruct (first_non_null_cases (UnionSchema (s0 :: rest)) (s0 :: rest))
      as [[E1 E2]|[t [ts [E1 [E2 _]]]]];
      destruct (first_non_null_cases s0 (s0 :: rest))
        as [[F1 F2]|[t' [ts' [F1 [F2 _]]]]]; rewrite E2, F2.
    + right. repeat split; try discriminate. right.
      simpl in F1. destruct (non_null s0); [discriminate F1|reflexivity].
    + rewrite E1 in F1. discriminate F1.
    + rewrite E1 in F1. discriminate F1.
    + left. congruence.
Qed.

(** A schema of type "null" is a leaf for the walker, whatever the
    policy. *)
Lemma null_field_paths sub_schema is_optional full_name field_doc array_paths
    include_types :
  non_null sub_schema = false ->
  field_paths sub_schema is_optional full_name field_doc array_paths include_types
  = Some [other_leaf include_types full_name field_doc is_optional sub_schema].
Proof.
  unfold non_null. destruct sub_schema; try discriminate. reflexivity.
Qed.

End PolicyFacts.

(** X9.  The array descriptors of the walker are the arrays that Array
    Discovery reports under the same policy and that are not selected:
    each of them, under its path followed by "[]", and no other. *)
Theorem array_leaves_are_discovered (schema_obj : Schema) (prefix : string)
    (array_paths : list string) (items : list PathItem) (q : string) :
  extract_field_paths schema_obj prefix array_paths true = Some items ->
  (In q (find_array_fields schema_obj prefix array_paths) /\
   Str.mem q array_paths = false) <->
  (exists field_doc is_optional,
     In (Info (mkInfo (q ++ "[]") "array" field_doc is_optional NoExtra)) items).
Proof.
  intro Hwalk. split.
  - intros [Hin Hmem]. revert prefix items Hwalk Hin.
    induction schema_obj as [s Hs|n|n name type field_doc rest IHt IHrest]
      using WalkFacts.walker_ind; intros prefix items Hwalk Hin.
    + destruct s; try contradiction. exfalso. eapply Hs. reflexivity.
    + contradiction.
    + rewrite WalkerFacts.extract_record_cons, WalkerFacts.resolve_field_type_spec
        in Hwalk.
      destruct (union_index_error type) eqn:Herr; [discriminate Hwalk|].
      destruct (field_paths (effective_type type) (effective_optional type)
                  (join_name prefix name) field_doc array_paths true)
        as [here|] eqn:Hhere; [|discriminate Hwalk].
      destruct (extract_field_paths (RecordSchema n rest) prefix array_paths true)
        as [later|] eqn:Hlater; [|discriminate Hwalk].
      injection Hwalk as <-.
      rewrite WalkerFacts.find_record_cons in Hin.
      apply in_app_or in Hin. destruct Hin as [Hin|Hin].
      * assert (Hgoal : exists d o,
                  In (Info (mkInfo (q ++ "[]") "array" d o NoExtra)) here).
        { pose proof (WalkerFacts.effective_type_size type) as Hsize.
          destruct (PolicyFacts.discovery_or_null type) as [E|[Hrec [Harr _]]].
          - rewrite E in Hin. unfold field_paths in Hhere.
            destruct (effective_type type) eqn:T; try contradiction.
            + apply (IHt _ Hsize _ _ Hhere Hin).
            + destruct Hin as [<-|Hin].
              * rewrite Hmem in Hhere. injection Hhere as <-.
                exists field_doc, (effective_optional type). left. reflexivity.
              * destruct (Str.mem (join_name prefix name) array_paths);
                  [|contradiction].
                refine (IHt s _ _ _ Hhere Hin). simpl in Hsize. lia.
          - destruct (discovery_type type); try contradiction.
            + exfalso. eapply Hrec. reflexivity.
            + exfalso. eapply Harr. reflexivity. }
        destruct Hgoal as [d [o Hd]]. exists d, o. apply in_or_app. left. exact Hd.
      * destruct (IHrest prefix later Hlater Hin) as [d [o Hd]].
        exists d, o. apply in_or_app. right. exact Hd.
  - intros [field_doc [is_optional Hin]].
    destruct (LeafFacts.array_leaf_known_all schema_obj prefix array_paths true items
                _ Hwalk Hin eq_refl) as [full_name [H1 [H2 H3]]].
    cbn [path] in H1. apply PolicyFacts.append_inv_tail in H1. subst full_name.
    split; assumption.
Qed.

Lemma array_leaves_are_discovered_witness :
  extract_field_paths nested_schema "" ["a"] true
  = Some [ leaf "id" "string"; leaf "a[].item.k" "string";
           Info (mkInfo "a[].item.b[]" "array" None false NoExtra) ] /\
  In "a[].item.b" (find_array_fields nested_schema "" ["a"]) /\
  Str.mem "a[].item.b" ["a"] = false.
Proof.
  split; [reflexivity|].
  apply (array_leaves_are_discovered nested_schema "" ["a"]
           [ leaf "id" "string"; leaf "a[].item.k" "string";
             Info (mkInfo "a[].item.b[]" "array" None false NoExtra) ]
           "a[].item.b" eq_refl).
  exists None, false. right. right. left. reflexivity.
Defined.

(** X10.  The walker and Array Discovery read the policy only at the
    arrays Array Discovery reports: two policies that agree on those
    arrays give the same walk and the same report, so a selected path
    that is no array of the schema, or lies inside an array that is not
    selected, changes nothing. *)
Theorem policy_read_at_discovered (schema_obj : Schema) (prefix : string)
    (policy1 policy2 : list string) (include_types : bool) :
  (forall q, In q (find_array_fields schema_obj prefix policy1) ->
             Str.mem q policy2 = Str.mem q policy1) ->
  find_array_fields schema_obj prefix policy2
    = find_array_fields schema_obj prefix policy1 /\
  extract_field_paths schema_obj prefix policy2 include_types
    = extract_field_paths schema_obj prefix policy1 include_types.
Proof.
  revert prefix.
  induction schema_obj as [s Hs|n|n name type field_doc rest IHt IHrest]
    using WalkFacts.walker_ind; intros prefix Hagree.
  - destruct s; try (split; reflexivity). exfalso. eapply Hs. reflexivity.
  - split; reflexivity.
  - rewrite !WalkerFacts.find_record_cons, !WalkerFacts.extract_record_cons,
      !WalkerFacts.resolve_field_type_spec.
    rewrite WalkerFacts.find_record_cons in Hagree.
    destruct (IHrest prefix) as [Hfind Hwalk].
    { intros q Hq. apply Hagree, in_or_app. right. exact Hq. }
    rewrite Hfind, Hwalk.
    assert (Hhead : forall q,
              In q (match discovery_type type with
                    | RecordSchema _ _ =>
                        find_array_fields (discovery_type type)
                          (join_name prefix name) policy1
                    | ArraySchema items =>
                        join_name prefix name ::
                        (if Str.mem (join_name prefix name) policy1
                         then find_array_fields items
                                (join_name prefix name ++ array_marker) policy1
                         else [])
                    | _ => []
                    end) ->
              Str.mem q policy2 = Str.mem q policy1).
    { intros q Hq. apply Hagree, in_or_app. left. exact Hq. }
    clear Hagree Hfind Hwalk IHrest.
    assert (Hboth :
              match discovery_type type with
              | RecordSchema _ _ =>
                  find_array_fields (discovery_type type)
                    (join_name prefix name) policy2
              | ArraySchema items =>
                  join_name prefix name ::
                  (if Str.mem (join_name prefix name) policy2
                   then find_array_fields items
                          (join_name prefix name ++ array_marker) policy2
                   else [])
              | _ => []
              end
              = match discovery_type type with
                | RecordSchema _ _ =>
                    find_array_fields (discovery_type type)
                      (join_name prefix name) policy1
                | ArraySchema items =>
                    join_name prefix name ::
                    (if Str.mem (join_name prefix name) policy1
                     then find_array_fields items
                            (join_name prefix name ++ array_marker) policy1
                     else [])
                | _ => []
                end /\
              (union_index_error type = false ->
               field_paths (effective_type type) (effective_optional type)
                 (join_name prefix name) field_doc policy2 include_types
               = field_paths (effective_type type) (effective_optional type)
                   (join_name prefix name) field_doc policy1 include_types)).
    { pose proof (WalkerFacts.effective_type_size type) as Hsize.
      destruct (PolicyFacts.discovery_or_null type) as [E|[Hrec [Harr Hnull]]].
      - rewrite E in *. unfold field_paths.
        destruct (effective_type type) eqn:T; try (split; reflexivity).
        + destruct (IHt _ Hsize (join_name prefix name) Hhead) as [H1 H2].
          rewrite H1, H2. split; reflexivity.
        + rewrite (Hhead (join_name prefix name) (or_introl eq_refl)).
          destruct (Str.mem (join_name prefix name) policy1) eqn:M;
            [|split; reflexivity].
          assert (Hle : schema_size s <= schema_size type)
            by (simpl in Hsize; lia).
          destruct (IHt s Hle (join_name prefix name ++ array_marker)) as [H1 H2];
            [intros q Hq; apply Hhead; right; exact Hq|].
          rewrite H1, H2. split; reflexivity.
      - split.
        + destruct (discovery_type type); try reflexivity.
          * exfalso. eapply Hrec. reflexivity.
          * exfalso. eapply Harr. reflexivity.
        + intro Herr. destruct Hnull as [Hnull|Hnull]; [congruence|].
          rewrite !(PolicyFacts.null_field_paths _ _ _ _ _ _ Hnull). reflexivity. }
    destruct Hboth as [Hb1 Hb2]. rewrite Hb1. split; [reflexivity|].
    destruct (union_index_error type); [reflexivity|].
    rewrite (Hb2 eq_refl). reflexivity.
Qed.

Lemma policy_read_at_discovered_witness :
  find_array_fields nested_schema "" ["a[].item.b"]
    = find_array_fields nested_schema "" [] /\
  extract_field_paths nested_schema "" ["a[].item.b"] true
    = extract_field_paths nested_schema "" [] true.
Proof.
  apply (policy_read_at_discovered nested_schema "" [] ["a[].item.b"] true).
  intros q [<-|[]]. reflexivity.
Defined.


(* ================================================================== *)
(** * More on the DDL handler *)
(* ================================================================== *)

Module HandlerFacts.
Import DictFacts DDLFacts.

Lemma get_default_range k (dflt : string) (d : Dict.t string) :
  Dict.get_default k dflt d = dflt \/ In (Dict.get_default k dflt d) (List.map snd d).
Proof.
  unfold Dict.get_default.
  induction d as [|[k' v] d IH]; [left; reflexivity|].
  cbn [Dict.get List.map snd]. destruct (String.eqb k k').
  - right. left. reflexivity.
  - destruct IH as [IH|IH]; [left; exact IH|right; right; exact IH].
Qed.

(** ** The loop of lines 570-579 *)

Lemma longest_step array_path seen st x :
  longest_so_far array_path seen st ->
  longest_so_far array_path (seen ++ [x])
    (let '(is_nested_array, parent_array) := st in
     if negb (String.eqb array_path x) && under_array array_path x
     then
       if negb (truthy parent_array)
          || (String.length (match parent_array with Some p => p | None => "" end)
              <? String.length x)%nat
       then (true, Some x)
       else st
     else st).
Proof.
  change (negb (String.eqb array_path x) && under_array array_path x)
    with (parent_candidate array_path x).
  destruct st as [[|] [p|]]; unfold longest_so_far; cbv beta iota;
    try contradiction.
  - intros [Hp [Hc Hmax]].
    destruct (parent_candidate array_path x) eqn:Cx.
    + destruct (negb (truthy (Some p)) || (String.length p <? String.length x)%nat)
        eqn:Better.
      * split; [apply in_or_app; right; left; reflexivity|].
        split; [exact Cx|].
        intros q Hq Cq. apply in_app_or in Hq. destruct Hq as [Hq|[<-|[]]];
          [|lia].
        specialize (Hmax q Hq Cq).
        apply orb_prop in Better. destruct Better as [B|B].
        -- unfold truthy in B. apply negb_true_iff, negb_false_iff in B.
           apply String.eqb_eq in B. subst p. simpl in Hmax. lia.
        -- apply Nat.ltb_lt in B. lia.
      * apply orb_false_elim in Better. destruct Better as [_ B].
        apply Nat.ltb_ge in B.
        split; [apply in_or_app; left; exact Hp|].
        split; [exact Hc|].
        intros q Hq Cq. apply in_app_or in Hq. destruct Hq as [Hq|[<-|[]]];
          [apply Hmax; assumption|exact B].
    + split; [apply in_or_app; left; exact Hp|].
      split; [exact Hc|].
      intros q Hq Cq. apply in_app_or in Hq. destruct Hq as [Hq|[<-|[]]];
        [apply Hmax; assumption|congruence].
  - intro Hnone.
    destruct (parent_candidate array_path x) eqn:Cx.
    + cbn [truthy negb orb].
      split; [apply in_or_app; right; left; reflexivity|].
      split; [exact Cx|].
      intros q Hq Cq. apply in_app_or in Hq. destruct Hq as [Hq|[<-|[]]];
        [|lia].
      rewrite (Hnone q Hq) in Cq. discriminate Cq.
    + intros q Hq. apply in_app_or in Hq. destruct Hq as [Hq|[<-|[]]];
        [apply Hnone, Hq|exact Cx].
Qed.

Lemma longest_fold array_path l :
  forall seen st,
    longest_so_far array_path seen st ->
    longest_so_far array_path (seen ++ l)
      (fold_left
         (fun st potential_parent =>
            let '(is_nested_array, parent_array) := st in
            if negb (String.eqb array_path potential_parent)
               && under_array array_path potential_parent
            then
              if negb (truthy parent_array)
                 || (String.length (match parent_array with Some p => p | None => "" end)
                     <? String.length potential_parent)%nat
              then (true, Some potential_parent)
              else st
            else st)
         l st).
Proof.
  induction l as [|x l IH]; intros seen st H.
  - rewrite app_nil_r. exact H.
  - cbn [fold_left].
    replace (seen ++ x :: l)%list with ((seen ++ [x]) ++ l)%list
      by (rewrite <- app_assoc; reflexivity).
    apply IH, longest_step, H.
Qed.

(** ** The natural key of the root table *)

Lemma natural_key_col_name_found root_fields key i :
  In (Info i) root_fields -> path i = key ->
  natural_key_col_name root_fields (Some key) = get_column_name key.
Proof.
  intros Hin Hpath. unfold natural_key_col_name.
  assert (H : forall l acc,
            (In (Info i) l \/ acc = get_column_name key) ->
            fold_left
              (fun acc field_info =>
                 match field_info with
                 | Info j => if String.eqb (path j) key
                             then get_column_name (path j) else acc
                 | Plain _ => acc
                 end) l acc = get_column_name key).
  { induction l as [|x l IH]; intros acc [H|H]; cbn [fold_left].
    - contradiction.
    - exact H.
    - destruct H as [->|H].
      + rewrite Hpath, String.eqb_refl. apply IH. right. reflexivity.
      + apply IH. left. exact H.
    - apply IH. right. destruct x as [s|j]; [exact H|].
      destruct (String.eqb (path j) key) eqn:E; [|exact H].
      apply String.eqb_eq in E. rewrite E. reflexivity. }
  apply H. left. exact Hin.
Qed.

(** ** The statement text *)

Lemma append_nil_r (a : string) : a ++ "" = a.
Proof. induction a as [|x a IH]; simpl; [reflexivity|rewrite IH; reflexivity]. Qed.

Lemma substring_append a b :
  String.substring 0 (String.length a) (a ++ b) = a.
Proof.
  induction a as [|c a IH]; simpl.
  - destruct b; reflexivity.
  - rewrite IH. reflexivity.
Qed.

Lemma concat_app (l1 l2 : list string) :
  String.concat "" (l1 ++ l2) = String.concat "" l1 ++ String.concat "" l2.
Proof.
  induction l1 as [|x l1 IH]; [reflexivity|].
  destruct l1 as [|y l1].
  - simpl. destruct l2 as [|z l2]; simpl; [rewrite append_nil_r|]; reflexivity.
  - change (String.concat "" (((x :: y :: l1) ++ l2)%list))
      with (x ++ "" ++ String.concat "" (((y :: l1) ++ l2)%list)).
    rewrite IH. change (String.concat "" (x :: y :: l1))
      with (x ++ "" ++ String.concat "" (y :: l1)).
    simpl. rewrite WalkFacts.append_assoc. reflexivity.
Qed.

Lemma render_column_line c :
  render_column c = column_line c ++ "," ++ newline.
Proof.
  unfold render_column, column_line.
  rewrite !WalkFacts.append_assoc. reflexivity.
Qed.

End HandlerFacts.

(** X11.  [avro_to_hive_type] raises nothing and returns a type of the
    table or STRING.  An enum is VARCHAR(100) whatever else the
    descriptor holds, and a logical type the table does not know gives
    STRING whatever the base type is. *)
Theorem avro_to_hive_type_range (field_info : PathInfo) :
  exists hive_type,
    avro_to_hive_type field_info = Some hive_type /\
    (hive_type = "STRING" \/ In hive_type (List.map snd AVRO_TO_HIVE_TYPE)) /\
    (String.eqb (field_type field_info) "enum" = true ->
     hive_type = "VARCHAR(100)") /\
    (forall logical_type,
       extra field_info = LogicalType (Some logical_type) ->
       String.eqb logical_type "" = false ->
       Dict.get logical_type AVRO_TO_HIVE_TYPE = None ->
       String.eqb (field_type field_info) "enum" = false ->
       hive_type = "STRING").
Proof.
  unfold avro_to_hive_type.
  destruct (String.eqb (field_type field_info) "enum") eqn:E.
  - exists "VARCHAR(100)". split; [reflexivity|]. split.
    + right. vm_compute. tauto.
    + split; [reflexivity|]. intros; discriminate.
  - eexists. split; [reflexivity|]. split.
    + destruct (extra field_info) as [|values|[logical_type|]].
      * apply or_comm. destruct (HandlerFacts.get_default_range
                  (field_type field_info) "STRING" AVRO_TO_HIVE_TYPE); tauto.
      * right. vm_compute. tauto.
      * destruct (String.eqb logical_type "").
        -- destruct (HandlerFacts.get_default_range
                       (field_type field_info) "STRING" AVRO_TO_HIVE_TYPE); tauto.
        -- destruct (HandlerFacts.get_default_range
                       logical_type "STRING" AVRO_TO_HIVE_TYPE); tauto.
      * destruct (HandlerFacts.get_default_range
                    (field_type field_info) "STRING" AVRO_TO_HIVE_TYPE); tauto.
    + split; [discriminate|].
      intros logical_type -> Hne Hget _. rewrite Hne.
      unfold Dict.get_default. rewrite Hget. reflexivity.
Qed.

(** X12.  The loop that looks for the parent of an array table ends
    with [(False, None)] when the array lies inside no other selected
    array, and otherwise with [True] and the longest selected array it
    lies inside. *)
Theorem immediate_parent_longest (selected_arrays : list string)
    (array_path : string) :
  match immediate_parent selected_arrays array_path with
  | (true, Some p) =>
      In p selected_arrays /\ parent_candidate array_path p = true /\
      forall q, In q selected_arrays -> parent_candidate array_path q = true ->
                String.length q <= String.length p
  | (false, None) =>
      forall q, In q selected_arrays -> parent_candidate array_path q = false
  | _ => False
  end.
Proof.
  pose proof (HandlerFacts.longest_fold array_path selected_arrays [] (false, None))
    as H.
  cbn [app] in H. apply H. intros q [].
Qed.

(** X13.  A foreign key to the table of an array has the name and the
    type of the natural-key column of that table, whenever that table
    has one. *)
Theorem array_fk_matches_key
    (root_table_name : string) (selected_arrays : list string)
    (root_fields : list PathItem) (tables : Dict.t (list PathItem))
    (natural_key : option string) (array_natural_keys : Dict.t string)
    (parent_child_relations : Dict.t Relation)
    (array_path p : string) (fields : list PathItem) (key_column : Column) :
  fk_binding selected_arrays array_natural_keys parent_child_relations array_path
    = Some p ->
  Dict.get p tables = Some fields ->
  natural_key_columns array_natural_keys p fields = Some [ key_column ] ->
  foreign_key_column root_table_name selected_arrays root_fields tables natural_key
    array_natural_keys parent_child_relations array_path
  = Some (mkColumn (col_name key_column) (col_type key_column)
            (fk_comment (root_table_name ++ "_" ++ get_column_name p))).
Proof.
  intros Hbind Htable Hkey.
  rewrite DDLFacts.foreign_key_column_binding, Hbind.
  unfold natural_key_columns in Hkey. unfold parent_array_fk.
  destruct (Dict.get p array_natural_keys) as [key|]; [|discriminate Hkey].
  rewrite Htable. cbn [bind].
  destruct (find_field fields (Some key)) as [info|]; [|discriminate Hkey].
  destruct (avro_to_hive_type info) as [hive_type|]; [|discriminate Hkey].
  cbn [bind] in *. injection Hkey as <-. reflexivity.
Qed.

Lemma array_fk_matches_key_witness :
  foreign_key_column "t" nested_policy (root_table nested_tables)
    (array_tables nested_tables) (Some "id") nested_keys [] "a[].item.b"
  = Some (mkColumn "a_k" "VARCHAR(255)" (fk_comment "t_a")).
Proof.
  apply (array_fk_matches_key "t" nested_policy (root_table nested_tables)
           (array_tables nested_tables) (Some "id") nested_keys [] "a[].item.b" "a"
           (snd (List.hd ("", []) (array_tables nested_tables)))
           (mkColumn "a_k" "VARCHAR(255)" (Some "Natural key for this array")));
    reflexivity.
Defined.

(** X14.  When the natural key of the root table is a field of the root
    table that is neither an array nor a record, a foreign key to the
    root table has the name and the type of that field's column in the
    root table. *)
Theorem root_fk_matches_key
    (root_table_name : string) (root_fields : list PathItem)
    (key : string) (i : PathInfo) :
  find_field root_fields (Some key) = Some i ->
  String.eqb (field_type i) "array" || String.eqb (field_type i) "record" = false ->
  exists hive_type,
    root_fk root_table_name root_fields (Some key)
      = Some (mkColumn (get_column_name key) hive_type (fk_comment root_table_name)) /\
    root_column i
      = Some (mkColumn (get_column_name key) hive_type (doc_text (doc i))) /\
    In i (infos root_fields).
Proof.
  intros Hfind Htype. apply orb_false_elim in Htype. destruct Htype as [Ha Hr].
  destruct (DDLFacts.find_field_path _ _ _ Hfind) as [Hpath Hin].
  destruct (DDLFacts.avro_to_hive_type_total i) as [hive_type Ht].
  exists hive_type. split; [|split].
  - unfold root_fk. rewrite Hfind, Ht. cbn [bind].
    rewrite (HandlerFacts.natural_key_col_name_found root_fields key i Hin Hpath).
    reflexivity.
  - unfold root_column. rewrite Ha, Hr, Ht, Hpath. reflexivity.
  - unfold infos. apply in_flat_map. exists (Info i). split; [exact Hin|].
    left. reflexivity.
Qed.

Lemma root_fk_matches_key_witness :
  exists hive_type,
    root_fk "t" nested_leaves (Some "id")
      = Some (mkColumn "id" hive_type (fk_comment "t")) /\
    root_column (mkInfo "id" "string" None false (LogicalType None))
      = Some (mkColumn "id" hive_type None) /\
    In (mkInfo "id" "string" None false (LogicalType None)) (infos nested_leaves).
Proof.
  apply (root_fk_matches_key "t" nested_leaves "id"
           (mkInfo "id" "string" None false (LogicalType None)));
    reflexivity.
Defined.

(** X15.  The statement of a table with at least one column: the header,
    the columns separated by a comma and a line break, and the closing
    parenthesis on a line of its own; no comma follows the last
    column. *)
Theorem render_ddl_columns (table_name : string) (columns : list Column)
    (last_column : Column) :
  render_ddl table_name (columns ++ [ last_column ]) =
  "CREATE TABLE " ++ table_name ++ " (" ++ newline ++
  String.concat "" (List.map render_column columns) ++
  column_line last_column ++ newline ++ ")".
Proof.
  unfold render_ddl.
  rewrite map_app, HandlerFacts.concat_app. cbn [List.map String.concat].
  rewrite HandlerFacts.render_column_line.
  set (body := "CREATE TABLE " ++ table_name ++ " (" ++ newline ++
               String.concat "" (List.map render_column columns) ++
               column_line last_column).
  assert (E : "CREATE TABLE " ++ table_name ++ " (" ++ newline ++
              String.concat "" (List.map render_column columns) ++
              column_line last_column ++ "," ++ newline
              = body ++ "," ++ newline).
  { unfold body. rewrite !WalkFacts.append_assoc. reflexivity. }
  rewrite E, LeafFacts.endswith_append.
  replace (String.length (body ++ "," ++ newline) - 2) with (String.length body)
    by (rewrite PolicyFacts.append_length; simpl; lia).
  rewrite HandlerFacts.substring_append.
  unfold body. rewrite !WalkFacts.append_assoc. reflexivity.
Qed.


(* ================================================================== *)
(** * The sidebar and the key selection *)
(* ================================================================== *)

Module SelectionFacts.
Import WalkerFacts DictFacts.

Lemma list_remove_In x y l :
  NoDup l -> (In y (list_remove x l) <-> In y l /\ y <> x).
Proof.
  induction l as [|z l IH]; intro Hnd; simpl; [tauto|].
  inversion Hnd as [|z' l' Hz Hl]; subst.
  destruct (String.eqb z x) eqn:E.
  - apply String.eqb_eq in E. subst z. split.
    + intro H. split; [right; exact H|]. intros ->. contradiction.
    + intros [[<-|H] Hne]; [contradiction|exact H].
  - apply String.eqb_neq in E. simpl. rewrite (IH Hl). split.
    + intros [<-|[H Hne]]; [split; [left; reflexivity|exact E]|].
      split; [right; exact H|exact Hne].
    + intros [[<-|H] Hne]; [left; reflexivity|right; split; assumption].
Qed.

Lemma list_remove_NoDup x l : NoDup l -> NoDup (list_remove x l).
Proof.
  induction l as [|z l IH]; intro Hnd; simpl; [exact Hnd|].
  inversion Hnd as [|z' l' Hz Hl]; subst.
  destruct (String.eqb z x); [exact Hl|].
  constructor; [|apply IH, Hl].
  intro H. apply (list_remove_In x z l Hl) in H. apply Hz, H.
Qed.

Lemma mem_false x l : Str.mem x l = false <-> ~ In x l.
Proof.
  rewrite <- mem_In. destruct (Str.mem x l); split; congruence.
Qed.

(** One checkbox: the field is selected afterwards exactly when the box
    is checked, and nothing else changes. *)
Lemma checkbox_step_spec checkbox selected changed field :
  NoDup selected ->
  let st := checkbox_step checkbox (selected, changed) field in
  NoDup (fst st) /\
  (In field (fst st) <-> checkbox field (Str.mem field selected) = true) /\
  (forall f, f <> field -> (In f (fst st) <-> In f selected)) /\
  (snd st = false -> changed = false /\ fst st = selected).
Proof.
  intro Hnd. unfold checkbox_step.
  destruct (checkbox field (Str.mem field selected)) eqn:C;
    destruct (Str.mem field selected) eqn:M; cbn [negb fst snd];
    (split; [|split; [|split]]).
  - exact Hnd.
  - apply mem_In in M. tauto.
  - tauto.
  - intros ->. split; reflexivity.
  - apply mem_false in M.
    apply NoDup_app; [exact Hnd|constructor; [intros []|constructor]|].
    intros y Hy [E|[]]. subst y. contradiction.
  - split; [reflexivity|].
    intros _. apply in_or_app. right. left. reflexivity.
  - intros f Hne. split.
    + intro H. apply in_app_or in H. destruct H as [H|[E|[]]];
        [exact H|]. symmetry in E. contradiction.
    + intro H. apply in_or_app. left. exact H.
  - discriminate.
  - apply list_remove_NoDup, Hnd.
  - split; [|discriminate].
    intro H. apply (list_remove_In field field selected Hnd) in H.
    destruct H as [_ H]. contradiction.
  - intros f Hne. split.
    + intro H. apply (list_remove_In field f selected Hnd) in H. apply H.
    + intro H. apply (list_remove_In field f selected Hnd). split; assumption.
  - discriminate.
  - exact Hnd.
  - apply mem_false in M. split; [contradiction|discriminate].
  - tauto.
  - intros ->. split; reflexivity.
Qed.

(** The loop over the checkboxes. *)
Lemma checkbox_loop_spec (checkbox : string -> bool -> bool)
    (array_fields selected_arrays : list string) (changed : bool) :
  NoDup array_fields -> NoDup selected_arrays ->
  let st := checkbox_loop checkbox array_fields (selected_arrays, changed) in
  NoDup (fst st) /\
  (forall f, In f array_fields ->
     (In f (fst st) <-> checkbox f (Str.mem f selected_arrays) = true)) /\
  (forall f, ~ In f array_fields -> (In f (fst st) <-> In f selected_arrays)) /\
  (snd st = false -> changed = false /\ fst st = selected_arrays).
Proof.
  unfold checkbox_loop.
  revert selected_arrays changed.
  induction array_fields as [|x l IH]; intros selected changed Hl Hsel.
  - cbv zeta. cbn [fold_left fst snd].
    split; [exact Hsel|]. split; [intros f []|]. split; [tauto|].
    intros ->. split; reflexivity.
  - inversion Hl as [|x' l' Hx Hl']; subst.
    cbv zeta. cbn [fold_left].
    destruct (checkbox_step_spec checkbox selected changed x Hsel)
      as [H1 [H2 [H3 H4]]].
    destruct (checkbox_step checkbox (selected, changed) x) as [selected1 changed1].
    cbn [fst snd] in H1, H2, H3, H4.
    pose proof (IH selected1 changed1 Hl' H1) as I. cbv zeta in I.
    destruct I as [I1 [I2 [I3 I4]]].
    split; [exact I1|]. split; [|split].
    + intros f [E|Hf].
      * subst f. rewrite (I3 x Hx). exact H2.
      * rewrite (I2 f Hf).
        assert (Hne : f <> x) by (intros ->; contradiction).
        assert (M : Str.mem f selected1 = Str.mem f selected).
        { destruct (Str.mem f selected) eqn:M.
          - apply WalkerFacts.mem_In. apply (H3 f Hne). apply WalkerFacts.mem_In, M.
          - apply mem_false. intro H. apply (H3 f Hne) in H.
            apply mem_false in M. contradiction. }
        rewrite M. tauto.
    + intros f Hf. rewrite (I3 f) by (intro H; apply Hf; right; exact H).
      apply H3. intros ->. apply Hf. left. reflexivity.
    + intro H. destruct (I4 H) as [J1 J2]. destruct (H4 J1) as [K1 K2].
      split; [exact K1|]. rewrite J2. exact K2.
Qed.

(** ** The dictionary of the select box *)

Lemma options_dict_get (options : list (string * string)) :
  forall (init : Dict.t string) (name path : string),
    Dict.get name
      (fold_left (fun (d : Dict.t string) (p : string * string) =>
                    Dict.set (snd p) (fst p) d) options init)
      = Some path ->
    In (path, name) options \/ Dict.get name init = Some path.
Proof.
  induction options as [|[p n] options IH]; intros init name path H.
  - right. exact H.
  - cbn [fold_left fst snd] in H. apply IH in H. destruct H as [H|H].
    + left. right. exact H.
    + destruct (string_dec name n) as [->|Hne].
      * rewrite get_set_same in H. injection H as ->. left. left. reflexivity.
      * rewrite get_set_other in H by exact Hne. right. exact H.
Qed.

Lemma options_dict_keys options :
  options <> [] -> Dict.keys (options_dict options) <> [].
Proof.
  destruct options as [|[p n] options]; [contradiction|]. intros _.
  unfold options_dict. cbn [fold_left fst snd].
  assert (H : Dict.contains n
                (fold_left (fun d p0 => Dict.set (snd p0) (fst p0) d) options
                   (Dict.set n p [])) = true).
  { apply fold_left_invariant.
    - intros acc x Hacc. apply contains_set, Hacc.
    - apply contains_set_same. }
  apply contains_keys in H. intro E. rewrite E in H. contradiction.
Qed.

Lemma select_key_spec selectbox keys array_path fields :
  (forall key options, options <> [] -> In (selectbox key options) options) ->
  exists keys',
    select_key selectbox keys (array_path, fields) = Some keys' /\
    (forall a, a <> array_path -> Dict.get a keys' = Dict.get a keys) /\
    match field_options array_path fields with
    | [] => Dict.get array_path keys' = Dict.get array_path keys
    | _ :: _ =>
        exists path, Dict.get array_path keys' = Some path /\
                     In path (List.map fst (field_options array_path fields))
    end.
Proof.
  intro Hbox. unfold select_key.
  destruct (field_options array_path fields) as [|o options] eqn:E.
  - exists keys. repeat split.
  - set (d := options_dict (o :: options)).
    pose proof (Hbox ("key_" ++ array_path) (Dict.keys d)
                  (options_dict_keys (o :: options) ltac:(discriminate))) as Hsel.
    destruct (TableFacts.keys_get _ _ Hsel) as [path Hpath].
    rewrite Hpath. cbn [bind]. exists (Dict.set array_path path keys).
    split; [reflexivity|]. split.
    + intros a Ha. apply get_set_other, Ha.
    + exists path. split; [apply get_set_same|].
      unfold d, options_dict in Hpath. apply options_dict_get in Hpath.
      destruct Hpath as [H|H]; [|discriminate H].
      apply in_map_iff. exists (path, selectbox ("key_" ++ array_path) (Dict.keys d)).
      split; [reflexivity|exact H].
Qed.

(** The loop over the array tables of a dictionary. *)
Lemma select_keys_spec (selectbox : string -> list string -> string)
    (tables : Dict.t (list PathItem)) :
  (forall key options, options <> [] -> In (selectbox key options) options) ->
  NoDup (Dict.keys tables) ->
  exists array_natural_keys,
    select_keys selectbox tables = Some array_natural_keys /\
    keys_have_tables array_natural_keys tables = true /\
    forall array_path fields,
      Dict.get array_path tables = Some fields ->
      match field_options array_path fields with
      | [] => Dict.get array_path array_natural_keys = None
      | _ :: _ =>
          exists path,
            Dict.get array_path array_natural_keys = Some path /\
            In path (List.map fst (field_options array_path fields))
      end.
Proof.
  intros Hbox Hnd. unfold select_keys.
  revert Hnd. generalize tables as d. clear tables. intros d Hnd.
  assert (H : forall done todo keys,
            d = (done ++ todo)%list ->
            (forall a, Dict.contains a keys = true -> In a (Dict.keys done)) ->
            (forall a fields, In (a, fields) done ->
               match field_options a fields with
               | [] => Dict.get a keys = None
               | _ :: _ =>
                   exists path, Dict.get a keys = Some path /\
                                In path (List.map fst (field_options a fields))
               end) ->
            exists keys',
              fold_left
                (fun acc entry => keys0 <- acc ;; select_key selectbox keys0 entry)
                todo (Some keys) = Some keys' /\
              (forall a, Dict.contains a keys' = true -> In a (Dict.keys d)) /\
              (forall a fields, In (a, fields) d ->
                 match field_options a fields with
                 | [] => Dict.get a keys' = None
                 | _ :: _ =>
                     exists path, Dict.get a keys' = Some path /\
                                  In path (List.map fst (field_options a fields))
                 end)).
  { intros done todo. revert done.
    induction todo as [|[a fields] todo IH]; intros done keys Hd Hkeys Hdone.
    - rewrite app_nil_r in Hd. subst done. exists keys.
      split; [reflexivity|]. split; assumption.
    - cbn [fold_left bind].
      destruct (select_key_spec selectbox keys a fields Hbox)
        as [keys' [Hk [Hother Hself]]].
      rewrite Hk.
      assert (Hfresh : ~ In a (Dict.keys done)).
      { rewrite Hd in Hnd. unfold Dict.keys in *. rewrite map_app in Hnd.
        cbn [List.map fst] in Hnd. apply NoDup_remove_2 in Hnd.
        intro H. apply Hnd, in_or_app. left. exact H. }
      apply (IH (done ++ [(a, fields)])%list keys').
      + rewrite <- app_assoc. exact Hd.
      + intros b Hb. unfold Dict.keys. rewrite map_app. apply in_or_app.
        destruct (string_dec b a) as [->|Hne]; [right; left; reflexivity|].
        left. apply Hkeys. unfold Dict.contains in *.
        rewrite <- (Hother b Hne). exact Hb.
      + intros b fields' Hb. apply in_app_or in Hb.
        destruct Hb as [Hb|[Hb|[]]].
        * assert (Hne : b <> a).
          { intros ->. apply Hfresh. unfold Dict.keys.
            apply in_map_iff. exists (a, fields'). split; [reflexivity|exact Hb]. }
          rewrite (Hother b Hne). apply Hdone, Hb.
        * injection Hb as <- <-.
          destruct (field_options a fields); [|exact Hself].
          rewrite Hself.
          destruct (Dict.get a keys) eqn:G; [|reflexivity].
          exfalso. apply Hfresh, Hkeys. unfold Dict.contains. rewrite G. reflexivity. }
  destruct (H [] d [] eq_refl) as [keys [H1 [H2 H3]]].
  - intros a Ha. discriminate Ha.
  - intros a fields [].
  - exists keys. split; [exact H1|]. split.
    + unfold keys_have_tables. apply forallb_forall. intros k Hk.
      destruct (TableFacts.keys_get k keys Hk) as [v Hv].
      assert (Hc : Dict.contains k keys = true)
        by (unfold Dict.contains; rewrite Hv; reflexivity).
      apply H2 in Hc. destruct (TableFacts.keys_get k d Hc) as [w Hw].
      unfold Dict.contains. rewrite Hw. reflexivity.
    + intros a fields Ha. apply H3, DictFacts.get_In, Ha.
Qed.

End SelectionFacts.

(** X16.  The checkboxes of the sidebar, for a list of arrays and a
    selection without repetitions: afterwards an array of the list is
    selected exactly when its box is checked, an array that is not in
    the list is selected exactly when it was before (the loop never
    drops a selected array it shows no box for), the selection still
    has no repetitions, and the page is run again unless the selection
    is the same list as before. *)
Theorem checkbox_loop_selection (checkbox : string -> bool -> bool)
    (array_fields selected_arrays : list string) (changed : bool) :
  NoDup array_fields -> NoDup selected_arrays ->
  let st := checkbox_loop checkbox array_fields (selected_arrays, changed) in
  NoDup (fst st) /\
  (forall f, In f array_fields ->
     (In f (fst st) <-> checkbox f (Str.mem f selected_arrays) = true)) /\
  (forall f, ~ In f array_fields -> (In f (fst st) <-> In f selected_arrays)) /\
  (snd st = false -> changed = false /\ fst st = selected_arrays).
Proof. apply SelectionFacts.checkbox_loop_spec. Qed.

Lemma checkbox_loop_selection_witness :
  fst (checkbox_loop (fun f _ => String.eqb f "a[].item.b") ["a"]
         (["a"; "a[].item.b"], false)) = ["a[].item.b"] /\
  NoDup (fst (checkbox_loop (fun f _ => String.eqb f "a[].item.b") ["a"]
                (["a"; "a[].item.b"], false))).
Proof.
  split; [reflexivity|].
  apply (checkbox_loop_selection (fun f _ => String.eqb f "a[].item.b") ["a"]
           ["a"; "a[].item.b"] false).
  - constructor; [intros []|constructor].
  - constructor; [intros [H|[]]; discriminate H|].
    constructor; [intros []|constructor].
Defined.

(** X17.  The natural keys of the array tables, when every select box
    returns one of its options: the loop raises nothing, it records a
    key for every table that has a field to offer and for no other
    array, and the key of a table is the path of one of the fields its
    select box offers. *)
Theorem select_keys_offered (selectbox : string -> list string -> string)
    (selected_arrays : list string) (paths : list PathItem) :
  (forall key options, options <> [] -> In (selectbox key options) options) ->
  let tables := array_tables (build_table_hierarchy selected_arrays paths) in
  exists array_natural_keys,
    select_keys selectbox tables = Some array_natural_keys /\
    keys_have_tables array_natural_keys tables = true /\
    forall array_path fields,
      Dict.get array_path tables = Some fields ->
      match field_options array_path fields with
      | [] => Dict.get array_path array_natural_keys = None
      | _ :: _ =>
          exists path,
            Dict.get array_path array_natural_keys = Some path /\
            In path (List.map fst (field_options array_path fields))
      end.
Proof.
  intros Hbox tables.
  apply (SelectionFacts.select_keys_spec selectbox tables Hbox).
  apply TableFacts.build_keys_nodup.
Qed.

Lemma select_keys_offered_witness :
  exists array_natural_keys,
    select_keys (fun _ options => List.hd "" options)
      (array_tables (build_table_hierarchy nested_policy nested_leaves))
      = Some array_natural_keys /\
    keys_have_tables array_natural_keys
      (array_tables (build_table_hierarchy nested_policy nested_leaves)) = true.
Proof.
  destruct (select_keys_offered (fun _ options => List.hd "" options)
              nested_policy nested_leaves) as [keys [H1 [H2 _]]].
  - intros key [|o options] H; [contradiction|left; reflexivity].
  - exists keys. split; assumption.
Defined.


(* ================================================================== *)
(** * The relations between array tables *)
(* ================================================================== *)

Module HierarchyFacts.
Import WalkerFacts NameFacts.

(** ** Splitting and joining *)

Lemma split_dot_nonempty s : split_dot s <> [].
Proof.
  destruct s as [|c tl]; [discriminate|]. simpl.
  destruct (Ascii.eqb c "."); [discriminate|].
  destruct (split_dot tl); discriminate.
Qed.

Lemma join_dot_cons x y l : join_dot (x :: y :: l) = x ++ "." ++ join_dot (y :: l).
Proof. reflexivity. Qed.

Lemma join_split s : join_dot (split_dot s) = s.
Proof.
  induction s as [|c tl IH]; [reflexivity|].
  cbn [split_dot]. destruct (Ascii.eqb c ".") eqn:E.
  - apply Ascii.eqb_eq in E. subst c.
    pose proof (split_dot_nonempty tl) as Hne.
    destruct (split_dot tl) as [|p ps]; [contradiction|].
    rewrite join_dot_cons, IH. reflexivity.
  - pose proof (split_dot_nonempty tl) as Hne.
    destruct (split_dot tl) as [|p ps]; [contradiction|].
    destruct ps as [|p' ps].
    + unfold join_dot in *. cbn [String.concat] in *. rewrite IH. reflexivity.
    + rewrite join_dot_cons. rewrite join_dot_cons in IH.
      cbn [append]. f_equal. exact IH.
Qed.

Lemma join_dot_app l1 l2 :
  l1 <> [] -> l2 <> [] ->
  join_dot (l1 ++ l2) = join_dot l1 ++ "." ++ join_dot l2.
Proof.
  intros H1 H2. induction l1 as [|x l1 IH]; [contradiction|].
  destruct l1 as [|y l1].
  - destruct l2 as [|z l2]; [contradiction|]. reflexivity.
  - change (((x :: y :: l1) ++ l2)%list) with (x :: y :: (l1 ++ l2))%list.
    rewrite join_dot_cons.
    change (y :: (l1 ++ l2))%list with (((y :: l1) ++ l2)%list).
    rewrite IH by discriminate.
    rewrite join_dot_cons, !WalkFacts.append_assoc. reflexivity.
Qed.

(** Every potential parent is the part of the path before one of its
    dots. *)
Lemma potential_parent_dot array_path p :
  In p (potential_parents array_path) -> exists r, array_path = p ++ "." ++ r.
Proof.
  unfold potential_parents. intro H. apply in_map_iff in H.
  destruct H as [i [<- Hi]]. apply in_rev, in_seq in Hi.
  exists (join_dot (skipn i (split_dot array_path))).
  rewrite <- join_dot_app.
  - rewrite firstn_skipn, join_split. reflexivity.
  - intro E. apply (f_equal (@List.length string)) in E.
    rewrite length_firstn in E. simpl in E. lia.
  - intro E. apply (f_equal (@List.length string)) in E.
    rewrite length_skipn in E. simpl in E. lia.
Qed.

(** ** Strings *)

Lemma append_inv_head (a x y : string) : a ++ x = a ++ y -> x = y.
Proof.
  induction a as [|c a IH]; simpl; intro H; [exact H|].
  injection H as H. apply IH, H.
Qed.

Lemma name_split n m t u :
  Str.forallb Str.is_name_char n = true ->
  Str.forallb Str.is_name_char m = true ->
  boundary t = true -> boundary u = true ->
  n ++ t = m ++ u -> n = m.
Proof.
  revert m. induction n as [|a n IH]; intros [|c m] Hn Hm Ht Hu H.
  - reflexivity.
  - exfalso. simpl in H. subst t. simpl in Ht, Hm.
    apply andb_prop in Hm. destruct Hm as [Hc _]. rewrite Hc in Ht. discriminate Ht.
  - exfalso. simpl in H. subst u. simpl in Hu, Hn.
    apply andb_prop in Hn. destruct Hn as [Ha _]. rewrite Ha in Hu. discriminate Hu.
  - simpl in H. injection H as -> H. simpl in Hn, Hm.
    apply andb_prop in Hn. apply andb_prop in Hm.
    rewrite (IH m (proj2 Hn) (proj2 Hm) Ht Hu H). reflexivity.
Qed.

Lemma avro_name_chars n :
  avro_name n = true -> Str.forallb Str.is_name_char n = true /\ n <> "".
Proof.
  destruct n as [|c tl]; [discriminate|]. unfold avro_name. intro H.
  apply andb_prop in H. destruct H as [H Htl].
  apply andb_prop in H. destruct H as [Hc _].
  split; [simpl; rewrite Hc, Htl; reflexivity|discriminate].
Qed.

Lemma boundary_append t u :
  boundary u = true -> u <> "" -> boundary t = true -> boundary (t ++ u) = true.
Proof. destruct t; simpl; [intros H _ _; exact H|intros _ _ H; exact H]. Qed.

Lemma join_name_lead prefix name : join_name prefix name = name_lead prefix ++ name.
Proof.
  unfold join_name, name_lead. destruct (String.eqb prefix ""); [reflexivity|].
  rewrite WalkFacts.append_assoc. reflexivity.
Qed.

Lemma join_name_below prefix name :
  prefix <> "" -> join_name prefix name = prefix ++ "." ++ name.
Proof.
  intro H. unfold join_name. destruct (String.eqb prefix "") eqn:E; [|reflexivity].
  apply String.eqb_eq in E. contradiction.
Qed.

Lemma join_name_nonempty prefix name : name <> "" -> join_name prefix name <> "".
Proof.
  intro H. unfold join_name. destruct (String.eqb prefix "") eqn:E; [exact H|].
  destruct prefix; [discriminate E|discriminate].
Qed.

Lemma append_nonempty (a b : string) : a <> "" -> a ++ b <> "".
Proof. destruct a; [contradiction|discriminate]. Qed.

(** ** Field names *)

Lemma unique_cons n name type field_doc rest :
  unique_field_names (RecordSchema n (mkField name type field_doc :: rest)) =
  negb (Str.mem name (List.map field_name rest))
  && unique_field_names type && unique_field_names (RecordSchema n rest).
Proof. reflexivity. Qed.

Lemma unique_branch schemas t :
  unique_field_names (UnionSchema schemas) = true -> In t schemas ->
  unique_field_names t = true.
Proof.
  intros H Hin. simpl in H.
  induction schemas as [|s rest IH]; [contradiction|].
  apply andb_prop in H. destruct H as [Hs Hrest].
  destruct Hin as [->|Hin]; [exact Hs|apply IH; assumption].
Qed.

Lemma unique_discovery t :
  unique_field_names t = true -> unique_field_names (discovery_type t) = true.
Proof.
  intro H. destruct t; try exact H.
  unfold discovery_type.
  destruct (first_non_null_In (UnionSchema schemas) schemas) as [E|Hin].
  - rewrite E. exact H.
  - apply (unique_branch schemas); assumption.
Qed.

Lemma avro_names_cons n name type field_doc rest :
  avro_names (RecordSchema n (mkField name type field_doc :: rest)) = true ->
  avro_name name = true /\ avro_names type = true /\
  avro_names (RecordSchema n rest) = true.
Proof.
  intro H.
  destruct (avro_names_record n _ H (mkField name type field_doc)
              (or_introl eq_refl)) as [H1 H2].
  split; [exact H1|]. split; [exact H2|].
  apply (avro_names_record_tail n (mkField name type field_doc) rest H).
Qed.

(** ** The shape of a discovered path *)

(** A path reported for a record is the full name of one of its fields,
    followed by nothing, by a dot or by a bracket. *)
Lemma find_shape parent_arrays schema_obj :
  forall prefix q,
    avro_names schema_obj = true ->
    In q (find_array_fields schema_obj prefix parent_arrays) ->
    exists name tail,
      In name (record_field_names schema_obj) /\
      avro_name name = true /\
      q = join_name prefix name ++ tail /\
      boundary tail = true.
Proof.
  induction schema_obj as [s Hs|n|n name type field_doc rest IHt IHrest]
    using WalkFacts.walker_ind; intros prefix q Hnames Hin.
  - destruct s; try contradiction. exfalso. eapply Hs. reflexivity.
  - contradiction.
  - destruct (avro_names_cons _ _ _ _ _ Hnames) as [Hname [Htype Hrest]].
    rewrite find_record_cons in Hin. apply in_app_or in Hin.
    destruct Hin as [Hin|Hin].
    + exists name.
      assert (Hfull : join_name prefix name <> "").
      { apply join_name_nonempty, (avro_name_chars name Hname). }
      assert (Htail : exists tail,
                q = join_name prefix name ++ tail /\ boundary tail = true).
      { pose proof (discovery_type_size type) as Hsize.
        pose proof (avro_names_discovery type Htype) as Hd.
        destruct (discovery_type type) eqn:E; try contradiction.
        - destruct (IHt _ Hsize (join_name prefix name) q Hd Hin)
            as [name' [tail' [_ [_ [Hq _]]]]].
          rewrite (join_name_below _ name' Hfull) in Hq.
          exists ("." ++ name' ++ tail'). split; [|reflexivity].
          rewrite Hq, !WalkFacts.append_assoc. reflexivity.
        - destruct Hin as [<-|Hin].
          + exists "". split; [|reflexivity].
            rewrite HandlerFacts.append_nil_r. reflexivity.
          + destruct (Str.mem (join_name prefix name) parent_arrays);
              [|contradiction].
            assert (Hle : schema_size s <= schema_size type)
              by (simpl in Hsize; lia).
            destruct (IHt s Hle (join_name prefix name ++ array_marker) q Hd Hin)
              as [name' [tail' [_ [_ [Hq _]]]]].
            rewrite (join_name_below _ name' (append_nonempty _ _ Hfull)) in Hq.
            exists (array_marker ++ "." ++ name' ++ tail'). split; [|reflexivity].
            rewrite Hq, !WalkFacts.append_assoc. reflexivity. }
      destruct Htail as [tail [Hq Hb]]. exists tail.
      split; [left; reflexivity|]. split; [exact Hname|]. split; assumption.
    + destruct (IHrest prefix q Hrest Hin) as [name' [tail [H1 [H2 [H3 H4]]]]].
      exists name', tail. split; [right; exact H1|]. split; [exact H2|].
      split; assumption.
Qed.

(** Paths that go through two fields of different names cannot be a
    path and its continuation after a dot. *)
Lemma different_fields prefix name1 tail1 name2 tail2 r :
  avro_name name1 = true -> avro_name name2 = true ->
  boundary tail1 = true -> boundary tail2 = true ->
  join_name prefix name1 ++ tail1 = (join_name prefix name2 ++ tail2) ++ "." ++ r ->
  name1 = name2.
Proof.
  intros H1 H2 B1 B2 E.
  rewrite !join_name_lead, !WalkFacts.append_assoc in E.
  apply append_inv_head in E.
  apply (name_split name1 name2 tail1 (tail2 ++ "." ++ r));
    [apply (avro_name_chars _ H1)|apply (avro_name_chars _ H2)|exact B1| |exact E].
  apply boundary_append; [reflexivity|discriminate|exact B2].
Qed.

Lemma different_fields_rev prefix name1 tail1 name2 tail2 r :
  avro_name name1 = true -> avro_name name2 = true ->
  boundary tail1 = true -> boundary tail2 = true ->
  join_name prefix name2 ++ tail2 = (join_name prefix name1 ++ tail1) ++ "." ++ r ->
  name1 = name2.
Proof.
  intros H1 H2 B1 B2 E. symmetry.
  apply (different_fields prefix name2 tail2 name1 tail1 r); assumption.
Qed.

(** No reported array is the part of another reported array before one
    of its dots. *)
Lemma no_dot_prefix parent_arrays schema_obj :
  forall prefix k k' r,
    avro_names schema_obj = true ->
    unique_field_names schema_obj = true ->
    In k (find_array_fields schema_obj prefix parent_arrays) ->
    In k' (find_array_fields schema_obj prefix parent_arrays) ->
    k = k' ++ "." ++ r -> False.
Proof.
  induction schema_obj as [s Hs|n|n name type field_doc rest IHt IHrest]
    using WalkFacts.walker_ind; intros prefix k k' r Hnames Huniq Hk Hk' E.
  - destruct s; try contradiction. exfalso. eapply Hs. reflexivity.
  - contradiction.
  - destruct (avro_names_cons _ _ _ _ _ Hnames) as [Hname [Htype Hrest]].
    rewrite unique_cons in Huniq.
    apply andb_prop in Huniq. destruct Huniq as [Huniq Hurest].
    apply andb_prop in Huniq. destruct Huniq as [Hfresh Hutype].
    apply negb_true_iff, SelectionFacts.mem_false in Hfresh.
    assert (Hsingle : avro_names (RecordSchema n [mkField name type field_doc])
                      = true).
    { simpl. rewrite Hname, Htype. reflexivity. }
    assert (Hhead : forall q,
              In q (find_array_fields (RecordSchema n [mkField name type field_doc])
                      prefix parent_arrays) ->
              exists tail, q = join_name prefix name ++ tail /\ boundary tail = true).
    { intros q Hq.
      destruct (find_shape parent_arrays _ prefix q Hsingle Hq)
        as [name' [tail [[<-|[]] [_ [H3 H4]]]]].
      exists tail. split; assumption. }
    assert (Hsplit : forall q,
              In q (find_array_fields
                      (RecordSchema n (mkField name type field_doc :: rest))
                      prefix parent_arrays) ->
              In q (find_array_fields (RecordSchema n [mkField name type field_doc])
                      prefix parent_arrays) \/
              In q (find_array_fields (RecordSchema n rest) prefix parent_arrays)).
    { intros q Hq. rewrite find_record_cons in Hq. apply in_app_or in Hq.
      destruct Hq as [Hq|Hq]; [left|right; exact Hq].
      rewrite find_record_cons. apply in_or_app. left. exact Hq. }
    destruct (Hsplit k Hk) as [Hk1|Hk2]; destruct (Hsplit k' Hk') as [Hk1'|Hk2'].
    + (* both under the first field *)
      clear Hhead Hsplit Hk Hk'.
      rewrite find_record_cons in Hk1, Hk1'.
      change (find_array_fields (RecordSchema n []) prefix parent_arrays)
        with (@nil string) in Hk1, Hk1'.
      rewrite app_nil_r in Hk1, Hk1'.
      pose proof (discovery_type_size type) as Hsize.
      pose proof (avro_names_discovery type Htype) as Hd.
      pose proof (unique_discovery type Hutype) as Hu.
      assert (Hfull : join_name prefix name <> "").
      { apply join_name_nonempty, (avro_name_chars name Hname). }
      destruct (discovery_type type) eqn:T; try contradiction.
      * apply (IHt _ Hsize (join_name prefix name) k k' r Hd Hu Hk1 Hk1' E).
      * assert (Hle : schema_size s <= schema_size type)
          by (simpl in Hsize; lia).
        assert (Hinner : forall q,
                  In q (if Str.mem (join_name prefix name) parent_arrays
                        then find_array_fields s
                               (join_name prefix name ++ array_marker) parent_arrays
                        else []) ->
                  exists rest', q = join_name prefix name ++ array_marker ++ rest').
        { intros q Hq.
          destruct (Str.mem (join_name prefix name) parent_arrays); [|contradiction].
          destruct (find_shape parent_arrays s _ q Hd Hq)
            as [name' [tail' [_ [_ [Hq' _]]]]].
          rewrite (join_name_below _ name' (append_nonempty _ _ Hfull)) in Hq'.
          exists ("." ++ name' ++ tail'). rewrite Hq', !WalkFacts.append_assoc.
          reflexivity. }
        destruct Hk1 as [Hk1|Hk1]; destruct Hk1' as [Hk1'|Hk1'].
        -- rewrite <- Hk1, <- Hk1' in E. apply (f_equal String.length) in E.
           rewrite PolicyFacts.append_length in E. simpl in E. lia.
        -- destruct (Hinner k' Hk1') as [rest' E'].
           rewrite <- Hk1, E' in E. apply (f_equal String.length) in E.
           rewrite !PolicyFacts.append_length in E. simpl in E. lia.
        -- destruct (Hinner k Hk1) as [rest' E'].
           rewrite <- Hk1', E' in E.
           apply append_inv_head in E. discriminate E.
        -- destruct (Str.mem (join_name prefix name) parent_arrays);
             [|contradiction].
           apply (IHt s Hle _ k k' r Hd Hu Hk1 Hk1' E).
    + (* the longer path under the first field, the shorter under a later one *)
      destruct (Hhead k Hk1) as [tail1 [E1 B1]].
      destruct (find_shape parent_arrays _ prefix k' Hrest Hk2')
        as [name2 [tail2 [Hin2 [Hn2 [E2 B2]]]]].
      rewrite E1, E2 in E.
      apply Hfresh. simpl in Hin2.
      rewrite (different_fields prefix name tail1 name2 tail2 r Hname Hn2 B1 B2 E).
      exact Hin2.
    + destruct (Hhead k' Hk1') as [tail1 [E1 B1]].
      destruct (find_shape parent_arrays _ prefix k Hrest Hk2)
        as [name2 [tail2 [Hin2 [Hn2 [E2 B2]]]]].
      rewrite E1, E2 in E.
      apply Hfresh. simpl in Hin2.
      rewrite (different_fields_rev prefix name tail1 name2 tail2 r Hname Hn2 B1 B2 E).
      exact Hin2.
    + apply (IHrest prefix k k' r Hrest Hurest Hk2 Hk2' E).
Qed.

End HierarchyFacts.

(** X18.  Take a schema whose field names are Avro names, different
    within each record, and array tables whose keys are arrays that
    Array Discovery reports for it.  Then no array table has a parent in
    [array_hierarchy]: no potential parent, a part of the path before
    one of its dots, is an array table.  So [array_hierarchy] and
    [parent_child_relations] stay empty, whatever the radio buttons
    would return. *)
Theorem hierarchy_finds_no_parent (schema_obj : Schema)
    (tables : Dict.t (list PathItem)) (radio : string -> string) :
  avro_names schema_obj = true ->
  unique_field_names schema_obj = true ->
  (forall k, In k (Dict.keys tables) ->
             exists parent_arrays,
               In k (find_array_fields schema_obj "" parent_arrays)) ->
  (forall k, In k (Dict.keys tables) -> hierarchy_parent tables k = None) /\
  array_hierarchy tables = [] /\
  select_relations radio tables = [].
Proof.
  intros Hnames Huniq Hkeys.
  assert (Hnone : forall k, In k (Dict.keys tables) ->
                            hierarchy_parent tables k = None).
  { intros k Hk. unfold hierarchy_parent.
    destruct (find (fun p => Dict.contains p tables) (potential_parents k))
      as [p|] eqn:F; [exfalso|reflexivity].
    apply find_some in F. destruct F as [Hp Hc].
    destruct (HierarchyFacts.potential_parent_dot k p Hp) as [r E].
    apply DictFacts.contains_keys in Hc.
    destruct (Hkeys k Hk) as [policy1 H1]. destruct (Hkeys p Hc) as [policy2 H2].
    apply (HierarchyFacts.no_dot_prefix (policy1 ++ policy2) schema_obj "" k p r
             Hnames Huniq).
    - apply (DiscoveryFacts.find_array_fields_incl schema_obj "" policy1);
        [apply incl_appl, incl_refl|exact H1].
    - apply (DiscoveryFacts.find_array_fields_incl schema_obj "" policy2);
        [apply incl_appr, incl_refl|exact H2].
    - exact E. }
  assert (Hh : array_hierarchy tables = []).
  { unfold array_hierarchy.
    assert (H : forall l, incl l (Dict.keys tables) ->
              fold_left
                (fun hierarchy array_path =>
                   let parent_array := hierarchy_parent tables array_path in
                   if truthy parent_array then
                     let p := match parent_array with Some p => p | None => "" end in
                     let hierarchy :=
                       if Dict.contains p hierarchy then hierarchy
                       else Dict.set p [] hierarchy in
                     Dict.set p (Dict.get_default p [] hierarchy ++ [ array_path ])%list
                       hierarchy
                   else hierarchy)
                l [] = (@nil (string * list string))).
    { induction l as [|k l IH]; intro Hl; [reflexivity|].
      cbn [fold_left]. rewrite (Hnone k (Hl k (or_introl eq_refl))).
      cbn [truthy]. apply IH. intros y Hy. apply Hl. right. exact Hy. }
    apply H, incl_refl. }
  split; [exact Hnone|]. split; [exact Hh|].
  unfold select_relations. rewrite Hh.
  generalize (Dict.keys tables) as l. clear. intro l.
  induction l as [|k l IH]; [reflexivity|].
  cbn [fold_left]. change (relation_for radio [] k) with (@None Relation).
  exact IH.
Qed.

Lemma hierarchy_finds_no_parent_witness :
  hierarchy_parent (array_tables nested_tables) "a[].item.b" = None /\
  array_hierarchy (array_tables nested_tables) = [] /\
  select_relations (fun _ => "Parent array's key") (array_tables nested_tables) = [].
Proof.
  destruct (hierarchy_finds_no_parent nested_schema (array_tables nested_tables)
              (fun _ => "Parent array's key")) as [H1 [H2 H3]].
  - reflexivity.
  - reflexivity.
  - intros k [<-|[<-|[]]]; exists [ "a" ]; simpl; tauto.
  - split; [apply H1; right; left; reflexivity|]. split; assumption.
Defined.


(* ================================================================== *)
(** * The tree of table relationships *)
(* ================================================================== *)

Module TreeFacts.
Import DictFacts.

(** Two selected arrays that an array lies inside and that are equally
    long are the same array. *)
Lemma same_length_prefix (p q x y : string) :
  p ++ x = q ++ y -> String.length p = String.length q -> p = q.
Proof.
  revert q. induction p as [|c p IH]; intros [|d q] E L; try discriminate L.
  - reflexivity.
  - simpl in E, L. injection E as -> E. rewrite (IH q E) by lia. reflexivity.
Qed.

Lemma candidate_unique array_path p q :
  parent_candidate array_path p = true ->
  parent_candidate array_path q = true ->
  String.length p = String.length q -> p = q.
Proof.
  unfold parent_candidate, under_array, Str.startswith. intros Hp Hq L.
  apply andb_prop in Hp. apply andb_prop in Hq.
  destruct (WalkFacts.prefix_split _ _ (proj2 Hp)) as [r1 E1].
  destruct (WalkFacts.prefix_split _ _ (proj2 Hq)) as [r2 E2].
  rewrite E1, !WalkFacts.append_assoc in E2.
  apply (same_length_prefix p q _ _ E2 L).
Qed.

(** The outcome of the search depends on which arrays are looked at,
    not on their order. *)
Lemma longest_unique array_path l1 l2 st1 st2 :
  (forall x, In x l1 <-> In x l2) ->
  longest_so_far array_path l1 st1 -> longest_so_far array_path l2 st2 ->
  st1 = st2.
Proof.
  intro Hsame.
  destruct st1 as [[|] [p1|]]; destruct st2 as [[|] [p2|]];
    unfold longest_so_far; try contradiction.
  - intros [H1 [C1 M1]] [H2 [C2 M2]].
    assert (L : String.length p1 = String.length p2).
    { pose proof (M1 p2 (proj2 (Hsame p2) H2) C2).
      pose proof (M2 p1 (proj1 (Hsame p1) H1) C1). lia. }
    rewrite (candidate_unique array_path p1 p2 C1 C2 L). reflexivity.
  - intros [H1 [C1 _]] Hnone.
    rewrite (Hnone p1 (proj1 (Hsame p1) H1)) in C1. discriminate C1.
  - intros Hnone [H2 [C2 _]].
    rewrite (Hnone p2 (proj2 (Hsame p2) H2)) in C2. discriminate C2.
  - reflexivity.
Qed.

Lemma immediate_parent_same array_path l1 l2 :
  (forall x, In x l1 <-> In x l2) ->
  immediate_parent l1 array_path = immediate_parent l2 array_path.
Proof.
  intro Hsame.
  apply (longest_unique array_path l1 l2 _ _ Hsame).
  - apply (HandlerFacts.longest_fold array_path l1 [] (false, None)). intros q [].
  - apply (HandlerFacts.longest_fold array_path l2 [] (false, None)). intros q [].
Qed.

(** The loop of the tree and the loop of the handler are the same
    search. *)
Lemma direct_parent_fold array_path l :
  forall st : bool * option string,
    (snd st <> None -> fst st = true) ->
    fold_left
      (fun st potential_parent =>
         let '(is_nested, direct_parent) := st in
         if under_array array_path potential_parent
            && negb (String.eqb array_path potential_parent)
         then
           (true,
            if negb (truthy direct_parent)
               || (String.length (match direct_parent with Some p => p | None => "" end)
                   <? String.length potential_parent)%nat
            then Some potential_parent
            else direct_parent)
         else st)
      l st
    = fold_left
        (fun st potential_parent =>
           let '(is_nested_array, parent_array) := st in
           if negb (String.eqb array_path potential_parent)
              && under_array array_path potential_parent
           then
             if negb (truthy parent_array)
                || (String.length (match parent_array with Some p => p | None => "" end)
                    <? String.length potential_parent)%nat
             then (true, Some potential_parent)
             else st
           else st)
        l st.
Proof.
  induction l as [|x l IH]; intros [b dp] Hflag; [reflexivity|].
  cbn [fold_left]. rewrite (andb_comm (under_array array_path x)).
  destruct (negb (String.eqb array_path x) && under_array array_path x);
    [|apply IH, Hflag].
  destruct (negb (truthy dp)
            || (String.length (match dp with Some p => p | None => "" end)
                <? String.length x)%nat) eqn:Better.
  - apply IH. reflexivity.
  - assert (Hb : b = true).
    { apply Hflag. cbn [snd]. destruct dp; [discriminate|].
      discriminate Better. }
    subst b. apply IH. reflexivity.
Qed.

Lemma build_keys selected paths k :
  In k (Dict.keys (array_tables (build_table_hierarchy selected paths)))
  <-> In k selected.
Proof.
  split.
  - intro H. apply (TableFacts.table_is_selected selected paths).
    destruct (TableFacts.keys_get _ _ H) as [v Hv].
    unfold Dict.contains. rewrite Hv. reflexivity.
  - intro H. apply contains_keys.
    apply PartitionFacts.selected_array_has_table, H.
Qed.

(** ** The two lists of the tree *)

(** The entries of the two lists are the entries of the loop. *)
Lemma table_hierarchy_entries root_table_name tables natural_key_col_name
    array_natural_keys parent_child_relations :
  let classify :=
    classify root_table_name tables natural_key_col_name array_natural_keys
      parent_child_relations in
  let st :=
    table_hierarchy root_table_name tables natural_key_col_name array_natural_keys
      parent_child_relations in
  (forall t, In t (fst st) <->
             exists k, In k (Dict.keys tables) /\ classify k = (false, t)) /\
  (forall t, In t (snd st) <->
             exists k, In k (Dict.keys tables) /\ classify k = (true, t)).
Proof.
  intros cl st. unfold st, table_hierarchy. fold cl.
  assert (H : forall l (init : list TreeNode * list TreeNode),
            let out :=
              fold_left
                (fun (st : list TreeNode * list TreeNode) array_path =>
                   let (level1, level2) := st in
                   let (deep, node) := cl array_path in
                   if deep then (level1, (level2 ++ [ node ])%list)
                   else ((level1 ++ [ node ])%list, level2))
                l init in
            (forall t, In t (fst out) <->
                       In t (fst init) \/ exists k, In k l /\ cl k = (false, t)) /\
            (forall t, In t (snd out) <->
                       In t (snd init) \/ exists k, In k l /\ cl k = (true, t))).
  { induction l as [|x l IH]; intros [l1 l2]; cbv zeta.
    - cbn [fold_left fst snd]. split; intro t; split; try tauto.
      + intros [H|[k [[] _]]]. exact H.
      + intros [H|[k [[] _]]]. exact H.
    - cbn [fold_left]. destruct (cl x) as [[|] node] eqn:C.
      + destruct (IH (l1, (l2 ++ [node])%list)) as [I1 I2]. cbv zeta in I1, I2.
        cbn [fst snd] in I1, I2. split; intro t.
        * rewrite I1. split.
          -- intros [H|[k [Hk E]]]; [left; exact H|].
             right. exists k. split; [right; exact Hk|exact E].
          -- intros [H|[k [[<-|Hk] E]]]; [left; exact H| |].
             ++ rewrite C in E. discriminate E.
             ++ right. exists k. split; assumption.
        * rewrite I2. split.
          -- intros [H|[k [Hk E]]].
             ++ apply in_app_or in H. destruct H as [H|[<-|[]]]; [left; exact H|].
                right. exists x. split; [left; reflexivity|exact C].
             ++ right. exists k. split; [right; exact Hk|exact E].
          -- intros [H|[k [[<-|Hk] E]]].
             ++ left. apply in_or_app. left. exact H.
             ++ rewrite C in E. injection E as <-.
                left. apply in_or_app. right. left. reflexivity.
             ++ right. exists k. split; assumption.
      + destruct (IH ((l1 ++ [node])%list, l2)) as [I1 I2]. cbv zeta in I1, I2.
        cbn [fst snd] in I1, I2. split; intro t.
        * rewrite I1. split.
          -- intros [H|[k [Hk E]]].
             ++ apply in_app_or in H. destruct H as [H|[<-|[]]]; [left; exact H|].
                right. exists x. split; [left; reflexivity|exact C].
             ++ right. exists k. split; [right; exact Hk|exact E].
          -- intros [H|[k [[<-|Hk] E]]].
             ++ left. apply in_or_app. left. exact H.
             ++ rewrite C in E. injection E as <-.
                left. apply in_or_app. right. left. reflexivity.
             ++ right. exists k. split; assumption.
        * rewrite I2. split.
          -- intros [H|[k [Hk E]]]; [left; exact H|].
             right. exists k. split; [right; exact Hk|exact E].
          -- intros [H|[k [[<-|Hk] E]]]; [left; exact H| |].
             ++ rewrite C in E. discriminate E.
             ++ right. exists k. split; assumption. }
  destruct (H (Dict.keys tables) ([], [])) as [H1 H2]. cbv zeta in H1, H2.
  cbn [fst snd] in H1, H2. split; intro t.
  - rewrite H1. split; [intros [[]|H0]; exact H0|intro H0; right; exact H0].
  - rewrite H2. split; [intros [[]|H0]; exact H0|intro H0; right; exact H0].
Qed.

Lemma classify_path root_table_name tables natural_key_col_name array_natural_keys
    parent_child_relations k deep t :
  classify root_table_name tables natural_key_col_name array_natural_keys
    parent_child_relations k = (deep, t) ->
  node_path t = k.
Proof.
  unfold classify.
  destruct (Dict.get k parent_child_relations) as [relation|].
  - destruct (String.eqb (choice relation) "Root table's key"
              || String.eqb (parent relation) "root");
      intro E; injection E as _ <-; reflexivity.
  - destruct (direct_parent tables k) as [is_nested dp].
    destruct (is_nested && truthy dp); intro E; injection E as _ <-; reflexivity.
Qed.

Lemma children_filter level2 table (keep : TreeNode -> bool) :
  (forall c, In c level2 -> keep c = false ->
             node_parent_path c <> Some (node_path table)) ->
  children (List.filter keep level2) table = children level2 table.
Proof.
  intro H. unfold children.
  induction level2 as [|c l IH]; [reflexivity|].
  cbn [List.filter]. destruct (keep c) eqn:K.
  - cbn [List.filter]. rewrite IH; [reflexivity|].
    intros c' Hc'. apply H. right. exact Hc'.
  - rewrite IH by (intros c' Hc'; apply H; right; exact Hc').
    specialize (H c (or_introl eq_refl) K).
    destruct (node_parent_path c) as [p|]; [|reflexivity].
    destruct (String.eqb p (node_path table)) eqn:E; [|reflexivity].
    apply String.eqb_eq in E. subst p. contradiction.
Qed.

Lemma flat_map_same {A B} (f g : A -> list B) l :
  (forall a, In a l -> f a = g a) -> flat_map f l = flat_map g l.
Proof.
  induction l as [|a l IH]; intro H; [reflexivity|].
  cbn [flat_map]. rewrite (H a (or_introl eq_refl)), IH; [reflexivity|].
  intros b Hb. apply H. right. exact Hb.
Qed.

End TreeFacts.

(** X19.  For the tables of [build_table_hierarchy], the search for the
    parent of an array table in the relationship tree, which goes
    through the keys of [array_tables], ends as the search of the DDL
    handler, which goes through [selected_arrays]. *)
Theorem direct_parent_agrees (selected_arrays : list string)
    (paths : list PathItem) (array_path : string) :
  direct_parent (array_tables (build_table_hierarchy selected_arrays paths))
    array_path
  = immediate_parent selected_arrays array_path.
Proof.
  unfold direct_parent.
  rewrite (TreeFacts.direct_parent_fold array_path
             (Dict.keys (array_tables (build_table_hierarchy selected_arrays paths)))
             (false, None)) by (intro H; contradiction H; reflexivity).
  apply (TreeFacts.immediate_parent_same array_path).
  intro x. apply TreeFacts.build_keys.
Qed.

(** X20.  The relationship tree has two levels.  An array table that
    has no explicit relation and whose parent is itself an array table
    with a parent, and without explicit relation, is left out: the page
    is the same as without the entry of that table.  The children of the
    root table and their children are shown. *)
Theorem render_tree_two_levels
    (root_table_name : string) (tables : Dict.t (list PathItem))
    (natural_key_col_name : string) (array_natural_keys : Dict.t string)
    (parent_child_relations : Dict.t Relation)
    (array_path p g : string) :
  Dict.get array_path parent_child_relations = None ->
  direct_parent tables array_path = (true, Some p) ->
  Dict.get p parent_child_relations = None ->
  direct_parent tables p = (true, Some g) ->
  truthy (Some p) = true -> truthy (Some g) = true ->
  let (level1, level2) :=
    table_hierarchy root_table_name tables natural_key_col_name array_natural_keys
      parent_child_relations in
  render_tree level1 level2
  = render_tree level1
      (List.filter (fun t => negb (String.eqb (node_path t) array_path)) level2) /\
  (forall t, In t level1 -> In (node_html t) (render_tree level1 level2)) /\
  (forall t c, In t level1 -> In c level2 ->
               node_parent_path c = Some (node_path t) ->
               In (child_html c) (render_tree level1 level2)).
Proof.
  intros Ra Da Rp Dp Tp Tg.
  pose proof (TreeFacts.table_hierarchy_entries root_table_name tables
                natural_key_col_name array_natural_keys parent_child_relations)
    as H. cbv zeta in H.
  destruct (table_hierarchy root_table_name tables natural_key_col_name
              array_natural_keys parent_child_relations) as [level1 level2].
  cbn [fst snd] in H. destruct H as [H1 H2].
  assert (Cp : fst (classify root_table_name tables natural_key_col_name
                      array_natural_keys parent_child_relations p) = true).
  { unfold classify. rewrite Rp, Dp, Tg. reflexivity. }
  assert (Ca : forall deep t,
             classify root_table_name tables natural_key_col_name
               array_natural_keys parent_child_relations array_path = (deep, t) ->
             node_parent_path t = Some p).
  { unfold classify. rewrite Ra, Da, Tp. cbn [andb].
    intros deep t E. injection E as _ <-. reflexivity. }
  split; [|split].
  - unfold render_tree. apply TreeFacts.flat_map_same. intros t Ht.
    rewrite TreeFacts.children_filter; [reflexivity|].
    intros c Hc Hkeep E.
    apply negb_false_iff, String.eqb_eq in Hkeep.
    apply H2 in Hc. destruct Hc as [k [_ Ck]].
    pose proof (TreeFacts.classify_path _ _ _ _ _ _ _ _ Ck) as Pk.
    rewrite Hkeep in Pk. subst k.
    rewrite (Ca _ _ Ck) in E. injection E as E.
    apply H1 in Ht. destruct Ht as [k' [_ Ck']].
    pose proof (TreeFacts.classify_path _ _ _ _ _ _ _ _ Ck') as Pk'.
    rewrite <- E in Pk'. subst k'. rewrite Ck' in Cp. discriminate Cp.
  - intros t Ht. unfold render_tree. apply in_flat_map. exists t.
    split; [exact Ht|left; reflexivity].
  - intros t c Ht Hc E. unfold render_tree. apply in_flat_map. exists t.
    split; [exact Ht|]. right. apply in_or_app. left.
    apply in_map. unfold children. apply filter_In. split; [exact Hc|].
    rewrite E. apply String.eqb_refl.
Qed.


Lemma render_tree_two_levels_witness :
  let tables := array_tables (build_table_hierarchy deep_policy deep_leaves) in
  let tree := table_hierarchy "t" tables "id" [] [] in
  direct_parent tables "a[].item.b[].item.c" = (true, Some "a[].item.b") /\
  direct_parent tables "a[].item.b" = (true, Some "a") /\
  render_tree (fst tree) (snd tree)
  = render_tree (fst tree)
      (List.filter
         (fun t => negb (String.eqb (node_path t) "a[].item.b[].item.c"))
         (snd tree)).
Proof.
  cbv zeta. split; [reflexivity|]. split; [reflexivity|].
  pose proof (render_tree_two_levels "t"
                (array_tables (build_table_hierarchy deep_policy deep_leaves))
                "id" [] [] "a[].item.b[].item.c" "a[].item.b" "a"
                eq_refl eq_refl eq_refl eq_refl eq_refl eq_refl) as H.
  destruct (table_hierarchy "t"
              (array_tables (build_table_hierarchy deep_policy deep_leaves))
              "id" [] []) as [level1 level2].
  exact (proj1 H).
Defined.

Module TreeDDLFacts.
Import DictFacts DDLFacts.

Lemma prefix_needs_dot p s :
  Str.forallb (fun c => negb (Ascii.eqb c ".")) s = true ->
  String.prefix (p ++ ".") s = false.
Proof.
  revert s. induction p as [|a p IH]; intros [|c tl] H; try reflexivity.
  - cbn [Str.forallb] in H. apply andb_prop in H. destruct H as [Hc _].
    cbn [append String.prefix].
    destruct (ascii_dec "." c) as [E|_]; [|reflexivity].
    subst c. cbv in Hc. discriminate Hc.
  - cbn [Str.forallb] in H. apply andb_prop in H. destruct H as [_ Htl].
    cbn [append String.prefix].
    destruct (ascii_dec a c); [apply IH, Htl|reflexivity].
Qed.

Lemma replace_no_dot s p new :
  Str.forallb (fun c => negb (Ascii.eqb c ".")) s = true ->
  Str.replace s (p ++ ".") new = s.
Proof.
  unfold Str.replace. induction s as [|c tl IH]; intro H; [reflexivity|].
  cbn [Str.replace_from]. rewrite (prefix_needs_dot p _ H).
  cbn [Str.forallb] in H. apply andb_prop in H. rewrite (IH (proj2 H)).
  reflexivity.
Qed.

Lemma direct_parent_build selected paths array_path :
  direct_parent (array_tables (build_table_hierarchy selected paths)) array_path
  = immediate_parent selected array_path.
Proof.
  unfold direct_parent.
  rewrite (TreeFacts.direct_parent_fold array_path
             (Dict.keys (array_tables (build_table_hierarchy selected paths)))
             (false, None)) by (intro H; contradiction H; reflexivity).
  apply (TreeFacts.immediate_parent_same array_path).
  intro x. apply TreeFacts.build_keys.
Qed.

(** ** The statements of the array tables *)

Section Statements.

Variable root_table_name : string.
Variable common_fields_list : list (string * string).
Variable selected_arrays : list string.
Variable root_fields : list PathItem.
Variable tables : Dict.t (list PathItem).
Variable natural_key : option string.
Variable array_natural_keys : Dict.t string.
Variable parent_child_relations : Dict.t Relation.

Lemma array_table_name array_path fields t :
  array_table root_table_name common_fields_list selected_arrays root_fields tables
    natural_key array_natural_keys parent_child_relations array_path fields = Some t ->
  fst t = root_table_name ++ "_" ++ get_column_name array_path.
Proof.
  unfold array_table.
  destruct (foreign_key_column root_table_name selected_arrays root_fields tables
              natural_key array_natural_keys parent_child_relations array_path);
    [|discriminate].
  destruct (natural_key_columns array_natural_keys array_path fields);
    [|discriminate].
  destruct (for_each (data_column array_path)
              (data_fields array_natural_keys array_path fields)); [|discriminate].
  cbn [bind]. intro E. injection E as <-. reflexivity.
Qed.

(** The loop over a part of [array_tables], from the statements
    [ddls]. *)
Lemma statements_fold entries :
  forall ddls ddls',
    fold_left
      (fun acc entry =>
         ddls0 <- acc ;;
         t <- array_table root_table_name common_fields_list selected_arrays
                root_fields tables natural_key array_natural_keys
                parent_child_relations (fst entry) (snd entry) ;;
         Some (Dict.set (fst t) (render_ddl (fst t) (snd t)) ddls0))
      entries (Some ddls) = Some ddls' ->
    NoDup (Dict.keys ddls) ->
    NoDup (Dict.keys ddls') /\
    (forall name, In name (Dict.keys ddls') <->
       In name (Dict.keys ddls) \/
       exists entry, In entry entries /\
                     name = root_table_name ++ "_" ++ get_column_name (fst entry)) /\
    (forall name,
       (forall entry, In entry entries ->
          name <> root_table_name ++ "_" ++ get_column_name (fst entry)) ->
       Dict.get name ddls' = Dict.get name ddls) /\
    (forall before array_path fields after t,
       entries = (before ++ (array_path, fields) :: after)%list ->
       (forall entry, In entry after ->
          get_column_name (fst entry) <> get_column_name array_path) ->
       array_table root_table_name common_fields_list selected_arrays
         root_fields tables natural_key array_natural_keys
         parent_child_relations array_path fields = Some t ->
       Dict.get (fst t) ddls' = Some (render_ddl (fst t) (snd t))).
Proof.
  induction entries as [|[a fields] entries IH]; intros ddls ddls' Hfold Hnd.
  - cbn [fold_left] in Hfold. injection Hfold as <-.
    split; [exact Hnd|]. split; [|split].
    + intro name. split; [intro H; left; exact H|].
      intros [H|[entry [[] _]]]. exact H.
    + reflexivity.
    + intros [|? ?] ? ? ? ? E; discriminate E.
  - cbn [fold_left bind fst snd] in Hfold.
    destruct (array_table root_table_name common_fields_list selected_arrays
                root_fields tables natural_key array_natural_keys
                parent_child_relations a fields) as [t|] eqn:T.
    + pose proof (array_table_name a fields t T) as Hname.
      destruct (IH _ ddls' Hfold (TableFacts.set_keys_nodup _ _ _ Hnd))
        as [I1 [I2 [I3 I4]]].
      split; [exact I1|]. split; [|split].
      * intro name. rewrite I2, TableFacts.set_keys.
        split.
        -- intros [H|[entry [He E]]].
           ++ destruct (Dict.contains (fst t) ddls); [left; exact H|].
              apply in_app_or in H. destruct H as [H|[<-|[]]]; [left; exact H|].
              right. exists (a, fields). split; [left; reflexivity|exact Hname].
           ++ right. exists entry. split; [right; exact He|exact E].
        -- intros [H|[entry [[<-|He] E]]].
           ++ left. destruct (Dict.contains (fst t) ddls); [exact H|].
              apply in_or_app. left. exact H.
           ++ left. cbn [fst] in E. rewrite <- Hname in E. subst name.
              destruct (Dict.contains (fst t) ddls) eqn:C.
              ** apply contains_keys, C.
              ** apply in_or_app. right. left. reflexivity.
           ++ right. exists entry. split; assumption.
      * intros name Hfresh. rewrite I3.
        -- apply get_set_other. rewrite Hname.
           apply (Hfresh (a, fields)). left. reflexivity.
        -- intros entry He. apply Hfresh. right. exact He.
      * intros before array_path fields' after t' E Hafter T'.
        destruct before as [|b before].
        -- cbn [app] in E. injection E as -> -> ->.
           rewrite T in T'. injection T' as <-.
           rewrite I3; [apply get_set_same|].
           intros entry He. rewrite Hname. intro Eq.
           apply (Hafter entry He).
           apply HierarchyFacts.append_inv_head in Eq. simpl in Eq.
           injection Eq as Eq. symmetry. exact Eq.
        -- cbn [app] in E. injection E as _ Ee.
           apply (I4 before array_path fields' after t' Ee Hafter T').
    + exfalso. clear -Hfold.
      induction entries as [|e entries IHe]; [discriminate Hfold|].
      cbn [fold_left bind] in Hfold. apply IHe, Hfold.
Qed.

End Statements.

End TreeDDLFacts.

(** X21.  The relationship tree against the DDL, for the tables of
    [build_table_hierarchy] and an array table without explicit
    relation.  When the DDL binds the table to the table of an array,
    the tree shows it under that array with the name of the foreign-key
    column of the DDL.  When the DDL binds it to the root table, the
    foreign-key column has the name of the root key, and the tree either
    shows the table under the root with that name, or, when the table
    lies inside a selected array that has no natural key, under that
    array with the column "unknown". *)
Theorem tree_against_ddl
    (root_table_name : string) (selected_arrays : list string)
    (paths : list PathItem) (natural_key : option string)
    (array_natural_keys : Dict.t string)
    (parent_child_relations : Dict.t Relation) (array_path : string) :
  let ts := build_table_hierarchy selected_arrays paths in
  let key_column := natural_key_col_name (root_table ts) natural_key in
  let node :=
    snd (classify root_table_name (array_tables ts) key_column array_natural_keys
           parent_child_relations array_path) in
  Dict.get array_path parent_child_relations = None ->
  exists column,
    foreign_key_column root_table_name selected_arrays (root_table ts)
      (array_tables ts) natural_key array_natural_keys parent_child_relations
      array_path = Some column /\
    match fk_binding selected_arrays array_natural_keys parent_child_relations
            array_path with
    | Some p =>
        node_parent_path node = Some p /\
        node_fk node
        = fk_text (col_name column) (root_table_name ++ "_" ++ get_column_name p) /\
        col_comment column
        = fk_comment (root_table_name ++ "_" ++ get_column_name p)
    | None =>
        col_name column = key_column /\
        col_comment column = fk_comment root_table_name /\
        match node_parent_path node with
        | None => node_fk node = fk_text key_column root_table_name
        | Some p =>
            In p selected_arrays /\
            Dict.contains p array_natural_keys = false /\
            node_fk node
            = fk_text "unknown" (root_table_name ++ "_" ++ get_column_name p)
        end
    end.
Proof.
  intros ts key_column node Hrel.
  rewrite DDLFacts.foreign_key_column_binding.
  unfold node, classify, fk_binding. rewrite Hrel.
  pose proof (TreeDDLFacts.direct_parent_build selected_arrays paths array_path)
    as Hdp.
  fold ts in Hdp. rewrite Hdp. clear Hdp.
  pose proof (DDLFacts.immediate_parent_selected selected_arrays array_path) as Hsel.
  destruct (immediate_parent selected_arrays array_path) as [is_nested dp].
  assert (Hroot : exists column,
            root_fk root_table_name (root_table ts) natural_key = Some column /\
            col_name column = key_column /\
            col_comment column = fk_comment root_table_name).
  { unfold root_fk. fold key_column.
    destruct (find_field (root_table ts) natural_key) as [info|].
    - destruct (DDLFacts.avro_to_hive_type_total info) as [t ->]. cbn [bind].
      eexists. split; [reflexivity|]. split; reflexivity.
    - eexists. split; [reflexivity|]. split; reflexivity. }
  destruct (is_nested && truthy dp) eqn:N.
  - destruct dp as [p|]; [|rewrite andb_false_r in N; discriminate N].
    specialize (Hsel is_nested p eq_refl).
    cbn [andb snd]. destruct (Dict.contains p array_natural_keys) eqn:C.
    + destruct (DictFacts.contains_get _ _ C) as [key Hkey].
      destruct (DictFacts.contains_get _ _
                  (PartitionFacts.selected_array_has_table selected_arrays paths p
                     Hsel)) as [fields Hfields].
      unfold parent_array_fk. fold ts in Hfields. rewrite Hkey, Hfields.
      cbn [bind]. unfold level2_node, Dict.get_default. rewrite Hkey.
      destruct (find_field fields (Some key)) as [info|].
      * destruct (DDLFacts.avro_to_hive_type_total info) as [t ->]. cbn [bind].
        eexists. split; [reflexivity|]. repeat split.
      * eexists. split; [reflexivity|]. repeat split.
    + destruct Hroot as [column [H1 [H2 H3]]]. exists column.
      split; [exact H1|]. split; [exact H2|]. split; [exact H3|].
      cbn [node_parent_path level2_node]. split; [exact Hsel|].
      split; [exact C|].
      unfold level2_node, Dict.get_default. cbn [node_fk].
      unfold Dict.contains in C.
      destruct (Dict.get p array_natural_keys); [discriminate C|].
      rewrite (TreeDDLFacts.replace_no_dot "unknown" p "" eq_refl). reflexivity.
  - cbn [andb snd]. destruct Hroot as [column [H1 [H2 H3]]]. exists column.
    split; [exact H1|]. split; [exact H2|]. split; [exact H3|]. reflexivity.
Qed.

Lemma tree_against_ddl_witness :
  exists column,
    foreign_key_column "t" nested_policy (root_table nested_tables)
      (array_tables nested_tables) (Some "id") nested_keys [] "a[].item.b"
    = Some column /\
    node_fk
      (snd (classify "t" (array_tables nested_tables)
              (natural_key_col_name (root_table nested_tables) (Some "id"))
              nested_keys [] "a[].item.b"))
    = fk_text (col_name column) "t_a".
Proof.
  destruct (tree_against_ddl "t" nested_policy nested_leaves (Some "id") nested_keys
              [] "a[].item.b" eq_refl) as [column [H1 H2]].
  exists column. split; [exact H1|]. exact (proj1 (proj2 H2)).
Defined.

(** X22.  The statements of the array tables are kept by table name.
    When the loop ends, there is one statement for every table name and
    no two statements have the same name; the statement under a name is
    the one of the last array table with that name.  So of two arrays
    whose names give the same column name only the later one has a
    statement. *)
Theorem array_ddls_by_name
    (root_table_name : string) (common_fields_list : list (string * string))
    (selected_arrays : list string) (root_fields : list PathItem)
    (tables : Dict.t (list PathItem)) (natural_key : option string)
    (array_natural_keys : Dict.t string) (parent_child_relations : Dict.t Relation)
    (ddls : Dict.t string) :
  array_ddls root_table_name common_fields_list selected_arrays root_fields tables
    natural_key array_natural_keys parent_child_relations = Some ddls ->
  NoDup (Dict.keys ddls) /\
  (forall name,
     In name (Dict.keys ddls) <->
     exists array_path,
       In array_path (Dict.keys tables) /\
       name = root_table_name ++ "_" ++ get_column_name array_path) /\
  (forall before array_path fields after t,
     tables = (before ++ (array_path, fields) :: after)%list ->
     (forall entry, In entry after ->
        get_column_name (fst entry) <> get_column_name array_path) ->
     array_table root_table_name common_fields_list selected_arrays root_fields
       tables natural_key array_natural_keys parent_child_relations
       array_path fields = Some t ->
     Dict.get (root_table_name ++ "_" ++ get_column_name array_path) ddls
     = Some (render_ddl (fst t) (snd t))).
Proof.
  intro H. unfold array_ddls in H.
  destruct (TreeDDLFacts.statements_fold root_table_name common_fields_list
              selected_arrays root_fields tables natural_key array_natural_keys
              parent_child_relations tables [] ddls H (NoDup_nil _))
    as [H1 [H2 [_ H4]]].
  split; [exact H1|]. split.
  - intro name. rewrite H2. split.
    + intros [[]|[entry [He E]]]. exists (fst entry). split; [|exact E].
      unfold Dict.keys. apply in_map, He.
    + intros [array_path [Ha E]]. right. unfold Dict.keys in Ha.
      apply in_map_iff in Ha. destruct Ha as [entry [<- He]].
      exists entry. split; assumption.
  - intros before array_path fields after t E Hafter T.
    rewrite <- (TreeDDLFacts.array_table_name root_table_name common_fields_list
                  selected_arrays root_fields tables natural_key array_natural_keys
                  parent_child_relations array_path fields t T).
    apply (H4 before array_path fields after t E Hafter T).
Qed.

Lemma array_ddls_by_name_witness :
  exists ddls,
    array_ddls "t" [] nested_policy (root_table nested_tables)
      (array_tables nested_tables) (Some "id") nested_keys [] = Some ddls /\
    NoDup (Dict.keys ddls).
Proof.
  eexists. split; [reflexivity|].
  eapply (array_ddls_by_name "t" [] nested_policy (root_table nested_tables)
            (array_tables nested_tables) (Some "id") nested_keys []).
  reflexivity.
Defined.


(* ================================================================== *)
(** * The page as a whole *)
(* ================================================================== *)

Module PageFacts.
Import DictFacts DDLFacts.

(** The handler returns whenever natural keys are recorded for array
    tables only. *)
Lemma generate_ddl_returns
    (root_table_name : string) (common_fields_list : list (string * string))
    (selected_arrays : list string) (root_fields : list PathItem)
    (tables : Dict.t (list PathItem)) (natural_key : option string)
    (array_natural_keys : Dict.t string) (parent_child_relations : Dict.t Relation) :
  keys_have_tables array_natural_keys tables = true ->
  exists ddl,
    generate_ddl root_table_name common_fields_list selected_arrays root_fields
      tables natural_key array_natural_keys parent_child_relations = Some ddl.
Proof.
  intro Hkeys.
  assert (Htable : forall p, Dict.contains p array_natural_keys = true ->
                             Dict.contains p tables = true).
  { intros p Hp. unfold keys_have_tables in Hkeys.
    rewrite forallb_forall in Hkeys. apply Hkeys, contains_keys, Hp. }
  assert (Hfk : forall array_path, exists column,
            foreign_key_column root_table_name selected_arrays root_fields tables
              natural_key array_natural_keys parent_child_relations array_path
            = Some column).
  { intro array_path. rewrite foreign_key_column_binding.
    destruct (fk_binding selected_arrays array_natural_keys parent_child_relations
                array_path) as [p|] eqn:Hb.
    - pose proof (fk_binding_parent _ _ _ _ _ Hb) as Hp.
      apply parent_array_fk_total; [exact Hp|apply Htable, Hp].
    - apply root_fk_total. }
  unfold generate_ddl.
  destruct (root_table_columns_total common_fields_list root_fields)
    as [root_columns ->].
  cbn [bind].
  assert (Hall : exists ddls,
            array_ddls root_table_name common_fields_list selected_arrays
              root_fields tables natural_key array_natural_keys
              parent_child_relations = Some ddls).
  { unfold array_ddls.
    apply (fold_left_invariant
             (fun acc : option (Dict.t string) => exists ddls, acc = Some ddls)).
    - intros acc entry [ddls ->]. cbn [bind].
      destruct (array_table_total root_table_name common_fields_list
                  selected_arrays root_fields tables natural_key
                  array_natural_keys parent_child_relations (fst entry) (snd entry)
                  (Hfk (fst entry))) as [t ->].
      cbn [bind]. eauto.
    - eauto. }
  destruct Hall as [ddls ->]. cbn [bind]. eauto.
Qed.

End PageFacts.

(** X23.  The DDL tab as a whole, on a schema that is a finite tree of
    types (on a named type that refers to itself the walk of the source
    does not end, and the page has nothing).  For any selection of
    arrays, select boxes that return one of their options and any radio
    buttons, any table name and common fields: the page raises exactly
    when the walk comes to a union without branches; otherwise the
    walk, the key selection and the handler all return, and the page
    has its statements.  So it has them for every schema without empty
    unions. *)
Theorem ddl_page_returns (schema : Schema) (selected_arrays : list string)
    (selectbox : string -> list string -> string) (radio : string -> string)
    (root_table_name : string) (common_fields_list : list (string * string)) :
  (forall key options, options <> [] -> In (selectbox key options) options) ->
  (ddl_page schema selected_arrays selectbox radio root_table_name
     common_fields_list = None <->
   meets_empty_union schema "" selected_arrays = true) /\
  (meets_empty_union schema "" selected_arrays = false ->
   exists root_ddl array_ddls,
     ddl_page schema selected_arrays selectbox radio root_table_name
       common_fields_list = Some (root_ddl, array_ddls)) /\
  (no_empty_union schema = true ->
   exists root_ddl array_ddls,
     ddl_page schema selected_arrays selectbox radio root_table_name
       common_fields_list = Some (root_ddl, array_ddls)).
Proof.
  intro Hbox.
  assert (Hret : meets_empty_union schema "" selected_arrays = false ->
            exists root_ddl array_ddls,
              ddl_page schema selected_arrays selectbox radio root_table_name
                common_fields_list = Some (root_ddl, array_ddls)).
  { intro Hno. unfold ddl_page.
    destruct (WalkFacts.walker_returns_when schema "" selected_arrays true Hno)
      as [flat_paths ->].
    cbn [bind].
    destruct (SelectionFacts.select_keys_spec selectbox
                (array_tables (build_table_hierarchy selected_arrays flat_paths))
                Hbox (TableFacts.build_keys_nodup selected_arrays flat_paths))
      as [array_natural_keys [-> [Hkeys _]]].
    cbn [bind].
    destruct (PageFacts.generate_ddl_returns root_table_name common_fields_list
                selected_arrays
                (root_table (build_table_hierarchy selected_arrays flat_paths))
                (array_tables (build_table_hierarchy selected_arrays flat_paths))
                (select_root_key selectbox
                   (root_table (build_table_hierarchy selected_arrays flat_paths)))
                array_natural_keys
                (select_relations radio
                   (array_tables (build_table_hierarchy selected_arrays flat_paths)))
                Hkeys) as [[root_ddl array_ddls] H].
    exists root_ddl, array_ddls. exact H. }
  split; [|split].
  - split.
    + intro Hnone.
      destruct (meets_empty_union schema "" selected_arrays) eqn:E; [reflexivity|].
      destruct (Hret eq_refl) as [root_ddl [array_ddls H]].
      rewrite H in Hnone. discriminate Hnone.
    + intro Hmeets.
      apply (WalkFacts.walker_raises schema "" selected_arrays true) in Hmeets.
      unfold ddl_page. rewrite Hmeets. reflexivity.
  - exact Hret.
  - intro Hok. apply Hret, WalkFacts.meets_none, Hok.
Qed.

Lemma ddl_page_returns_witness :
  no_empty_union nested_schema = true /\
  exists root_ddl array_ddls,
    ddl_page nested_schema nested_policy (fun _ options => List.hd "" options)
      (fun _ => "Root table's key") "t" [] = Some (root_ddl, array_ddls).
Proof.
  split; [reflexivity|].
  apply (ddl_page_returns nested_schema nested_policy
           (fun _ options => List.hd "" options) (fun _ => "Root table's key")
           "t" []).
  - intros key [|o options] H; [contradiction|left; reflexivity].
  - reflexivity.
Defined.

(** X24.  The two buttons and the checkboxes together, for a list of
    arrays and a selection without repetitions.  After "Select All" an
    array of the list is selected exactly when its checkbox, drawn
    checked, returns True; after "Deselect All", exactly when its
    checkbox, drawn unchecked, returns True.  Either button drops every
    selected array that is not in the list, and makes the page run
    again. *)
Theorem update_selection_buttons (select_all deselect_all : bool)
    (checkbox : string -> bool -> bool)
    (array_fields selected_arrays : list string) :
  NoDup array_fields -> NoDup selected_arrays ->
  let start :=
    if deselect_all then []
    else if select_all then array_fields else selected_arrays in
  let st :=
    update_selection select_all deselect_all checkbox array_fields
      selected_arrays in
  NoDup (fst st) /\
  (forall f, In f array_fields ->
     (In f (fst st) <-> checkbox f (Str.mem f start) = true)) /\
  (forall f, ~ In f array_fields ->
     (In f (fst st) <->
      select_all = false /\ deselect_all = false /\ In f selected_arrays)) /\
  (select_all || deselect_all = true -> snd st = true).
Proof.
  intros Hfields Hsel start st. unfold st, update_selection, start.
  destruct deselect_all; [|destruct select_all].
  - pose proof (SelectionFacts.checkbox_loop_spec checkbox array_fields [] true
                  Hfields (NoDup_nil _)) as H.
    cbv zeta in H. destruct H as [H1 [H2 [H3 H4]]].
    split; [exact H1|]. split; [exact H2|]. split.
    + intros f Hf. rewrite (H3 f Hf). split; [intros []|intros [_ [E' _]]].
      discriminate E'.
    + intros _.
      destruct (snd (checkbox_loop checkbox array_fields ([], true))) eqn:S;
        [reflexivity|].
      destruct (H4 eq_refl) as [E' _]. discriminate E'.
  - pose proof (SelectionFacts.checkbox_loop_spec checkbox array_fields array_fields
                  true Hfields Hfields) as H.
    cbv zeta in H. destruct H as [H1 [H2 [H3 H4]]].
    split; [exact H1|]. split; [exact H2|]. split.
    + intros f Hf. rewrite (H3 f Hf). split; [intro H; contradiction|].
      intros [E' _]. discriminate E'.
    + intros _.
      destruct (snd (checkbox_loop checkbox array_fields (array_fields, true)))
        eqn:S; [reflexivity|].
      destruct (H4 eq_refl) as [E' _]. discriminate E'.
  - pose proof (SelectionFacts.checkbox_loop_spec checkbox array_fields
                  selected_arrays false Hfields Hsel) as H.
    cbv zeta in H. destruct H as [H1 [H2 [H3 H4]]].
    split; [exact H1|]. split; [exact H2|]. split.
    + intros f Hf. rewrite (H3 f Hf). tauto.
    + intro E'. discriminate E'.
Qed.

Lemma update_selection_buttons_witness :
  fst (update_selection true false (fun _ value => value) ["a"]
         ["a[].item.b"]) = ["a"] /\
  snd (update_selection true false (fun _ value => value) ["a"]
         ["a[].item.b"]) = true.
Proof.
  split; [reflexivity|].
  apply (update_selection_buttons true false (fun _ value => value) ["a"]
           ["a[].item.b"]).
  - constructor; [intros []|constructor].
  - constructor; [intros []|constructor].
  - reflexivity.
Defined.


(* ================================================================== *)
(** * The sidebar over the runs of the page *)
(* ================================================================== *)

Module SidebarFacts.
Import WalkerFacts NameFacts HierarchyFacts.

(** Paths that go through two fields of different names are
    different. *)
Lemma different_names prefix name1 tail1 name2 tail2 :
  avro_name name1 = true -> avro_name name2 = true ->
  boundary tail1 = true -> boundary tail2 = true ->
  join_name prefix name1 ++ tail1 = join_name prefix name2 ++ tail2 ->
  name1 = name2.
Proof.
  intros H1 H2 B1 B2 E.
  rewrite !join_name_lead, !WalkFacts.append_assoc in E.
  apply append_inv_head in E.
  apply (name_split name1 name2 tail1 tail2);
    [apply (avro_name_chars _ H1)|apply (avro_name_chars _ H2)
    |exact B1|exact B2|exact E].
Qed.

(** Array Discovery reports no array twice. *)
Lemma find_array_fields_nodup parent_arrays schema_obj :
  forall prefix,
    avro_names schema_obj = true ->
    unique_field_names schema_obj = true ->
    NoDup (find_array_fields schema_obj prefix parent_arrays).
Proof.
  induction schema_obj as [s Hs|n|n name type field_doc rest IHt IHrest]
    using WalkFacts.walker_ind; intros prefix Hnames Huniq.
  - destruct s; try constructor. exfalso. eapply Hs. reflexivity.
  - constructor.
  - destruct (avro_names_cons _ _ _ _ _ Hnames) as [Hname [Htype Hrest]].
    rewrite unique_cons in Huniq.
    apply andb_prop in Huniq. destruct Huniq as [Huniq Hurest].
    apply andb_prop in Huniq. destruct Huniq as [Hfresh Hutype].
    apply negb_true_iff, SelectionFacts.mem_false in Hfresh.
    assert (Hsingle : avro_names (RecordSchema n [mkField name type field_doc])
                      = true).
    { simpl. rewrite Hname, Htype. reflexivity. }
    pose proof (find_record_cons n name type field_doc [] prefix parent_arrays)
      as Hone.
    change (find_array_fields (RecordSchema n []) prefix parent_arrays)
      with (@nil string) in Hone.
    rewrite app_nil_r in Hone.
    rewrite find_record_cons, <- Hone.
    apply NoDup_app.
    + rewrite Hone.
      pose proof (discovery_type_size type) as Hsize.
      pose proof (avro_names_discovery type Htype) as Hd.
      pose proof (unique_discovery type Hutype) as Hu.
      assert (Hfull : join_name prefix name <> "").
      { apply join_name_nonempty, (avro_name_chars name Hname). }
      destruct (discovery_type type) eqn:T; try constructor.
      * apply (IHt _ Hsize (join_name prefix name) Hd Hu).
      * destruct (Str.mem (join_name prefix name) parent_arrays); [|intros []].
        intro Hin.
        destruct (find_shape parent_arrays s _ _ Hd Hin)
          as [name' [tail' [_ [_ [Hq _]]]]].
        rewrite (join_name_below _ name' (append_nonempty _ _ Hfull)) in Hq.
        apply (f_equal String.length) in Hq.
        rewrite !PolicyFacts.append_length in Hq. simpl in Hq. lia.
      * destruct (Str.mem (join_name prefix name) parent_arrays); [|constructor].
        apply IHt; [simpl in Hsize; lia|exact Hd|exact Hu].
    + apply (IHrest prefix Hrest Hurest).
    + intros q Hq1 Hq2.
      destruct (find_shape parent_arrays _ prefix q Hsingle Hq1)
        as [name1 [tail1 [[<-|[]] [_ [E1 B1]]]]].
      destruct (find_shape parent_arrays _ prefix q Hrest Hq2)
        as [name2 [tail2 [Hin2 [Hn2 [E2 B2]]]]].
      rewrite E1 in E2.
      apply Hfresh. simpl in Hin2.
      rewrite (different_names prefix name tail1 name2 tail2 Hname Hn2 B1 B2 E2).
      exact Hin2.
Qed.

(** What the checkboxes can put into the selection. *)
Lemma checkbox_loop_members checkbox array_fields :
  forall st f,
    In f (fst (checkbox_loop checkbox array_fields st)) ->
    In f (fst st) \/ In f array_fields.
Proof.
  unfold checkbox_loop.
  induction array_fields as [|x l IH]; intros [selected changed] f H.
  - left. exact H.
  - cbn [fold_left] in H. apply IH in H. destruct H as [H|H]; [|right; right; exact H].
    unfold checkbox_step in H.
    destruct (checkbox x (Str.mem x selected)).
    + destruct (negb (Str.mem x selected)); [|left; exact H].
      cbn [fst] in H. apply in_app_or in H.
      destruct H as [H|[<-|[]]]; [left; exact H|right; left; reflexivity].
    + destruct (Str.mem x selected); [|left; exact H].
      cbn [fst] in H. left. cbn [fst].
      clear -H. induction selected as [|y sel IHs]; [contradiction|].
      simpl in H. destruct (String.eqb y x).
      * right. exact H.
      * destruct H as [<-|H]; [left; reflexivity|right; apply IHs, H].
Qed.

Lemma update_selection_spec select_all deselect_all checkbox array_fields selected :
  NoDup array_fields -> NoDup selected ->
  let st := update_selection select_all deselect_all checkbox array_fields selected in
  NoDup (fst st) /\
  forall f, In f (fst st) -> In f selected \/ In f array_fields.
Proof.
  intros Hfields Hsel. cbv zeta. unfold update_selection.
  destruct deselect_all; [|destruct select_all].
  - split.
    + apply (SelectionFacts.checkbox_loop_spec checkbox array_fields [] true
               Hfields (NoDup_nil _)).
    + intros f Hf. apply checkbox_loop_members in Hf.
      destruct Hf as [[]|Hf]. right. exact Hf.
  - split.
    + apply (SelectionFacts.checkbox_loop_spec checkbox array_fields array_fields
               true Hfields Hfields).
    + intros f Hf. apply checkbox_loop_members in Hf.
      right. destruct Hf as [Hf|Hf]; exact Hf.
  - split.
    + apply (SelectionFacts.checkbox_loop_spec checkbox array_fields selected
               false Hfields Hsel).
    + intros f Hf. apply checkbox_loop_members in Hf. exact Hf.
Qed.

End SidebarFacts.

(** X25.  For a schema whose field names are Avro names and differ
    within each record, Array Discovery reports no array twice: the
    checkboxes of the sidebar, whose widget keys are made from the
    reported paths, have different keys. *)
Theorem find_array_fields_distinct (schema_obj : Schema) (prefix : string)
    (parent_arrays : list string) :
  avro_names schema_obj = true ->
  unique_field_names schema_obj = true ->
  NoDup (find_array_fields schema_obj prefix parent_arrays).
Proof. intros. apply SidebarFacts.find_array_fields_nodup; assumption. Qed.

Lemma find_array_fields_distinct_witness :
  NoDup (find_array_fields deep_schema "" deep_policy).
Proof.
  apply (find_array_fields_distinct deep_schema "" deep_policy); reflexivity.
Defined.

(** X26.  What a run of the sidebar keeps, for a schema whose field
    names are Avro names and differ within each record: when the
    selection has no repetitions and holds only arrays that Array
    Discovery reports for the schema under some selection, the same is
    true after the run, whatever the buttons and checkboxes return. *)
Theorem sidebar_run_keeps (schema : Schema) (first_load : bool)
    (select_all deselect_all : bool) (checkbox : string -> bool -> bool)
    (selected_arrays : list string) :
  avro_names schema = true ->
  unique_field_names schema = true ->
  NoDup selected_arrays ->
  (forall q, In q selected_arrays ->
             exists parent_arrays, In q (find_array_fields schema "" parent_arrays)) ->
  let st :=
    sidebar_run schema first_load select_all deselect_all checkbox
      selected_arrays in
  NoDup (fst st) /\
  (forall q, In q (fst st) ->
             exists parent_arrays, In q (find_array_fields schema "" parent_arrays)).
Proof.
  intros Hnames Huniq Hnd Hinv. cbv zeta. unfold sidebar_run.
  set (array_fields :=
         if first_load then find_array_fields schema "" []
         else find_array_fields schema "" selected_arrays).
  assert (Hfields : NoDup array_fields).
  { unfold array_fields. destruct first_load;
      apply SidebarFacts.find_array_fields_nodup; assumption. }
  assert (Hdisc : forall q, In q array_fields ->
            exists parent_arrays, In q (find_array_fields schema "" parent_arrays)).
  { unfold array_fields. intros q Hq. destruct first_load; eauto. }
  destruct (SidebarFacts.update_selection_spec select_all deselect_all checkbox
              array_fields selected_arrays Hfields Hnd) as [H1 H2].
  destruct array_fields as [|a l] eqn:E.
  - split; [exact Hnd|exact Hinv].
  - split; [exact H1|].
    intros q Hq. destruct (H2 q Hq) as [H|H]; [apply Hinv, H|apply Hdisc, H].
Qed.

Lemma sidebar_run_keeps_witness :
  NoDup (fst (sidebar_run nested_schema false false false
                (fun f _ => String.eqb f "a[].item.b") ["a"])) /\
  fst (sidebar_run nested_schema false false false
         (fun f _ => String.eqb f "a[].item.b") ["a"]) = ["a[].item.b"].
Proof.
  split; [|reflexivity].
  apply (sidebar_run_keeps nested_schema false false false
           (fun f _ => String.eqb f "a[].item.b") ["a"]).
  - reflexivity.
  - reflexivity.
  - constructor; [intros []|constructor].
  - intros q [<-|[]]. exists []. left. reflexivity.
Defined.


(* ================================================================== *)
(** * The common fields *)
(* ================================================================== *)

Module TextFacts.
Import NameFacts.

Lemma forallb_append p a b :
  Str.forallb p (a ++ b) = Str.forallb p a && Str.forallb p b.
Proof.
  induction a as [|c a IH]; [reflexivity|].
  simpl. rewrite IH, andb_assoc. reflexivity.
Qed.

(** ** Stripping *)

Lemma lstrip_split s : exists ws, s = ws ++ lstrip s.
Proof.
  induction s as [|c tl [ws IH]]; [exists ""; reflexivity|].
  cbn [lstrip]. destruct (is_space c).
  - exists (String c ws). simpl. rewrite <- IH. reflexivity.
  - exists "". reflexivity.
Qed.

Lemma lstrip_head s c r : lstrip s = String c r -> is_space c = false.
Proof.
  induction s as [|d tl IH]; [discriminate|].
  cbn [lstrip]. destruct (is_space d) eqn:E; [exact IH|].
  intro H. injection H as <- _. exact E.
Qed.

Lemma lstrip_id c r : is_space c = false -> lstrip (String c r) = String c r.
Proof. intro H. cbn [lstrip]. rewrite H. reflexivity. Qed.

Lemma rstrip_split s : exists ws, s = rstrip s ++ ws.
Proof.
  induction s as [|c tl [ws IH]]; [exists ""; reflexivity|].
  cbn [rstrip]. destruct (rstrip tl) as [|d r] eqn:E.
  - destruct (is_space c).
    + exists (String c tl). reflexivity.
    + exists ws. simpl. simpl in IH. rewrite <- IH. reflexivity.
  - exists ws. simpl. simpl in IH. rewrite <- IH. reflexivity.
Qed.

Lemma rstrip_last s :
  rstrip s <> "" ->
  exists c, last_char (rstrip s) = Some c /\ is_space c = false.
Proof.
  induction s as [|c tl IH]; [intro H; contradiction H; reflexivity|].
  cbn [rstrip]. destruct (rstrip tl) as [|d r] eqn:E.
  - destruct (is_space c) eqn:S; [intro H; contradiction H; reflexivity|].
    intros _. exists c. split; [reflexivity|exact S].
  - intros _. destruct IH as [x [H1 H2]]; [discriminate|].
    exists x. split; [|exact H2]. exact H1.
Qed.

Lemma rstrip_id s c :
  last_char s = Some c -> is_space c = false -> rstrip s = s.
Proof.
  induction s as [|d tl IH]; [discriminate|].
  intros Hlast Hc. destruct tl as [|e tl'].
  - simpl in Hlast. injection Hlast as ->. cbn [rstrip]. rewrite Hc. reflexivity.
  - change (last_char (String d (String e tl'))) with (last_char (String e tl'))
      in Hlast.
    change (rstrip (String d (String e tl')))
      with (match rstrip (String e tl') with
            | EmptyString => if is_space d then EmptyString else String d EmptyString
            | r => String d r
            end).
    rewrite (IH Hlast Hc). reflexivity.
Qed.

Lemma trimmed_strip s : trimmed s = true -> strip s = s.
Proof.
  unfold trimmed, strip. intro H. apply andb_prop in H. destruct H as [H1 H2].
  destruct (last_char s) as [c|] eqn:L; [|discriminate H2].
  apply negb_true_iff in H2. rewrite (rstrip_id s c L H2).
  destruct s as [|d r]; [discriminate H1|].
  apply negb_true_iff in H1. apply lstrip_id, H1.
Qed.

(** ** The first word *)

Lemma first_word_split s :
  s = fst (first_word s) ++ snd (first_word s) /\
  Str.forallb (fun c => negb (is_space c)) (fst (first_word s)) = true.
Proof.
  induction s as [|c tl [IH1 IH2]]; [split; reflexivity|].
  cbn [first_word]. destruct (is_space c) eqn:S; [split; reflexivity|].
  destruct (first_word tl) as [w r]. cbn [fst snd] in *.
  split; [simpl; rewrite <- IH1; reflexivity|].
  simpl. rewrite S, IH2. reflexivity.
Qed.

Lemma first_word_nonempty c r :
  is_space c = false -> fst (first_word (String c r)) <> "".
Proof.
  intro S. cbn [first_word]. rewrite S.
  destruct (first_word r). discriminate.
Qed.

Lemma first_word_of w sp t :
  Str.forallb (fun c => negb (is_space c)) w = true -> is_space sp = true ->
  first_word (w ++ String sp t) = (w, String sp t).
Proof.
  intros Hw Hsp. induction w as [|c w IH].
  - cbn [append first_word]. rewrite Hsp. reflexivity.
  - simpl in Hw. apply andb_prop in Hw. destruct Hw as [Hc Hw].
    apply negb_true_iff in Hc.
    cbn [append first_word]. rewrite Hc, (IH Hw). reflexivity.
Qed.

(** The two parts of a line that has two. *)
Lemma split_once_two s name type_info :
  split_once s = [ name; type_info ] ->
  is_word name = true /\
  (exists c r, type_info = String c r /\ is_space c = false) /\
  exists before, s = before ++ type_info.
Proof.
  unfold split_once. destruct (lstrip_split s) as [ws Hs].
  destruct (lstrip s) as [|c r] eqn:L; [discriminate|].
  pose proof (lstrip_head s c r L) as Hc.
  destruct (first_word_split (String c r)) as [F1 F2].
  pose proof (first_word_nonempty c r Hc) as F3.
  destruct (first_word (String c r)) as [w rest]. cbn [fst snd] in *.
  destruct (lstrip_split rest) as [ws' Hrest].
  destruct (lstrip rest) as [|d r'] eqn:L'; [discriminate|].
  intro E. injection E as <- <-.
  split; [|split].
  - unfold is_word. rewrite F2, andb_true_r. apply negb_true_iff.
    apply String.eqb_neq. exact F3.
  - exists d, r'. split; [reflexivity|apply (lstrip_head rest d r' L')].
  - exists (ws ++ w ++ ws'). rewrite Hs, F1, Hrest at 1.
    rewrite !WalkFacts.append_assoc. reflexivity.
Qed.

(** ** Lines *)

Lemma split_on_nonempty sep s : split_on sep s <> [].
Proof.
  destruct s as [|c tl]; [discriminate|]. simpl.
  destruct (Ascii.eqb c sep); [discriminate|].
  destruct (split_on sep tl); discriminate.
Qed.

Lemma split_on_pieces sep s x :
  In x (split_on sep s) ->
  Str.forallb (fun c => negb (Ascii.eqb c sep)) x = true.
Proof.
  revert x. induction s as [|c tl IH]; intros x H.
  - destruct H as [<-|[]]. reflexivity.
  - cbn [split_on] in H. destruct (Ascii.eqb c sep) eqn:E.
    + destruct H as [<-|H]; [reflexivity|apply IH, H].
    + pose proof (split_on_nonempty sep tl) as Hne.
      destruct (split_on sep tl) as [|p ps]; [contradiction|].
      destruct H as [<-|H].
      * simpl. rewrite E. apply IH. left. reflexivity.
      * apply IH. right. exact H.
Qed.

Lemma split_on_line sep line :
  Str.forallb (fun c => negb (Ascii.eqb c sep)) line = true ->
  split_on sep line = [ line ].
Proof.
  induction line as [|c tl IH]; intro H; [reflexivity|].
  simpl in H. apply andb_prop in H. destruct H as [Hc Htl].
  apply negb_true_iff in Hc. cbn [split_on]. rewrite Hc, (IH Htl). reflexivity.
Qed.

Lemma split_on_cons sep line rest :
  Str.forallb (fun c => negb (Ascii.eqb c sep)) line = true ->
  split_on sep (line ++ String sep rest) = line :: split_on sep rest.
Proof.
  induction line as [|c tl IH]; intro H.
  - cbn [append split_on]. rewrite Ascii.eqb_refl. reflexivity.
  - simpl in H. apply andb_prop in H. destruct H as [Hc Htl].
    apply negb_true_iff in Hc.
    cbn [append split_on]. rewrite Hc, (IH Htl). reflexivity.
Qed.

Lemma split_on_join sep lines :
  lines <> [] ->
  (forall line, In line lines ->
     Str.forallb (fun c => negb (Ascii.eqb c sep)) line = true) ->
  split_on sep (String.concat (String sep "") lines) = lines.
Proof.
  induction lines as [|line lines IH]; [contradiction|]. intros _ H.
  destruct lines as [|line' lines].
  - apply split_on_line, H. left. reflexivity.
  - change (String.concat (String sep "") (line :: line' :: lines))
      with (line ++ String sep "" ++ String.concat (String sep "") (line' :: lines)).
    cbn [append].
    rewrite split_on_cons by (apply H; left; reflexivity).
    rewrite IH; [reflexivity|discriminate|].
    intros l Hl. apply H. right. exact Hl.
Qed.

(** ** A line in the format of the page *)

Lemma space_is_space : is_space " " = true.
Proof. reflexivity. Qed.

Lemma newline_is_space c : Ascii.eqb c "010" = true -> is_space c = true.
Proof. intro H. apply Ascii.eqb_eq in H. subst c. reflexivity. Qed.

Lemma word_one_line w :
  Str.forallb (fun c => negb (is_space c)) w = true -> one_line w = true.
Proof.
  unfold one_line. induction w as [|c w IH]; [reflexivity|].
  simpl. intro H. apply andb_prop in H. destruct H as [Hc Hw].
  rewrite (IH Hw), andb_true_r. apply negb_true_iff.
  destruct (Ascii.eqb c "010") eqn:E; [|reflexivity].
  rewrite (newline_is_space c E) in Hc. discriminate Hc.
Qed.

Lemma line_facts name type_info :
  is_word name = true -> trimmed type_info = true -> one_line type_info = true ->
  trimmed (common_field_line (name, type_info)) = true /\
  one_line (common_field_line (name, type_info)) = true /\
  split_once (common_field_line (name, type_info)) = [ name; type_info ].
Proof.
  unfold is_word, common_field_line. cbn [fst snd]. intros Hn Ht Hl.
  apply andb_prop in Hn. destruct Hn as [Hne Hw].
  apply negb_true_iff, String.eqb_neq in Hne.
  pose proof Ht as Ht'. unfold trimmed in Ht'. apply andb_prop in Ht'.
  destruct Ht' as [T1 T2].
  destruct type_info as [|d r]; [discriminate T1|].
  destruct name as [|c w]; [contradiction|].
  pose proof Hw as Hw'. simpl in Hw'. apply andb_prop in Hw'.
  destruct Hw' as [Hc _]. apply negb_true_iff in Hc.
  apply negb_true_iff in T1.
  split; [|split].
  - unfold trimmed. apply andb_true_intro. split.
    + simpl. rewrite Hc. reflexivity.
    + rewrite last_char_append by discriminate.
      change (" " ++ String d r) with (String " " (String d r)).
      change (last_char (String " " (String d r))) with (last_char (String d r)).
      exact T2.
  - unfold one_line in *. rewrite forallb_append.
    change (" " ++ String d r) with (String " " (String d r)).
    fold (one_line (String c w)). rewrite (word_one_line _ Hw).
    simpl. simpl in Hl. exact Hl.
  - unfold split_once.
    change (String c w ++ " " ++ String d r)
      with (String c (w ++ String " " (String d r))).
    rewrite (lstrip_id c _ Hc).
    change (String c (w ++ String " " (String d r)))
      with (String c w ++ String " " (String d r)).
    rewrite (first_word_of (String c w) " " (String d r) Hw space_is_space).
    cbn [lstrip]. rewrite space_is_space. cbn [lstrip]. rewrite T1. reflexivity.
Qed.

Lemma trimmed_nonempty s : trimmed s = true -> s <> "".
Proof. destruct s; [discriminate|discriminate]. Qed.

Lemma concat_trimmed lines :
  lines <> [] ->
  (forall line, In line lines -> trimmed line = true) ->
  trimmed (String.concat newline lines) = true.
Proof.
  induction lines as [|line lines IH]; [contradiction|]. intros _ H.
  destruct lines as [|line' lines].
  - apply H. left. reflexivity.
  - change (String.concat newline (line :: line' :: lines))
      with (line ++ newline ++ String.concat newline (line' :: lines)).
    assert (Hrest : trimmed (String.concat newline (line' :: lines)) = true).
    { apply IH; [discriminate|]. intros l Hl. apply H. right. exact Hl. }
    pose proof (H line (or_introl eq_refl)) as Hline.
    unfold trimmed in *. apply andb_prop in Hline. destruct Hline as [L1 _].
    apply andb_prop in Hrest. destruct Hrest as [R1 R2].
    destruct line as [|c r]; [discriminate L1|].
    apply andb_true_intro. split; [exact L1|].
    destruct (String.concat newline (line' :: lines)) as [|d rest] eqn:E;
      [discriminate R1|].
    rewrite last_char_append by discriminate.
    exact R2.
Qed.

Lemma parse_line field :
  is_word (fst field) = true -> trimmed (snd field) = true ->
  one_line (snd field) = true ->
  (if String.eqb (strip (common_field_line field)) "" then []
   else match split_once (strip (common_field_line field)) with
        | [ name; type_info ] => [ (name, type_info) ]
        | _ => []
        end) = [ field ].
Proof.
  destruct field as [name type_info]. cbn [fst snd]. intros Hn Ht Hl.
  destruct (line_facts name type_info Hn Ht Hl) as [H1 [_ H3]].
  rewrite (trimmed_strip _ H1), H3.
  destruct (String.eqb (common_field_line (name, type_info)) "") eqn:E;
    [|reflexivity].
  apply String.eqb_eq in E. exfalso. apply (trimmed_nonempty _ H1), E.
Qed.

End TextFacts.

(** X27.  Every common field the page reads from the text area has a
    name that is one word and a type that is not empty, has no line
    break and neither begins nor ends with whitespace. *)
Theorem parse_common_fields_entries (common_fields name type_info : string) :
  In (name, type_info) (parse_common_fields common_fields) ->
  is_word name = true /\ trimmed type_info = true /\ one_line type_info = true.
Proof.
  unfold parse_common_fields. intro H. apply in_flat_map in H.
  destruct H as [line [Hline H]].
  pose proof (TextFacts.split_on_pieces _ _ _ Hline) as Hnl.
  destruct (String.eqb (strip line) "") eqn:E; [contradiction|].
  apply String.eqb_neq in E.
  destruct (split_once (strip line)) as [|a [|b [|c l]]] eqn:S; try contradiction.
  destruct H as [H|[]]. injection H as -> ->.
  destruct (TextFacts.split_once_two _ _ _ S) as [Hword [[c [r [Ht Hc]]] [before Hb]]].
  split; [exact Hword|].
  unfold strip in *.
  destruct (TextFacts.lstrip_split (rstrip line)) as [ws Hws].
  destruct (TextFacts.rstrip_split line) as [ws' Hws'].
  assert (Hr : rstrip line <> "").
  { intro Hr. rewrite Hr in E. contradiction E. reflexivity. }
  destruct (TextFacts.rstrip_last line Hr) as [x [Hx1 Hx2]].
  assert (Hsuffix : rstrip line = (ws ++ before) ++ type_info).
  { rewrite Hws at 1. rewrite Hb at 1. rewrite WalkFacts.append_assoc.
    reflexivity. }
  split.
  - unfold trimmed. apply andb_true_intro. split.
    + rewrite Ht. rewrite Hc. reflexivity.
    + rewrite Hsuffix in Hx1.
      rewrite NameFacts.last_char_append in Hx1 by (rewrite Ht; discriminate).
      rewrite Hx1, Hx2. reflexivity.
  - unfold one_line. rewrite Hws', Hsuffix in Hnl.
    rewrite !TextFacts.forallb_append in Hnl.
    apply andb_prop in Hnl. destruct Hnl as [Hnl _].
    apply andb_prop in Hnl. destruct Hnl as [_ Hnl]. exact Hnl.
Qed.

Lemma parse_common_fields_entries_witness :
  is_word "depaudit_insert_date" = true /\ trimmed "TIMESTAMP" = true /\
  one_line "TIMESTAMP" = true.
Proof.
  apply (parse_common_fields_entries
           ("id STRING" ++ newline ++ "    depaudit_insert_date TIMESTAMP  "
            ++ newline ++ "orphan")).
  right. left. reflexivity.
Defined.

(** X28.  Reading back what the page shows: a text made of one line
    per common field, the name, a space and the type, is read as the
    list of those fields, in order, when every name is one word and
    every type is on one line and neither begins nor ends with
    whitespace. *)
Theorem parse_common_fields_lines (fields : list (string * string)) :
  (forall field, In field fields ->
     is_word (fst field) = true /\ trimmed (snd field) = true /\
     one_line (snd field) = true) ->
  parse_common_fields
    (String.concat newline (List.map common_field_line fields)) = fields.
Proof.
  intro Hfields. unfold parse_common_fields.
  destruct fields as [|f0 fields0] eqn:Ef; [reflexivity|].
  rewrite <- Ef in *.
  assert (Hne : List.map common_field_line fields <> [])
    by (rewrite Ef; discriminate).
  clear f0 fields0 Ef.
  assert (Hlines : forall line, In line (List.map common_field_line fields) ->
                     trimmed line = true /\ one_line line = true).
  { intros line Hline. apply in_map_iff in Hline.
    destruct Hline as [[name type_info] [<- Hf]].
    destruct (Hfields _ Hf) as [Hn [Ht Hl]]. cbn [fst snd] in *.
    destruct (TextFacts.line_facts name type_info Hn Ht Hl) as [H1 [H2 _]].
    split; assumption. }
  rewrite (TextFacts.trimmed_strip _
             (TextFacts.concat_trimmed _ Hne (fun l Hl => proj1 (Hlines l Hl)))).
  change newline with (String "010" "").
  rewrite (TextFacts.split_on_join "010" _ Hne (fun l Hl => proj2 (Hlines l Hl))).
  clear Hne Hlines.
  induction fields as [|field fields IH]; [reflexivity|].
  cbn [List.map flat_map].
  destruct (Hfields field (or_introl eq_refl)) as [Hn [Ht Hl]].
  rewrite (TextFacts.parse_line field Hn Ht Hl).
  rewrite IH; [reflexivity|].
  intros f Hf. apply Hfields. right. exact Hf.
Qed.

Lemma parse_common_fields_lines_witness :
  parse_common_fields
    ("depaudit_process_run_id STRING" ++ newline ++
     "depaudit_kafka_topic VARCHAR(100)")
  = [ ("depaudit_process_run_id", "STRING");
      ("depaudit_kafka_topic", "VARCHAR(100)") ].
Proof.
  apply (parse_common_fields_lines
           [ ("depaudit_process_run_id", "STRING");
             ("depaudit_kafka_topic", "VARCHAR(100)") ]).
  intros field [<-|[<-|[]]]; repeat split.
Defined.


(* ================================================================== *)
(** * The names of the columns *)
(* ================================================================== *)

Module ColumnFacts.
Import DictFacts DDLFacts NamerFacts.

(** The fields of the table of [k]. *)
Lemma build_table_content selected paths k :
  Dict.get_default k [] (array_tables (build_table_hierarchy selected paths))
  = (first_match_items selected k paths ++ nested_copies selected k paths)%list.
Proof.
  rewrite CountFacts.build_unfold. cbn [array_tables].
  destruct (TableFacts.first_loop_fold selected paths [] []) as [_ H].
  rewrite TableFacts.second_loop_get, (H k). reflexivity.
Qed.

(** A table holds descriptors of the walk that lie under its array. *)
Lemma table_members selected paths k fields x :
  Dict.get k (array_tables (build_table_hierarchy selected paths)) = Some fields ->
  In x fields ->
  exists i, x = Info i /\ In x paths /\ under_array (path i) k = true.
Proof.
  intros Hget Hin.
  pose proof (build_table_content selected paths k) as Hc.
  unfold Dict.get_default in Hc. rewrite Hget in Hc. subst fields.
  apply in_app_or in Hin. destruct Hin as [Hin|Hin].
  - unfold first_match_items in Hin. apply filter_In in Hin.
    destruct Hin as [Hp Hf]. destruct x as [s|i]; [discriminate Hf|].
    exists i. split; [reflexivity|]. split; [exact Hp|].
    destruct (find (under_array (path i)) selected) as [a|] eqn:F;
      [|discriminate Hf].
    apply String.eqb_eq in Hf. subst a. apply (find_some _ _ F).
  - unfold nested_copies in Hin. apply in_flat_map in Hin.
    destruct Hin as [a [_ Hin]]. apply in_flat_map in Hin.
    destruct Hin as [b [_ Hin]].
    destruct (under_array b a && negb (String.eqb b a) && String.eqb b k);
      [|contradiction].
    unfold under_items in Hin. apply filter_In in Hin.
    destruct Hin as [Hp Hf]. destruct x as [s|i]; [discriminate Hf|].
    exists i. split; [reflexivity|]. split; [exact Hp|exact Hf].
Qed.

(** [replace] leaves the first character where it finds no match. *)
Lemma replace_keeps_head c tl old new :
  String.prefix old (String c tl) = false ->
  exists r, Str.replace (String c tl) old new = String c r.
Proof.
  intro H. unfold Str.replace. cbn [Str.replace_from]. rewrite H. eauto.
Qed.

Lemma prefix_other_char k (c d : ascii) r s :
  c <> d -> String.prefix (k ++ String c r) (k ++ String d s) = false.
Proof.
  intro Hne. induction k as [|a k IH].
  - cbn [append String.prefix]. destruct (ascii_dec c d); [contradiction|reflexivity].
  - cbn [append String.prefix]. destruct (ascii_dec a a); [exact IH|reflexivity].
Qed.

(** Below an array, the name of a field is the name of its path with
    whatever [replace] takes away after the first character. *)
Lemma field_path_start k p :
  starts_with_name_char p = true -> under_array p k = true ->
  starts_with_name_char (Str.replace p (k ++ ".") "") = true.
Proof.
  intros Hstart Hunder. unfold under_array, Str.startswith in Hunder.
  destruct (WalkFacts.prefix_split _ _ Hunder) as [r E].
  destruct p as [|c tl]; [discriminate Hstart|].
  destruct (replace_keeps_head c tl (k ++ ".") "") as [r' ->]; [|exact Hstart].
  rewrite E, WalkFacts.append_assoc.
  apply prefix_other_char. discriminate.
Qed.

Lemma ident_plus_json s :
  matches_ident_plus s = true -> matches_ident_plus (s ++ "_json") = true.
Proof.
  unfold matches_ident_plus, matches_ident_star. intro H.
  apply andb_prop in H. destruct H as [H _].
  rewrite TextFacts.forallb_append, H.
  destruct s; reflexivity.
Qed.

End ColumnFacts.

(** X29.  When the root table has no field that can be its natural key,
    the select box returns nothing, and the foreign key to the root
    table is a column without a name: its name is the empty string and
    its type VARCHAR(255). *)
Theorem root_fk_without_key (root_table_name : string)
    (selectbox : string -> list string -> string) (root_fields : list PathItem) :
  root_fields_options root_fields = [] ->
  select_root_key selectbox root_fields = None /\
  root_fk root_table_name root_fields (select_root_key selectbox root_fields)
  = Some (mkColumn "" "VARCHAR(255)" (fk_comment root_table_name)).
Proof.
  intro H. unfold select_root_key. rewrite H. split; [reflexivity|].
  unfold root_fk, natural_key_col_name. cbn [find_field].
  assert (E : forall acc,
            fold_left
              (fun (acc : string) (field_info : PathItem) =>
                 match field_info with
                 | Info i =>
                     match @None string with
                     | Some k => if String.eqb (path i) k
                                 then get_column_name (path i) else acc
                     | None => acc
                     end
                 | Plain _ => acc
                 end) root_fields acc = acc).
  { induction root_fields as [|x l IH]; intro acc; [reflexivity|].
    cbn [fold_left]. destruct x as [s|i].
    - apply IH. unfold root_fields_options in *. exact H.
    - apply IH. unfold root_fields_options in *. cbn [flat_map] in H.
      apply app_eq_nil in H. apply H. }
  rewrite E. reflexivity.
Qed.

Lemma root_fk_without_key_witness :
  root_fk "t" [ Info (mkInfo "items[]" "array" None false NoExtra) ]
    (select_root_key (fun _ options => List.hd "" options)
       [ Info (mkInfo "items[]" "array" None false NoExtra) ])
  = Some (mkColumn "" "VARCHAR(255)" (fk_comment "t")).
Proof.
  apply (root_fk_without_key "t" (fun _ options => List.hd "" options)
           [ Info (mkInfo "items[]" "array" None false NoExtra) ]).
  reflexivity.
Defined.

(** X30.  For a schema whose field names are Avro names, the column of
    every field of every table has a name: the data columns of the root
    table and of the array tables are made without failure and their
    names match [[a-z0-9_]+]. *)
Theorem data_column_names (schema : Schema) (selected_arrays : list string)
    (paths : list PathItem) :
  avro_names schema = true ->
  extract_field_paths schema "" selected_arrays true = Some paths ->
  let ts := build_table_hierarchy selected_arrays paths in
  (forall i, In (Info i) (root_table ts) ->
     exists column,
       root_column i = Some column /\
       matches_ident_plus (col_name column) = true) /\
  (forall array_path fields i,
     Dict.get array_path (array_tables ts) = Some fields ->
     In (Info i) fields ->
     exists column,
       data_column array_path i = Some column /\
       matches_ident_plus (col_name column) = true).
Proof.
  intros Hnames Hwalk ts.
  assert (Hstart : forall i, In (Info i) paths ->
                             starts_with_name_char (path i) = true).
  { intros i Hi.
    apply (NameFacts.walker_paths_start schema "" selected_arrays true paths i
             Hnames eq_refl Hwalk Hi). }
  split.
  - intros i Hi.
    assert (Hp : In (Info i) paths).
    { unfold ts in Hi. rewrite CountFacts.build_unfold in Hi. cbn [root_table] in Hi.
      destruct (TableFacts.first_loop_fold selected_arrays paths [] []) as [H _].
      rewrite H in Hi. cbn [app] in Hi. unfold root_items in Hi.
      apply filter_In in Hi. apply Hi. }
    pose proof (NamerFacts.get_column_name_plus _ (Hstart i Hp)) as Hname.
    unfold root_column.
    destruct (String.eqb (field_type i) "array").
    + eexists. split; [reflexivity|]. apply ColumnFacts.ident_plus_json, Hname.
    + destruct (String.eqb (field_type i) "record").
      * eexists. split; [reflexivity|]. apply ColumnFacts.ident_plus_json, Hname.
      * destruct (DDLFacts.avro_to_hive_type_total i) as [t ->]. cbn [bind].
        eexists. split; [reflexivity|]. exact Hname.
  - intros array_path fields i Hget Hi.
    destruct (ColumnFacts.table_members selected_arrays paths array_path fields
                (Info i) Hget Hi) as [j [E [Hp Hunder]]].
    injection E as <-.
    pose proof (NamerFacts.get_column_name_plus _
                  (ColumnFacts.field_path_start array_path (path i)
                     (Hstart i Hp) Hunder)) as Hname.
    unfold data_column.
    destruct (String.eqb (field_type i) "array").
    + eexists. split; [reflexivity|]. apply ColumnFacts.ident_plus_json, Hname.
    + destruct (String.eqb (field_type i) "record").
      * eexists. split; [reflexivity|]. apply ColumnFacts.ident_plus_json, Hname.
      * destruct (DDLFacts.avro_to_hive_type_total i) as [t ->]. cbn [bind].
        eexists. split; [reflexivity|]. exact Hname.
Qed.

Lemma data_column_names_witness :
  exists column,
    data_column "a"
      (mkInfo "a[].item.b[]" "array" None false NoExtra) = Some column /\
    matches_ident_plus (col_name column) = true.
Proof.
  destruct (data_column_names nested_schema ["a"]
              [ leaf "id" "string"; leaf "a[].item.k" "string";
                Info (mkInfo "a[].item.b[]" "array" None false NoExtra) ]
              eq_refl eq_refl) as [_ H].
  apply (H "a"
           [ leaf "a[].item.k" "string";
             Info (mkInfo "a[].item.b[]" "array" None false NoExtra) ]).
  - reflexivity.
  - right. left. reflexivity.
Defined.
